(** * RideshareSimulation: the vehicle manager, the vehicles and the overlay

    A shallow embedding of [Vehicle.cpp], [VehicleManager.cpp] and
    [BasicGraphics.cpp].  The C++ objects become records, the member
    functions become functions from the old object to the new one, and the
    calls that can throw ([std::vector::at]) or dereference a null
    [shared_ptr] return a [result].

    The arithmetic of the vehicle code is [double]; its operations are the
    fields of the class [Scalar], whose instance below is IEEE binary64:
    Rocq's primitive floats, with the four [<cmath>] functions that Rocq
    does not have taken as a [Libm] record.  The overlay code computes in
    [float]; it is embedded over [SpecFloat] at binary32. *)

From Stdlib Require Import ZArith List Bool Lia.
From Stdlib Require Import Floats.
From Stdlib Require Import QArith.
Import ListNotations.

Set Implicit Arguments.

(** ** Outcomes of a member function *)

Inductive error : Type :=
| OutOfRange   (* std::out_of_range thrown by std::vector::at *)
| NullDeref.   (* operator-> on an empty shared_ptr *)

Inductive result (A : Type) : Type :=
| Ok (a : A)
| Err (e : error).

Arguments Ok {A} a.
Arguments Err {A} e.

Definition bind {A B : Type} (r : result A) (k : A -> result B) : result B :=
  match r with
  | Ok a => k a
  | Err e => Err e
  end.

Notation "x <- r ;; k" := (bind r (fun x => k))
  (at level 61, r at next level, right associativity).

(** [v.at(i)] *)
Definition at_ {A : Type} (l : list A) (i : nat) : result A :=
  match nth_error l i with
  | Some a => Ok a
  | None => Err OutOfRange
  end.

(** ** The arithmetic of the vehicle code *)

Class Scalar (F : Type) : Type := {
  add : F -> F -> F;
  sub : F -> F -> F;
  mul : F -> F -> F;
  div : F -> F -> F;
  fabs : F -> F;              (* std::abs *)
  sqrt : F -> F;              (* std::sqrt *)
  pow : F -> F -> F;          (* std::pow *)
  atan2 : F -> F -> F;        (* std::atan2 *)
  cos : F -> F;               (* std::cos *)
  sin : F -> F;               (* std::sin *)
  leb : F -> F -> bool;       (* operator<= *)
  eqb : F -> F -> bool;       (* operator== *)
  two : F;                    (* the literal 2 *)
  thousand : F                (* the literal 1000.0 *)
}.

Declare Scope scalar_scope.
Delimit Scope scalar_scope with sc.
Infix "+" := add : scalar_scope.
Infix "-" := sub : scalar_scope.
Infix "*" := mul : scalar_scope.
Infix "/" := div : scalar_scope.
Infix "<=?" := leb : scalar_scope.
Infix "=?" := eqb : scalar_scope.

(** ** Coordinates, passengers, vehicles *)

Inductive VehicleState : Type :=
| no_passenger_requested
| no_passenger_queued
| passenger_queued
| waiting
| driving_passenger.

Definition VehicleState_eqb (a b : VehicleState) : bool :=
  match a, b with
  | no_passenger_requested, no_passenger_requested
  | no_passenger_queued, no_passenger_queued
  | passenger_queued, passenger_queued
  | waiting, waiting
  | driving_passenger, driving_passenger => true
  | _, _ => false
  end.

Section Model.

Variable F : Type.
Context {SF : Scalar F}.
Local Open Scope scalar_scope.

(** [struct Coordinate { double x; double y; }] of Coordinate.h *)
Record Coordinate : Type := mkCoordinate { x : F; y : F }.

(** Modelled from the spec: Coordinate.h, which declares [operator==], is
    not among the sources; "Equality is exact float equality". *)
Definition Coordinate_eqb (a b : Coordinate) : bool :=
  (x a =? x b) && (y a =? y b).

(** Modelled from the spec: Passenger.h is not among the sources.  A
    passenger has an id, a start, a destination and a position;
    [GetDestination] and [SetPosition] read and write those fields. *)
Record Passenger : Type := mkPassenger {
  p_id : Z;
  p_start : Coordinate;
  p_destination : Coordinate;
  p_position : Coordinate
}.

Definition Passenger_GetDestination (p : Passenger) : Coordinate :=
  p_destination p.

Definition Passenger_SetPosition (p : Passenger) (c : Coordinate) : Passenger :=
  {| p_id := p_id p; p_start := p_start p;
     p_destination := p_destination p; p_position := c |}.

(** The data members of [Vehicle].  [passenger_] is a
    [shared_ptr<Passenger>]: [None] is the empty pointer.  The vehicle is
    the only holder the vehicle manager ever reaches the passenger through,
    so the pointee is kept in the vehicle record. *)
Record Vehicle : Type := mkVehicle {
  id_ : Z;
  position_ : Coordinate;
  destination_ : Coordinate;
  path_ : list Coordinate;
  path_index_ : nat;
  passenger_ : option Passenger;
  state_ : VehicleState;
  failures_ : Z
}.

(** *** Vehicle.cpp *)

(** [void Vehicle::ResetPathAndIndex()] *)
Definition Vehicle_ResetPathAndIndex (v : Vehicle) : Vehicle :=
  {| id_ := id_ v; position_ := position_ v; destination_ := destination_ v;
     path_ := []; path_index_ := 0;
     passenger_ := passenger_ v; state_ := state_ v; failures_ := failures_ v |}.

(** [void Vehicle::SetDestination(const Coordinate &destination)] *)
Definition Vehicle_SetDestination (v : Vehicle) (destination : Coordinate) : Vehicle :=
  Vehicle_ResetPathAndIndex
    {| id_ := id_ v; position_ := position_ v; destination_ := destination;
       path_ := path_ v; path_index_ := path_index_ v;
       passenger_ := passenger_ v; state_ := state_ v; failures_ := failures_ v |}.

(** [void Vehicle::SetPassenger(std::shared_ptr<Passenger> passenger)]:
    the argument is dereferenced, so an empty pointer is an error. *)
Definition Vehicle_SetPassenger (v : Vehicle) (passenger : option Passenger)
  : result Vehicle :=
  match passenger with
  | None => Err NullDeref
  | Some p =>
      let new_dest := Passenger_GetDestination p in
      Ok {| id_ := id_ v; position_ := position_ v; destination_ := new_dest;
            path_ := path_ v; path_index_ := path_index_ v;
            passenger_ := Some p; state_ := state_ v; failures_ := failures_ v |}
  end.

(** The other revision of [Vehicle::SetPassenger], which goes through
    [SetDestination]. *)
Definition Vehicle_SetPassenger_via_SetDestination (v : Vehicle)
    (passenger : option Passenger) : result Vehicle :=
  match passenger with
  | None => Err NullDeref
  | Some p =>
      Ok (Vehicle_SetDestination
            {| id_ := id_ v; position_ := position_ v;
               destination_ := destination_ v;
               path_ := path_ v; path_index_ := path_index_ v;
               passenger_ := Some p; state_ := state_ v;
               failures_ := failures_ v |}
            (Passenger_GetDestination p))
  end.

(** [void Vehicle::SetPosition(const Coordinate &position)] *)
Definition Vehicle_SetPosition (v : Vehicle) (position : Coordinate) : Vehicle :=
  {| id_ := id_ v; position_ := position; destination_ := destination_ v;
     path_ := path_ v; path_index_ := path_index_ v;
     passenger_ :=
       match passenger_ v with
       | Some p => Some (Passenger_SetPosition p position)
       | None => None
       end;
     state_ := state_ v; failures_ := failures_ v |}.

(** [void Vehicle::DropOffPassenger()] *)
Definition Vehicle_DropOffPassenger (v : Vehicle) : Vehicle :=
  {| id_ := id_ v; position_ := position_ v; destination_ := destination_ v;
     path_ := path_ v; path_index_ := path_index_ v;
     passenger_ := None; state_ := state_ v; failures_ := 0%Z |}.

(** The setters that Vehicle.h defines inline. *)
Definition Vehicle_SetState (v : Vehicle) (s : VehicleState) : Vehicle :=
  {| id_ := id_ v; position_ := position_ v; destination_ := destination_ v;
     path_ := path_ v; path_index_ := path_index_ v;
     passenger_ := passenger_ v; state_ := s; failures_ := failures_ v |}.

Definition Vehicle_SetId (v : Vehicle) (i : Z) : Vehicle :=
  {| id_ := i; position_ := position_ v; destination_ := destination_ v;
     path_ := path_ v; path_index_ := path_index_ v;
     passenger_ := passenger_ v; state_ := state_ v; failures_ := failures_ v |}.

Definition Vehicle_SetPath (v : Vehicle) (p : list Coordinate) : Vehicle :=
  {| id_ := id_ v; position_ := position_ v; destination_ := destination_ v;
     path_ := p; path_index_ := 0;
     passenger_ := passenger_ v; state_ := state_ v; failures_ := failures_ v |}.

Definition Vehicle_IncrementPathIndex (v : Vehicle) : Vehicle :=
  {| id_ := id_ v; position_ := position_ v; destination_ := destination_ v;
     path_ := path_ v; path_index_ := S (path_index_ v);
     passenger_ := passenger_ v; state_ := state_ v; failures_ := failures_ v |}.

(** *** The collaborators of the vehicle manager *)

(** Modelled from the spec: RouteModel.h is not among the sources.  The
    model exposes its latitude bounds, a random map position and the node
    closest to a coordinate.  The random source is an infinite sequence of
    draws; the manager counts how many it has consumed. *)
Record Node : Type := mkNode { node_x : F; node_y : F }.

Record RouteModel : Type := mkRouteModel {
  MinLat : F;
  MaxLat : F;
  RandomMapPosition : nat -> Coordinate;
  FindClosestNode : Coordinate -> Node
}.

(** Modelled from the spec: RoutePlanner.h is not among the sources.  The
    planner is a function from the vehicle's position and destination to a
    path (empty when there is no route); [AStarSearch] writes it to the
    vehicle and resets the path index. *)
Definition RoutePlanner : Type := Coordinate -> Coordinate -> list Coordinate.

Definition AStarSearch (route_planner : RoutePlanner) (vehicle : Vehicle)
  : Vehicle :=
  Vehicle_SetPath vehicle
    (route_planner (position_ vehicle) (destination_ vehicle)).

(** The calls the manager makes on the ride matcher, in the order made. *)
Inductive MatcherCall : Type :=
| VehicleRequestsPassenger (id : Z)
| VehicleHasArrived (id : Z).

(** What the member functions of the manager read and write besides the
    vehicle they are given: the random draws consumed and the matcher calls
    made. *)
Record World : Type := mkWorld {
  draws : nat;
  calls : list MatcherCall
}.

Definition M (A : Type) : Type := World -> result (A * World).

Definition ret {A : Type} (a : A) : M A := fun w => Ok (a, w).

Definition bindM {A B : Type} (m : M A) (k : A -> M B) : M B :=
  fun w =>
    match m w with
    | Ok (a, w') => k a w'
    | Err e => Err e
    end.

Definition lift {A : Type} (r : result A) : M A :=
  fun w =>
    match r with
    | Ok a => Ok (a, w)
    | Err e => Err e
    end.

Notation "x <~ m ;; k" := (bindM m (fun x => k))
  (at level 61, m at next level, right associativity).

(** [model_->GetRandomMapPosition()] *)
Definition GetRandomMapPosition (model_ : RouteModel) : M Coordinate :=
  fun w =>
    Ok (RandomMapPosition model_ (draws w),
        {| draws := S (draws w); calls := calls w |}).

(** A call on the ride matcher. *)
Definition tell (c : MatcherCall) : M unit :=
  fun w => Ok (tt, {| draws := draws w; calls := calls w ++ [c] |}).

(** *** VehicleManager.cpp

    Console output is not modelled, except for what it dereferences. *)

Record VehicleManager : Type := mkVehicleManager {
  model_ : RouteModel;
  vehicles_ : list Vehicle;
  idCnt_ : Z;
  distance_per_cycle_ : F;
  ride_matcher_ : bool;       (* false: nullptr *)
  world_ : World
}.

(** [void VehicleManager::ResetVehicleDestination(vehicle, bool random)] *)
Definition ResetVehicleDestination (model_ : RouteModel) (vehicle : Vehicle)
    (random : bool) : M Vehicle :=
  destination <~ (if random then GetRandomMapPosition model_
                  else ret (destination_ vehicle)) ;;
  let nearest_dest := FindClosestNode model_ destination in
  let vehicle := Vehicle_SetDestination vehicle
                   {| x := node_x nearest_dest; y := node_y nearest_dest |} in
  ret (Vehicle_ResetPathAndIndex vehicle).

(** [void VehicleManager::IncrementalMove(vehicle)] *)
Definition IncrementalMove (distance_per_cycle_ : F) (vehicle : Vehicle)
  : result Vehicle :=
  let pos := position_ vehicle in
  next_pos <- at_ (path_ vehicle) (path_index_ vehicle) ;;
  let distance :=
    sqrt (pow (x next_pos - x pos) two + pow (y next_pos - y pos) two) in
  if distance <=? distance_per_cycle_ then
    let vehicle :=
      Vehicle_SetPosition vehicle {| x := x next_pos; y := y next_pos |} in
    Ok (Vehicle_IncrementPathIndex vehicle)
  else
    let angle := atan2 (y next_pos - y pos) (x next_pos - x pos) in
    let new_pos_x := x pos + distance_per_cycle_ * cos angle in
    let new_pos_y := y pos + distance_per_cycle_ * sin angle in
    Ok (Vehicle_SetPosition vehicle {| x := new_pos_x; y := new_pos_y |}).

(** [void VehicleManager::RequestPassenger(vehicle)] *)
Definition RequestPassenger (ride_matcher_ : bool) (vehicle : Vehicle)
  : M Vehicle :=
  let vehicle := Vehicle_SetState vehicle no_passenger_queued in
  _ <~ (if ride_matcher_ then tell (VehicleRequestsPassenger (id_ vehicle))
        else ret tt) ;;
  ret vehicle.

(** [void VehicleManager::ArrivedAtPassenger(vehicle)] *)
Definition ArrivedAtPassenger (ride_matcher_ : bool) (vehicle : Vehicle)
  : M Vehicle :=
  let vehicle := Vehicle_SetState vehicle waiting in
  _ <~ (if ride_matcher_ then tell (VehicleHasArrived (id_ vehicle))
        else lift (Err NullDeref)) ;;
  ret vehicle.

(** [void VehicleManager::DropOffPassenger(vehicle)]: the console line
    reads [vehicle->GetPassenger()->Id()]. *)
Definition VehicleManager_DropOffPassenger (model_ : RouteModel)
    (vehicle : Vehicle) : M Vehicle :=
  _ <~ lift (match passenger_ vehicle with
             | Some p => Ok (p_id p)
             | None => Err NullDeref
             end) ;;
  let vehicle := Vehicle_DropOffPassenger vehicle in
  vehicle <~ ResetVehicleDestination model_ vehicle true ;;
  ret (Vehicle_SetState vehicle no_passenger_requested).

(** The body of the [for] loop of [VehicleManager::Drive], in its three
    parts.  The first part either ends the iteration ([continue], [inl]) or
    hands the routed vehicle on ([inr]). *)
Definition Drive_route (route_planner : RoutePlanner) (model_ : RouteModel)
    (vehicle : Vehicle) : M (Vehicle + Vehicle) :=
  match path_ vehicle with
  | [] =>
      let vehicle := AStarSearch route_planner vehicle in
      match path_ vehicle with
      | [] =>
          vehicle <~ ResetVehicleDestination model_ vehicle true ;;
          ret (inl vehicle)
      | _ :: _ => ret (inr vehicle)
      end
  | _ :: _ => ret (inr vehicle)
  end.

Definition Drive_request (ride_matcher_ : bool) (vehicle : Vehicle)
  : M Vehicle :=
  if VehicleState_eqb (state_ vehicle) no_passenger_requested
  then RequestPassenger ride_matcher_ vehicle
  else ret vehicle.

(** The test "Check if at destination" and its three branches. *)
Definition Drive_arrival (model_ : RouteModel) (ride_matcher_ : bool)
    (vehicle : Vehicle) : M Vehicle :=
  if Coordinate_eqb (position_ vehicle) (destination_ vehicle) then
    if VehicleState_eqb (state_ vehicle) no_passenger_queued then
      ResetVehicleDestination model_ vehicle true
    else if VehicleState_eqb (state_ vehicle) passenger_queued then
      ArrivedAtPassenger ride_matcher_ vehicle
    else if VehicleState_eqb (state_ vehicle) driving_passenger then
      VehicleManager_DropOffPassenger model_ vehicle
    else ret vehicle
  else ret vehicle.

Definition Drive_vehicle (route_planner : RoutePlanner) (model_ : RouteModel)
    (distance_per_cycle_ : F) (ride_matcher_ : bool) (vehicle : Vehicle)
  : M Vehicle :=
  routed <~ Drive_route route_planner model_ vehicle ;;
  match routed with
  | inl vehicle => ret vehicle
  | inr vehicle =>
      vehicle <~ Drive_request ride_matcher_ vehicle ;;
      if VehicleState_eqb (state_ vehicle) waiting then ret vehicle
      else
        vehicle <~ lift (IncrementalMove distance_per_cycle_ vehicle) ;;
        Drive_arrival model_ ride_matcher_ vehicle
  end.

(** [for (auto &vehicle : vehicles_) ...] *)
Fixpoint Drive_vehicles (route_planner : RoutePlanner) (model_ : RouteModel)
    (distance_per_cycle_ : F) (ride_matcher_ : bool) (vs : list Vehicle)
  : M (list Vehicle) :=
  match vs with
  | [] => ret []
  | vehicle :: rest =>
      vehicle <~ Drive_vehicle route_planner model_ distance_per_cycle_
                   ride_matcher_ vehicle ;;
      rest <~ Drive_vehicles route_planner model_ distance_per_cycle_
                ride_matcher_ rest ;;
      ret (vehicle :: rest)
  end.

Definition with_vehicles (vm : VehicleManager) (vs : list Vehicle) (w : World)
  : VehicleManager :=
  {| model_ := model_ vm; vehicles_ := vs; idCnt_ := idCnt_ vm;
     distance_per_cycle_ := distance_per_cycle_ vm;
     ride_matcher_ := ride_matcher_ vm; world_ := w |}.

(** One iteration of the [while (true)] loop of [VehicleManager::Drive]. *)
Definition Drive (route_planner : RoutePlanner) (vm : VehicleManager)
  : result VehicleManager :=
  r <- Drive_vehicles route_planner (model_ vm) (distance_per_cycle_ vm)
         (ride_matcher_ vm) (vehicles_ vm) (world_ vm) ;;
  Ok (with_vehicles vm (fst r) (snd r)).

(** The first [n] iterations of that loop. *)
Fixpoint Drive_times (n : nat) (route_planner : RoutePlanner)
    (vm : VehicleManager) : result VehicleManager :=
  match n with
  | O => Ok vm
  | S k => vm <- Drive route_planner vm ;; Drive_times k route_planner vm
  end.

(** [vehicles_.at(id)] with an [int] id, and the write through the shared
    pointer it returns. *)
Definition vehicle_at (vm : VehicleManager) (id : Z) : result Vehicle :=
  if (id <? 0)%Z then Err OutOfRange
  else at_ (vehicles_ vm) (Z.to_nat id).

Fixpoint replace_at (vs : list Vehicle) (i : nat) (v : Vehicle)
  : list Vehicle :=
  match vs, i with
  | [], _ => []
  | _ :: rest, O => v :: rest
  | u :: rest, S j => u :: replace_at rest j v
  end.

Definition in_manager (vm : VehicleManager) (id : Z)
    (f : Vehicle -> M Vehicle) : result VehicleManager :=
  vehicle <- vehicle_at vm id ;;
  r <- f vehicle (world_ vm) ;;
  Ok (with_vehicles vm (replace_at (vehicles_ vm) (Z.to_nat id) (fst r))
        (snd r)).

(** [void VehicleManager::AssignPassenger(int id, Coordinate position)] *)
Definition AssignPassenger_vehicle (model_ : RouteModel)
    (position : Coordinate) (vehicle : Vehicle) : M Vehicle :=
  let vehicle := Vehicle_SetDestination vehicle position in
  vehicle <~ ResetVehicleDestination model_ vehicle false ;;
  ret (Vehicle_SetState vehicle passenger_queued).

Definition AssignPassenger (vm : VehicleManager) (id : Z)
    (position : Coordinate) : result VehicleManager :=
  in_manager vm id (AssignPassenger_vehicle (model_ vm) position).

(** [void VehicleManager::PassengerIntoVehicle(int id, passenger)] *)
Definition PassengerIntoVehicle_vehicle (model_ : RouteModel)
    (passenger : option Passenger) (vehicle : Vehicle) : M Vehicle :=
  vehicle <~ lift (Vehicle_SetPassenger vehicle passenger) ;;
  vehicle <~ ResetVehicleDestination model_ vehicle false ;;
  ret (Vehicle_SetState vehicle driving_passenger).

Definition PassengerIntoVehicle (vm : VehicleManager) (id : Z)
    (passenger : option Passenger) : result VehicleManager :=
  in_manager vm id (PassengerIntoVehicle_vehicle (model_ vm) passenger).

(** Modelled from the spec: Vehicle.h is not among the sources.  A new
    vehicle carries nobody, has no path and no failures, and its state is
    [no_passenger_requested]; its coordinates are overwritten before use. *)
Definition Vehicle_new (origin : Coordinate) : Vehicle :=
  {| id_ := 0; position_ := origin; destination_ := origin;
     path_ := []; path_index_ := 0; passenger_ := None;
     state_ := no_passenger_requested; failures_ := 0 |}.

(** [void VehicleManager::GenerateNew()] *)
Definition GenerateNew (vm : VehicleManager) : VehicleManager :=
  let w := world_ vm in
  let start := RandomMapPosition (model_ vm) (draws w) in
  let destination := RandomMapPosition (model_ vm) (S (draws w)) in
  let nearest_start := FindClosestNode (model_ vm) start in
  let nearest_dest := FindClosestNode (model_ vm) destination in
  let vehicle := Vehicle_new start in
  let vehicle := Vehicle_SetPosition vehicle
                   {| x := node_x nearest_start; y := node_y nearest_start |} in
  let vehicle := Vehicle_SetDestination vehicle
                   {| x := node_x nearest_dest; y := node_y nearest_dest |} in
  let vehicle := Vehicle_SetId vehicle (idCnt_ vm) in
  {| model_ := model_ vm; vehicles_ := vehicles_ vm ++ [vehicle];
     idCnt_ := (idCnt_ vm + 1)%Z;
     distance_per_cycle_ := distance_per_cycle_ vm;
     ride_matcher_ := ride_matcher_ vm;
     world_ := {| draws := S (S (draws w)); calls := calls w |} |}.

Fixpoint GenerateNew_times (n : nat) (vm : VehicleManager) : VehicleManager :=
  match n with
  | O => vm
  | S k => GenerateNew_times k (GenerateNew vm)
  end.

(** [VehicleManager::VehicleManager(RouteModel *model)]; [MAX_OBJECTS] is a
    constant of ConcurrentObject.h, which is not among the sources, and the
    members the constructor does not set start at zero.  The source assigns
    [distance_per_cycle_] after the loop; [GenerateNew] does not read it. *)
Definition VehicleManager_new (MAX_OBJECTS : nat) (model : RouteModel)
  : VehicleManager :=
  GenerateNew_times MAX_OBJECTS
    {| model_ := model; vehicles_ := []; idCnt_ := 0;
       distance_per_cycle_ := fabs (MaxLat model - MinLat model) / thousand;
       ride_matcher_ := false;
       world_ := {| draws := 0; calls := [] |} |}.

(** [SetRideMatcher], inline in VehicleManager.h. *)
Definition SetRideMatcher (vm : VehicleManager) : VehicleManager :=
  {| model_ := model_ vm; vehicles_ := vehicles_ vm; idCnt_ := idCnt_ vm;
     distance_per_cycle_ := distance_per_cycle_ vm;
     ride_matcher_ := true; world_ := world_ vm |}.

End Model.

Arguments Coordinate F : clear implicits.
Arguments Passenger F : clear implicits.
Arguments Vehicle F : clear implicits.
Arguments Node F : clear implicits.
Arguments RouteModel F : clear implicits.
Arguments RoutePlanner F : clear implicits.
Arguments VehicleManager F : clear implicits.

(** ** Binary64 arithmetic: the code as compiled *)

(** The four functions of [<cmath>] that have no counterpart among Rocq's
    primitive floats. *)
Record Libm : Type := mkLibm {
  libm_pow : float -> float -> float;
  libm_atan2 : float -> float -> float;
  libm_cos : float -> float;
  libm_sin : float -> float
}.

Definition Double (m : Libm) : Scalar float :=
  {| add := PrimFloat.add;
     sub := PrimFloat.sub;
     mul := PrimFloat.mul;
     div := PrimFloat.div;
     fabs := PrimFloat.abs;
     sqrt := PrimFloat.sqrt;
     pow := libm_pow m;
     atan2 := libm_atan2 m;
     cos := libm_cos m;
     sin := libm_sin m;
     leb := PrimFloat.leb;
     eqb := PrimFloat.eqb;
     two := 2%float;
     thousand := 1000%float |}.

(** A [Libm] to run the code along the positive x axis, where the exact
    values are floats: [pow(a, 2) = a * a], [atan2(0, b) = 0] for [b > 0],
    [cos(0) = 1], [sin(0) = 0]; NaN elsewhere. *)
Definition axis_libm : Libm :=
  {| libm_pow := fun a b =>
       if PrimFloat.eqb b 2%float then PrimFloat.mul a a else nan;
     libm_atan2 := fun a b =>
       if PrimFloat.eqb a 0%float && PrimFloat.ltb 0%float b
       then 0%float else nan;
     libm_cos := fun a => if PrimFloat.eqb a 0%float then 1%float else nan;
     libm_sin := fun a => if PrimFloat.eqb a 0%float then 0%float else nan |}.

(** ** BasicGraphics.cpp: the overlay *)

Module BasicGraphics.

(** [float] is IEEE binary32. *)
Definition prec : Z := 24.
Definition emax : Z := 128.

Definition float32 : Type := spec_float.

Definition f32_sub : float32 -> float32 -> float32 := SFsub prec emax.
Definition f32_mul : float32 -> float32 -> float32 := SFmul prec emax.
Definition f32_div : float32 -> float32 -> float32 := SFdiv prec emax.

(** The conversion of an [int] to [float]. *)
Definition f32_of_int (n : Z) : float32 := binary_normalize prec emax n 0 false.

(** The cast [(int) f]: the value with its fraction discarded; it is
    undefined for NaN, for the infinities and outside the range of [int]. *)
Definition int_of_f32 (f : float32) : option Z :=
  match f with
  | S754_zero _ => Some 0%Z
  | S754_finite s m e =>
      let magnitude :=
        match e with
        | Z0 => Zpos m
        | Zpos p => (Zpos m * 2 ^ Zpos p)%Z
        | Zneg p => (Zpos m / 2 ^ Zpos p)%Z
        end in
      let n := if s then (- magnitude)%Z else magnitude in
      if ((- 2 ^ 31 <=? n) && (n <=? 2 ^ 31 - 1))%Z then Some n else None
  | S754_infinity _ | S754_nan => None
  end.

(** The members the two drawing functions read: the bounds given to the
    constructor and the size of the background image [images_.at(0)]. *)
Record BasicGraphics : Type := mkBasicGraphics {
  min_lat_ : float32;
  min_lon_ : float32;
  max_lat_ : float32;
  max_lon_ : float32;
  rows : Z;
  cols : Z
}.

Definition mk (min_lat min_lon max_lat max_lon : float32) (rows cols : Z)
  : BasicGraphics :=
  {| min_lat_ := min_lat; min_lon_ := min_lon;
     max_lat_ := max_lat; max_lon_ := max_lon;
     rows := rows; cols := cols |}.

(** "Adjust the position based on lat & lon in image": the two assignments
    to [position[0]] and [position[1]]. *)
Definition adjust (g : BasicGraphics) (position : float32 * float32)
  : float32 * float32 :=
  let p0 := f32_div (f32_sub (fst position) (min_lon_ g))
                    (f32_sub (max_lon_ g) (min_lon_ g)) in
  let p1 := f32_div (f32_sub (max_lat_ g) (snd position))
                    (f32_sub (max_lat_ g) (min_lat_ g)) in
  (p0, p1).

(** The centre handed to [cv::circle]:
    [cv::Point2d((int)(position[0] * img_cols), (int)(position[1] * img_rows))]. *)
Definition centre (g : BasicGraphics) (position : float32 * float32)
  : option (Z * Z) :=
  let img_rows := f32_of_int (rows g) in
  let img_cols := f32_of_int (cols g) in
  let position := adjust g position in
  match int_of_f32 (f32_mul (fst position) img_cols),
        int_of_f32 (f32_mul (snd position) img_rows) with
  | Some px, Some py => Some (px, py)
  | _, _ => None
  end.

Fixpoint centres (g : BasicGraphics) (ps : list (float32 * float32))
  : option (list (Z * Z)) :=
  match ps with
  | [] => Some []
  | p :: rest =>
      match centre g p, centres g rest with
      | Some c, Some cs => Some (c :: cs)
      | _, _ => None
      end
  end.

(** [void BasicGraphics::DrawIntersections()]: the circles drawn, one per
    intersection, given the positions [intersect.GetPosition()]. *)
Definition DrawIntersections (g : BasicGraphics)
    (intersections_ : list (float32 * float32)) : option (list (Z * Z)) :=
  centres g intersections_.

(** [void BasicGraphics::DrawPassengers()]: two circles per passenger, at
    its start and at its destination. *)
Fixpoint DrawPassengers (g : BasicGraphics)
    (passengers : list ((float32 * float32) * (float32 * float32)))
  : option (list (Z * Z)) :=
  match passengers with
  | [] => Some []
  | (start_position, dest_position) :: rest =>
      match centre g start_position, centre g dest_position,
            DrawPassengers g rest with
      | Some s, Some d, Some cs => Some (s :: d :: cs)
      | _, _, _ => None
      end
  end.

(** The mapping as the specification words it, with the same [float]
    operations and no cast:
    [px = (lon - min_lon) / (max_lon - min_lon) * width],
    [py = (max_lat - lat) / (max_lat - min_lat) * height]. *)
Definition spec_px (g : BasicGraphics) (lon : float32) : float32 :=
  f32_mul (f32_div (f32_sub lon (min_lon_ g))
                   (f32_sub (max_lon_ g) (min_lon_ g)))
          (f32_of_int (cols g)).

Definition spec_py (g : BasicGraphics) (lat : float32) : float32 :=
  f32_mul (f32_div (f32_sub (max_lat_ g) lat)
                   (f32_sub (max_lat_ g) (min_lat_ g)))
          (f32_of_int (rows g)).

(** The exact value of a finite [float], as a rational. *)
Definition Q_of_f32 (f : float32) : option Q :=
  match f with
  | S754_zero _ => Some 0%Q
  | S754_finite s m e =>
      let n := if s then Zneg m else Zpos m in
      Some (match e with
            | Z0 => inject_Z n
            | Zpos p => inject_Z (n * 2 ^ Zpos p)
            | Zneg p => Qmake n (2 ^ p)
            end)
  | S754_infinity _ | S754_nan => None
  end.

(** Truncation toward zero of a rational. *)
Definition Qtruncate (q : Q) : Z := Z.quot (Qnum q) (Zpos (Qden q)).

(** A centre is the truncation of what the specification's mapping gives
    for a position. *)
Definition truncated_pixel (g : BasicGraphics) (position : float32 * float32)
    (c : Z * Z) : Prop :=
  exists qx qy : Q,
    Q_of_f32 (spec_px g (fst position)) = Some qx /\
    Q_of_f32 (spec_py g (snd position)) = Some qy /\
    fst c = Qtruncate qx /\ snd c = Qtruncate qy.

(** The positions [DrawPassengers] draws, in order. *)
Definition ends (passengers : list ((float32 * float32) * (float32 * float32)))
  : list (float32 * float32) :=
  flat_map (fun p => [fst p; snd p]) passengers.

(** A [float] that is zero or a finite number. *)
Definition finite32 (f : float32) : bool :=
  match f with
  | S754_zero _ | S754_finite _ _ _ => true
  | S754_infinity _ | S754_nan => false
  end.

(** A [float] that is a finite number other than zero. *)
Definition nonzero32 (f : float32) : bool :=
  match f with
  | S754_finite _ _ _ => true
  | _ => false
  end.

End BasicGraphics.

(** ** BasicGraphics.cpp: the images

    The three images of [images_] and what [LoadBackgroundImg],
    [DrawSimulation] and the two drawing functions do to them.  OpenCV is a
    parameter: an image is a value, [clone] is the identity on values,
    [circle img c colour] is [img] after
    [cv::circle(img, c, 25, colour, -1)], and [addWeighted a b] is what
    [cv::addWeighted(a, 0.85, b, 1.0 - 0.85, 0, dst)] writes to [dst]. *)

(** How a drawing function ends. *)
Inductive drawing (A : Type) : Type :=
| Drawn (a : A)
| Thrown          (* std::out_of_range from images_.at *)
| Undefined.      (* a cast to int of a float that has no int value *)

Arguments Drawn {A} a.
Arguments Thrown {A}.
Arguments Undefined {A}.

Section Images.

Import BasicGraphics.

Variables Image Colour : Type.
Variable img_rows img_cols : Image -> Z.
Variable circle : Image -> Z * Z -> Colour -> Image.
Variable addWeighted : Image -> Image -> Image.
Variable green : Colour.                    (* cv::Scalar(0, 255, 0) *)

(** What is read of a passenger of [passenger_queue_.NewPassengers()]. *)
Record Rider : Type := mkRider {
  rider_start : float32 * float32;          (* StartX(), StartY() *)
  rider_dest : float32 * float32;           (* DestX(), DestY() *)
  rider_colour : Colour                     (* Blue(), Green(), Red() *)
}.

Record Screen : Type := mkScreen {
  s_min_lat : float32;
  s_min_lon : float32;
  s_max_lat : float32;
  s_max_lon : float32;
  images_ : list Image;
  intersections_ : list (float32 * float32);
  new_passengers : list Rider
}.

Definition with_images (s : Screen) (imgs : list Image) : Screen :=
  {| s_min_lat := s_min_lat s; s_min_lon := s_min_lon s;
     s_max_lat := s_max_lat s; s_max_lon := s_max_lon s;
     images_ := imgs; intersections_ := intersections_ s;
     new_passengers := new_passengers s |}.

(** [images_.at(i)], read and written. *)
Definition image_at (s : Screen) (i : nat) : drawing Image :=
  match nth_error (images_ s) i with
  | Some img => Drawn img
  | None => Thrown
  end.

Fixpoint put (imgs : list Image) (i : nat) (img : Image) : list Image :=
  match imgs, i with
  | [], _ => []
  | _ :: rest, O => img :: rest
  | a :: rest, S j => a :: put rest j img
  end.

Definition set_image (s : Screen) (i : nat) (img : Image) : drawing Screen :=
  match nth_error (images_ s) i with
  | Some _ => Drawn (with_images s (put (images_ s) i img))
  | None => Thrown
  end.

Definition and_then {A B : Type} (d : drawing A) (k : A -> drawing B)
  : drawing B :=
  match d with
  | Drawn a => k a
  | Thrown => Thrown
  | Undefined => Undefined
  end.

(** [void BasicGraphics::LoadBackgroundImg()], given the image read from
    [bgFilename_]. *)
Definition LoadBackgroundImg (s : Screen) (background : Image) : Screen :=
  with_images s (images_ s ++ [background; background; background]).

(** The bounds of the screen with the size of an image. *)
Definition graphics_of (s : Screen) (img : Image) : BasicGraphics :=
  mk (s_min_lat s) (s_min_lon s) (s_max_lat s) (s_max_lon s)
     (img_rows img) (img_cols img).

(** One [cv::circle] on [images_.at(1)]. *)
Definition draw_circle (g : BasicGraphics) (s : Screen)
    (position : float32 * float32) (colour : Colour) : drawing Screen :=
  match centre g position with
  | None => Undefined
  | Some c =>
      and_then (image_at s 1) (fun overlay =>
      set_image s 1 (circle overlay c colour))
  end.

(** [cv::addWeighted(images_.at(1), opacity, images_.at(0), 1.0 - opacity,
    0, images_.at(2))] *)
Definition blend (s : Screen) : drawing Screen :=
  and_then (image_at s 1) (fun overlay =>
  and_then (image_at s 0) (fun background =>
  and_then (image_at s 2) (fun _ =>
  set_image s 2 (addWeighted overlay background)))).

Fixpoint draw_intersections (g : BasicGraphics) (s : Screen)
    (ps : list (float32 * float32)) : drawing Screen :=
  match ps with
  | [] => Drawn s
  | p :: rest =>
      and_then (draw_circle g s p green) (fun s =>
      draw_intersections g s rest)
  end.

(** [void BasicGraphics::DrawIntersections()] on the images. *)
Definition Screen_DrawIntersections (s : Screen) : drawing Screen :=
  and_then (image_at s 0) (fun background =>
  let g := graphics_of s background in
  and_then (draw_intersections g s (intersections_ s)) blend).

Fixpoint draw_passengers (g : BasicGraphics) (s : Screen)
    (rs : list Rider) : drawing Screen :=
  match rs with
  | [] => Drawn s
  | r :: rest =>
      and_then (draw_circle g s (rider_start r) (rider_colour r)) (fun s =>
      and_then (draw_circle g s (rider_dest r) (rider_colour r)) (fun s =>
      draw_passengers g s rest))
  end.

(** [void BasicGraphics::DrawPassengers()] on the images. *)
Definition Screen_DrawPassengers (s : Screen) : drawing Screen :=
  and_then (image_at s 0) (fun background =>
  let g := graphics_of s background in
  and_then (draw_passengers g s (new_passengers s)) blend).

(** [void BasicGraphics::DrawSimulation()]: the screen after it and the
    image handed to [cv::imshow]. *)
Definition DrawSimulation (s : Screen) : drawing (Screen * Image) :=
  and_then (image_at s 0) (fun background =>
  and_then (set_image s 1 background) (fun s =>
  and_then (image_at s 0) (fun background =>
  and_then (set_image s 2 background) (fun s =>
  and_then (Screen_DrawIntersections s) (fun s =>
  and_then (Screen_DrawPassengers s) (fun s =>
  and_then (image_at s 2) (fun shown =>
  Drawn (s, shown)))))))).

(** An image with circles drawn on it, in order. *)
Definition circles_on (img : Image) (cs : list ((Z * Z) * Colour)) : Image :=
  fold_left (fun a c => circle a (fst c) (snd c)) cs img.

(** The points of a frame with their colours: every intersection in
    green, then the start and the destination of every passenger in the
    passenger's colour. *)
Definition frame_points (s : Screen)
  : list ((float32 * float32) * Colour) :=
  map (fun p => (p, green)) (intersections_ s) ++
  flat_map (fun r => [(rider_start r, rider_colour r);
                      (rider_dest r, rider_colour r)])
           (new_passengers s).

(** Their pixels, when every one of them has one. *)
Fixpoint pixels (g : BasicGraphics)
    (pts : list ((float32 * float32) * Colour))
  : option (list ((Z * Z) * Colour)) :=
  match pts with
  | [] => Some []
  | (p, colour) :: rest =>
      match centre g p, pixels g rest with
      | Some c, Some cs => Some ((c, colour) :: cs)
      | _, _ => None
      end
  end.

End Images.

(** ** The properties the claims are about *)

Section Properties.

Variable F : Type.
Context {SF : Scalar F}.

Definition node_coordinate (n : Node F) : Coordinate F :=
  {| x := node_x n; y := node_y n |}.

(** A coordinate snapped to its nearest road node. *)
Definition snap (model : RouteModel F) (c : Coordinate F) : Coordinate F :=
  node_coordinate (FindClosestNode model c).

(** [passenger.is_some()] *)
Definition carrying (v : Vehicle F) : bool :=
  match passenger_ v with Some _ => true | None => false end.

(** [passenger.is_some() <=> state = DrivingPassenger], as a test. *)
Definition carrying_iff_driving (v : Vehicle F) : bool :=
  Bool.eqb (carrying v) (VehicleState_eqb (state_ v) driving_passenger).

(** The states of the manager that its operations reach: construction,
    attaching the matcher, a drive tick (which contains the drop-off), and
    the two callbacks of the matcher.  [assignable] says on which vehicles
    [AssignPassenger] is called. *)
Inductive reachable (route_planner : RoutePlanner F)
    (assignable : Vehicle F -> Prop) : VehicleManager F -> Prop :=
| reach_new (MAX_OBJECTS : nat) (model : RouteModel F) :
    reachable route_planner assignable (VehicleManager_new MAX_OBJECTS model)
| reach_matcher (vm : VehicleManager F) :
    reachable route_planner assignable vm ->
    reachable route_planner assignable (SetRideMatcher vm)
| reach_drive (vm vm' : VehicleManager F) :
    reachable route_planner assignable vm ->
    Drive route_planner vm = Ok vm' ->
    reachable route_planner assignable vm'
| reach_assign (vm vm' : VehicleManager F) (id : Z) (position : Coordinate F)
    (v : Vehicle F) :
    reachable route_planner assignable vm ->
    vehicle_at vm id = Ok v ->
    assignable v ->
    AssignPassenger vm id position = Ok vm' ->
    reachable route_planner assignable vm'
| reach_into (vm vm' : VehicleManager F) (id : Z)
    (passenger : option (Passenger F)) :
    reachable route_planner assignable vm ->
    PassengerIntoVehicle vm id passenger = Ok vm' ->
    reachable route_planner assignable vm'.

(** The states of the manager between two passes through the body of the
    [for] loop of [Drive] and between the callbacks of the matcher: as
    [reachable], with the tick taken one vehicle at a time (the body of the
    loop run on the vehicle at some index), so that a callback can come
    between the iterations for two vehicles of one tick. *)
Inductive interleaved (route_planner : RoutePlanner F)
    (assignable : Vehicle F -> Prop) : VehicleManager F -> Prop :=
| inter_new (MAX_OBJECTS : nat) (model : RouteModel F) :
    interleaved route_planner assignable (VehicleManager_new MAX_OBJECTS model)
| inter_matcher (vm : VehicleManager F) :
    interleaved route_planner assignable vm ->
    interleaved route_planner assignable (SetRideMatcher vm)
| inter_iteration (vm : VehicleManager F) (i : nat) (v v' : Vehicle F)
    (w' : World) :
    interleaved route_planner assignable vm ->
    nth_error (vehicles_ vm) i = Some v ->
    Drive_vehicle route_planner (model_ vm) (distance_per_cycle_ vm)
      (ride_matcher_ vm) v (world_ vm) = Ok (v', w') ->
    interleaved route_planner assignable
      (with_vehicles vm (replace_at (vehicles_ vm) i v') w')
| inter_assign (vm vm' : VehicleManager F) (id : Z) (position : Coordinate F)
    (v : Vehicle F) :
    interleaved route_planner assignable vm ->
    vehicle_at vm id = Ok v ->
    assignable v ->
    AssignPassenger vm id position = Ok vm' ->
    interleaved route_planner assignable vm'
| inter_into (vm vm' : VehicleManager F) (id : Z)
    (passenger : option (Passenger F)) :
    interleaved route_planner assignable vm ->
    PassengerIntoVehicle vm id passenger = Ok vm' ->
    interleaved route_planner assignable vm'.

(** The vehicle after each of the three statements of
    [VehicleManager::PassengerIntoVehicle] and of
    [VehicleManager::DropOffPassenger].  Neither holds a lock while it
    writes to the vehicle ([mtx_] guards the console only), so these are the
    vehicles that another thread can find. *)
Definition PassengerIntoVehicle_writes (model : RouteModel F)
    (passenger : option (Passenger F)) (vehicle : Vehicle F)
  : M (list (Vehicle F)) :=
  bindM (lift (Vehicle_SetPassenger vehicle passenger)) (fun v1 =>
  bindM (ResetVehicleDestination model v1 false) (fun v2 =>
  ret [v1; v2; Vehicle_SetState v2 driving_passenger])).

Definition DropOffPassenger_writes (model : RouteModel F)
    (vehicle : Vehicle F) : M (list (Vehicle F)) :=
  bindM (lift (match passenger_ vehicle with
               | Some p => Ok (p_id p)
               | None => Err NullDeref
               end)) (fun _ =>
  let v1 := Vehicle_DropOffPassenger vehicle in
  bindM (ResetVehicleDestination model v1 true) (fun v2 =>
  ret [v1; v2; Vehicle_SetState v2 no_passenger_requested])).

(** The vehicle that one iteration of the [for] loop of [Drive] hands to
    [IncrementalMove], when the iteration gets that far: it does not when
    the vehicle is unroutable or waiting. *)
Definition IncrementalMove_argument (route_planner : RoutePlanner F)
    (model : RouteModel F) (ride_matcher : bool) (vehicle : Vehicle F)
    (w : World) : option (Vehicle F) :=
  match Drive_route route_planner model vehicle w with
  | Ok (inr vehicle, w) =>
      match Drive_request ride_matcher vehicle w with
      | Ok (vehicle, _) =>
          if VehicleState_eqb (state_ vehicle) waiting then None
          else Some vehicle
      | Err _ => None
      end
  | _ => None
  end.

(** Modelled from the spec: the route planner is not among the sources.
    "The produced path is a sequence of Coordinates (node positions),
    excluding the start and including the goal", the goal being the node
    closest to the destination; the closest node of a node position is that
    position, and node positions are numbers (equal to themselves). *)
Record planner_ends_at_goal (model : RouteModel F)
    (route_planner : RoutePlanner F) : Prop := {
  path_last : forall (s g : Coordinate F),
    route_planner s g <> [] ->
    last (route_planner s g) g = snap model g;
  snap_idempotent : forall c : Coordinate F,
    snap model (snap model c) = snap model c;
  snap_number : forall c : Coordinate F,
    Coordinate_eqb (snap model c) (snap model c) = true
}.

(** What keeps [path.at(path_index)] in bounds. *)
Definition routed (model : RouteModel F) (v : Vehicle F) : Prop :=
  (exists c, destination_ v = snap model c) /\
  match path_ v with
  | [] => path_index_ v = 0%nat
  | _ :: _ =>
      last (path_ v) (destination_ v) = destination_ v /\
      ((path_index_ v < length (path_ v))%nat \/ state_ v = waiting)
  end.

End Properties.

(** ** Further properties of the manager *)

Section Generated.

Variable F : Type.

(** The vehicle [GenerateNew] builds from the draws [draw] and [draw + 1]
    when the id counter stands at [id]. *)
Definition generated (model : RouteModel F) (draw : nat) (id : Z)
  : Vehicle F :=
  {| id_ := id;
     position_ := snap model (RandomMapPosition model draw);
     destination_ := snap model (RandomMapPosition model (S draw));
     path_ := []; path_index_ := 0; passenger_ := None;
     state_ := no_passenger_requested; failures_ := 0 |}.

Definition generated_fleet (model : RouteModel F) (draw : nat) (id : Z)
    (n : nat) : list (Vehicle F) :=
  map (fun k => generated model (draw + 2 * k) (id + Z.of_nat k))
      (seq 0 n).

(** A matcher call a vehicle can be the cause of: a request when it was in
    [no_passenger_requested], a notice of arrival when it was in
    [passenger_queued]. *)
Definition call_of (v : Vehicle F) (c : MatcherCall) : Prop :=
  (c = VehicleRequestsPassenger (id_ v) /\
   state_ v = no_passenger_requested) \/
  (c = VehicleHasArrived (id_ v) /\ state_ v = passenger_queued).

(** What one iteration of the drive loop for the vehicle [v] adds to the
    world: the calls it makes on the matcher, none or one, and the number
    of random positions it draws, none or one. *)
Definition iteration_effect (ride_matcher : bool) (v : Vehicle F)
    (e : list MatcherCall * nat) : Prop :=
  (fst e = [] \/ exists c, fst e = [c] /\ call_of v c) /\
  (ride_matcher = false -> fst e = []) /\
  (snd e <= 1)%nat.

(** The passenger of [v'] is the passenger of [v], possibly moved. *)
Definition same_passenger (v v' : Vehicle F) : Prop :=
  match passenger_ v' with
  | None =>
      passenger_ v = None \/
      (state_ v = driving_passenger /\ state_ v' = no_passenger_requested)
  | Some p' =>
      exists p, passenger_ v = Some p /\ p_id p' = p_id p /\
        p_start p' = p_start p /\ p_destination p' = p_destination p
  end.

(** The ids of the fleet are its indices, and the id counter is its
    size. *)
Definition numbered (vm : VehicleManager F) : Prop :=
  map (fun v => id_ v) (vehicles_ vm) =
  map Z.of_nat (seq 0 (length (vehicles_ vm))) /\
  idCnt_ vm = Z.of_nat (length (vehicles_ vm)).


(** Whether the planner finds a route for a vehicle. *)
Definition routable (route_planner : RoutePlanner F) (v : Vehicle F) : bool :=
  match route_planner (position_ v) (destination_ v) with
  | [] => false
  | _ :: _ => true
  end.

End Generated.

(** ** Concrete maps, planners and vehicles *)

Module Fixtures.

Definition D : Scalar float := Double axis_libm.

Definition coord (a b : float) : Coordinate float := {| x := a; y := b |}.

(** Modelled from the spec: "closest_node(Coordinate) -> Node: minimum
    Euclidean distance; ties broken by lowest node index", on a map of two
    nodes, (0, 0) and (10, 0). *)
Definition squared_distance (a b : Coordinate float) : float :=
  ((x b - x a) * (x b - x a) + (y b - y a) * (y b - y a))%float.

Definition two_nodes_closest (c : Coordinate float) : Node float :=
  if PrimFloat.ltb (squared_distance c (coord 10 0))
                   (squared_distance c (coord 0 0))
  then {| node_x := 10%float; node_y := 0%float |}
  else {| node_x := 0%float; node_y := 0%float |}.

(** Latitudes from 0 to 3000, so that a vehicle moves 3 per cycle; the
    random positions alternate between two points. *)
Definition two_nodes : RouteModel float :=
  {| MinLat := 0%float;
     MaxLat := 3000%float;
     RandomMapPosition := fun n =>
       if Nat.even n then coord 1 1 else coord 9 1;
     FindClosestNode := two_nodes_closest |}.

(** The planner of that map: the route to a destination is the one node
    closest to it. *)
Definition direct : RoutePlanner float :=
  fun _ g => [snap two_nodes g].

(** A planner that finds no route. *)
Definition no_route : RoutePlanner float := fun _ _ => [].

Definition rider : Passenger float :=
  {| p_id := 7; p_start := coord 0 0; p_destination := coord 10 0;
     p_position := coord 0 0 |}.

(** A rider whose destination is off the road. *)
Definition off_road_rider : Passenger float :=
  {| p_id := 8; p_start := coord 0 0; p_destination := coord 8 3;
     p_position := coord 0 0 |}.

(** A vehicle at (0, 0) heading along the x axis to (10, 0). *)
Definition cruising : Vehicle float :=
  {| id_ := 0; position_ := coord 0 0; destination_ := coord 10 0;
     path_ := [coord 0 0; coord 10 0]; path_index_ := 1;
     passenger_ := None; state_ := no_passenger_queued; failures_ := 0 |}.

(** A vehicle with two failures that has just reached the destination of
    the rider it carries. *)
Definition arriving : Vehicle float :=
  {| id_ := 0; position_ := coord 10 0; destination_ := coord 10 0;
     path_ := [coord 10 0]; path_index_ := 1;
     passenger_ := Some rider; state_ := driving_passenger; failures_ := 2 |}.

(** A vehicle that carries a rider and has no path yet. *)
Definition loaded : Vehicle float :=
  {| id_ := 0; position_ := coord 0 0; destination_ := coord 10 0;
     path_ := []; path_index_ := 0;
     passenger_ := Some rider; state_ := driving_passenger; failures_ := 0 |}.

Definition fresh : World := {| draws := 0; calls := [] |}.

(** The vehicle the constructor generates on the two-node map. *)
Definition newcomer : Vehicle float :=
  {| id_ := 0; position_ := coord 0 0; destination_ := coord 10 0;
     path_ := []; path_index_ := 0;
     passenger_ := None; state_ := no_passenger_requested; failures_ := 0 |}.

(** The manager of one vehicle on the two-node map, matcher attached. *)
Definition fleet : VehicleManager float :=
  SetRideMatcher (VehicleManager_new (SF := D) 1 two_nodes).

(** The same vehicle one unit before (10, 0). *)
Definition nearly_there : Vehicle float :=
  {| id_ := 0; position_ := coord 9 0; destination_ := coord 10 0;
     path_ := [coord 0 0; coord 10 0]; path_index_ := 1;
     passenger_ := None; state_ := no_passenger_queued; failures_ := 0 |}.

(** Where the vehicles of a manager are. *)
Definition positions (r : result (VehicleManager float))
  : list (Coordinate float) :=
  match r with
  | Ok vm => map (fun v => position_ v) (vehicles_ vm)
  | Err _ => []
  end.

Definition or_fleet (r : result (VehicleManager float))
  : VehicleManager float :=
  match r with Ok vm => vm | Err _ => fleet end.

(** The fleet after the rider is put into its vehicle, and after that
    vehicle is then assigned a pickup at (0, 0). *)
Definition boarded : VehicleManager float :=
  or_fleet (PassengerIntoVehicle fleet 0 (Some rider)).

Definition reassigned : VehicleManager float :=
  or_fleet (AssignPassenger boarded 0 (coord 0 0)).

(** An overlay of 3 by 3 pixels over the square from (0, 0) to (2, 2), and
    the position in its middle. *)
Definition overlay : BasicGraphics.BasicGraphics :=
  BasicGraphics.mk (BasicGraphics.f32_of_int 0) (BasicGraphics.f32_of_int 0)
    (BasicGraphics.f32_of_int 2) (BasicGraphics.f32_of_int 2) 3 3.

Definition middle : BasicGraphics.float32 * BasicGraphics.float32 :=
  (BasicGraphics.f32_of_int 1, BasicGraphics.f32_of_int 1).


Definition boarded_ticked : VehicleManager float :=
  or_fleet (Drive (SF := D) direct boarded).

Definition assigned : VehicleManager float :=
  or_fleet (AssignPassenger fleet 0 (coord 3 4)).

(** A vehicle waiting for its passenger at (10, 0). *)
Definition parked : Vehicle float :=
  {| id_ := 0; position_ := coord 10 0; destination_ := coord 10 0;
     path_ := [coord 10 0]; path_index_ := 1;
     passenger_ := None; state_ := waiting; failures_ := 0 |}.

(** Two vehicles on the x axis with (100, 0) ahead, one at 74 and one at
    the next float after 74; the floats around 74 are 2^-46 apart. *)
Definition at_74 : Vehicle float :=
  {| id_ := 0; position_ := coord 74 0; destination_ := coord 100 0;
     path_ := [coord 100 0]; path_index_ := 0;
     passenger_ := None; state_ := no_passenger_queued; failures_ := 0 |}.

Definition after_74 : Vehicle float :=
  Vehicle_SetPosition at_74 (coord (74 + 0x1p-46)%float 0).

(** A vehicle waiting at (0, 0) for its passenger, at the end of a path of
    two nodes. *)
Definition at_pickup : Vehicle float :=
  {| id_ := 1; position_ := coord 0 0; destination_ := coord 0 0;
     path_ := [coord 10 0; coord 0 0]; path_index_ := 2;
     passenger_ := None; state_ := waiting; failures_ := 0 |}.

(** A manager of two vehicles that are under way: [cruising] and
    [at_pickup]. *)
Definition pair : VehicleManager float :=
  with_vehicles fleet [cruising; at_pickup] (world_ fleet).

(** The fleet with a pickup assigned near (10, 0), and that fleet four
    ticks later. *)
Definition called : VehicleManager float :=
  or_fleet (AssignPassenger fleet 0 (coord 9 1)).

Definition called_arrived : VehicleManager float :=
  or_fleet (Drive_times (SF := D) 4 direct called).

(** A manager of three vehicles on the two-node map, matcher attached, and
    that manager after one tick. *)
Definition convoy : VehicleManager float :=
  SetRideMatcher (VehicleManager_new (SF := D) 3 two_nodes).

Definition convoy_ticked : VehicleManager float :=
  or_fleet (Drive (SF := D) direct convoy).

(** That manager in the middle of its first tick, after the iteration for
    its first vehicle; and then with a pickup assigned to that vehicle. *)
Definition mid_tick : VehicleManager float :=
  match Drive_vehicle (SF := D) direct two_nodes 3%float true newcomer
          (world_ convoy) with
  | Ok (v, w) => with_vehicles convoy (replace_at (vehicles_ convoy) 0 v) w
  | Err _ => convoy
  end.

Definition mid_tick_called : VehicleManager float :=
  or_fleet (AssignPassenger mid_tick 0 (coord 3 4)).

(** An overlay over a map without width. *)
Definition flat_overlay : BasicGraphics.BasicGraphics :=
  BasicGraphics.mk (BasicGraphics.f32_of_int 0) (BasicGraphics.f32_of_int 1)
    (BasicGraphics.f32_of_int 2) (BasicGraphics.f32_of_int 1) 3 3.

(** Images as the list of what was drawn on them: a circle is its centre
    and its colour, a colour is a number, and a blend is marked by a circle
    of colour 0 at the number of circles of the background. *)
Definition sketch : Type := list ((Z * Z) * nat).

Definition sketch_circle (img : sketch) (c : Z * Z) (colour : nat) : sketch :=
  img ++ [(c, colour)].

Definition sketch_blend (a b : sketch) : sketch :=
  a ++ [((Z.of_nat (length b), 0%Z), 0%nat)].

(** A screen of 3 by 3 pixels over the square from (0, 0) to (2, 2), with
    one intersection in the middle and one passenger going from the
    north-west corner to the middle, whose second and third image hold
    leftovers. *)
Definition screen : Screen sketch nat :=
  {| s_min_lat := BasicGraphics.f32_of_int 0;
     s_min_lon := BasicGraphics.f32_of_int 0;
     s_max_lat := BasicGraphics.f32_of_int 2;
     s_max_lon := BasicGraphics.f32_of_int 2;
     images_ := [[]; [((7, 7)%Z, 9%nat)]; [((8, 8)%Z, 9%nat)]];
     intersections_ := [middle];
     new_passengers :=
       [{| rider_start :=
             (BasicGraphics.f32_of_int 0, BasicGraphics.f32_of_int 2);
           rider_dest := middle;
           rider_colour := 5%nat |}] |}.

Definition sketch_draw (s : Screen sketch nat)
  : drawing (Screen sketch nat * sketch) :=
  DrawSimulation (fun _ => 3%Z) (fun _ => 3%Z) sketch_circle sketch_blend
    1%nat s.

Definition or_screen (d : drawing (Screen sketch nat * sketch))
  : Screen sketch nat * sketch :=
  match d with
  | Drawn r => r
  | _ => (screen, [])
  end.

End Fixtures.

(** * Theorems *)

Lemma bind_Ok_inv {A B : Type} (r : result A) (k : A -> result B) (b : B) :
  bind r k = Ok b -> exists a, r = Ok a /\ k a = Ok b.
Proof.
  destruct r as [a|e]; simpl; intros E; [eauto | discriminate].
Qed.

Lemma bindM_Ok_inv {A B : Type} (m : M A) (k : A -> M B) (w : World)
    (r : B * World) :
  bindM m k w = Ok r -> exists a w', m w = Ok (a, w') /\ k a w' = Ok r.
Proof.
  unfold bindM. destruct (m w) as [[a w']|e]; intros E;
    [eauto | discriminate].
Qed.

Lemma at_in_bounds {A : Type} (l : list A) (i : nat) :
  (i < length l)%nat -> exists a, nth_error l i = Some a.
Proof.
  intros Hi. destruct (nth_error l i) as [a|] eqn:E; [eauto|].
  apply nth_error_None in E. lia.
Qed.

Lemma at_Ok {A : Type} (l : list A) (i : nat) (a : A) :
  at_ l i = Ok a <-> nth_error l i = Some a.
Proof.
  unfold at_. destruct (nth_error l i); split; intros E;
    solve [congruence | discriminate].
Qed.

Lemma at_Err {A : Type} (l : list A) (i : nat) (e : error) :
  at_ l i = Err e -> (length l <= i)%nat.
Proof.
  unfold at_. destruct (nth_error l i) eqn:E; [discriminate|].
  intros _. now apply nth_error_None.
Qed.

Lemma VehicleState_eqb_eq (a b : VehicleState) :
  VehicleState_eqb a b = true <-> a = b.
Proof. destruct a, b; simpl; split; intros E; congruence. Qed.

Lemma VehicleState_eqb_neq (a b : VehicleState) :
  VehicleState_eqb a b = false <-> a <> b.
Proof. destruct a, b; simpl; split; intros E; congruence. Qed.

Section Vehicles.

Variable F : Type.
Context {SF : Scalar F}.
Local Open Scope scalar_scope.

Implicit Types (v : Vehicle F) (c : Coordinate F) (w : World)
  (model : RouteModel F).

Lemma Coordinate_eta c : {| x := x c; y := y c |} = c.
Proof. now destruct c. Qed.

(** *** Motion *)

(** The two outcomes of an incremental move inside the path. *)
Lemma IncrementalMove_cases (distance_per_cycle : F) v (next : Coordinate F) :
  nth_error (path_ v) (path_index_ v) = Some next ->
  exists u, IncrementalMove distance_per_cycle v = Ok u /\
    path_ u = path_ v /\ destination_ u = destination_ v /\
    state_ u = state_ v /\
    ((position_ u = next /\ path_index_ u = S (path_index_ v)) \/
     path_index_ u = path_index_ v).
Proof.
  intros Hnext. unfold IncrementalMove, at_. rewrite Hnext. simpl.
  destruct (leb _ distance_per_cycle).
  - eexists; split; [reflexivity|]. simpl. rewrite Coordinate_eta.
    repeat split. left. split; reflexivity.
  - eexists; split; [reflexivity|]. simpl.
    repeat split. right. reflexivity.
Qed.

(** C1.  One incremental move of a vehicle whose path index is in range.
    With [next = path[path_index]] and [d] the distance from the position
    to [next] as the code computes it: when [d <= distance_per_cycle] the
    position becomes [next] itself and the index grows by one; otherwise the
    position advances by [distance_per_cycle] along the angle
    [atan2 (next.y - position.y) (next.x - position.x)] and the index stays. *)
Theorem IncrementalMove_step (distance_per_cycle : F) v (next : Coordinate F) :
  nth_error (path_ v) (path_index_ v) = Some next ->
  let pos := position_ v in
  let d := sqrt (pow (x next - x pos) two + pow (y next - y pos) two) in
  let theta := atan2 (y next - y pos) (x next - x pos) in
  exists v', IncrementalMove distance_per_cycle v = Ok v' /\
    ((d <=? distance_per_cycle) = true ->
       position_ v' = next /\ path_index_ v' = S (path_index_ v)) /\
    ((d <=? distance_per_cycle) = false ->
       position_ v' =
         {| x := x pos + distance_per_cycle * cos theta;
            y := y pos + distance_per_cycle * sin theta |} /\
       path_index_ v' = path_index_ v) /\
    path_ v' = path_ v /\ destination_ v' = destination_ v /\
    state_ v' = state_ v.
Proof.
  intros Hnext pos d theta.
  unfold IncrementalMove, at_. rewrite Hnext. simpl.
  fold pos. fold d. fold theta.
  destruct (d <=? distance_per_cycle) eqn:E.
  - eexists; split; [reflexivity|]. simpl. rewrite Coordinate_eta.
    repeat split; intros; congruence.
  - eexists; split; [reflexivity|]. simpl.
    repeat split; intros; congruence.
Qed.

(** *** A passenger follows the vehicle *)

(** C8.  Setting the position of a vehicle that carries a passenger sets
    the passenger's position to the same coordinate and changes nothing
    else of the passenger; an incremental move, the one place where the
    manager sets a position, therefore leaves the passenger at the
    vehicle's position. *)
Theorem SetPosition_carries_passenger v (p : Passenger F) :
  passenger_ v = Some p ->
  (forall c,
     position_ (Vehicle_SetPosition v c) = c /\
     passenger_ (Vehicle_SetPosition v c) = Some (Passenger_SetPosition p c) /\
     p_position (Passenger_SetPosition p c) = c) /\
  (forall (distance_per_cycle : F) v',
     IncrementalMove distance_per_cycle v = Ok v' ->
     exists p', passenger_ v' = Some p' /\ p_position p' = position_ v' /\
       p_id p' = p_id p /\ p_destination p' = p_destination p).
Proof.
  intros Hp. split.
  - intros c. unfold Vehicle_SetPosition. simpl. now rewrite Hp.
  - intros dpc v' Hmove. unfold IncrementalMove in Hmove.
    apply bind_Ok_inv in Hmove. destruct Hmove as (next & _ & Hmove).
    destruct (leb _ dpc); injection Hmove as <-; simpl; rewrite Hp;
      eexists; repeat split.
Qed.

(** *** The destination of a vehicle *)

Lemma ResetVehicleDestination_random model v w :
  ResetVehicleDestination model v true w =
  Ok (Vehicle_SetDestination v (snap model (RandomMapPosition model (draws w))),
      {| draws := S (draws w); calls := calls w |}).
Proof. reflexivity. Qed.

Lemma ResetVehicleDestination_aligned model v w :
  ResetVehicleDestination model v false w =
  Ok (Vehicle_SetDestination v (snap model (destination_ v)), w).
Proof. reflexivity. Qed.

(** *** Drop-off *)

(** C2.  At the arrival test, a vehicle in state [driving_passenger] whose
    position equals its destination drops its passenger off: the passenger
    pointer is cleared, the failure count is 0 whatever it was, the
    destination is the node closest to a fresh random position (with the
    path and the index reset), and the state is [no_passenger_requested]. *)
Theorem Drive_arrival_drops_off model (ride_matcher : bool) v
    (p : Passenger F) w :
  state_ v = driving_passenger ->
  passenger_ v = Some p ->
  Coordinate_eqb (position_ v) (destination_ v) = true ->
  exists v',
    Drive_arrival model ride_matcher v w =
      Ok (v', {| draws := S (draws w); calls := calls w |}) /\
    passenger_ v' = None /\
    failures_ v' = 0%Z /\
    destination_ v' = snap model (RandomMapPosition model (draws w)) /\
    path_ v' = [] /\ path_index_ v' = 0%nat /\
    state_ v' = no_passenger_requested /\
    position_ v' = position_ v /\ id_ v' = id_ v.
Proof.
  intros Hstate Hp Hat.
  unfold Drive_arrival. rewrite Hat, Hstate. simpl.
  unfold VehicleManager_DropOffPassenger, bindM, lift. rewrite Hp.
  rewrite ResetVehicleDestination_random. simpl.
  eexists; split; [reflexivity|]. simpl. repeat split.
Qed.

(** *** A vehicle without a route *)

(** C4 (amended).  When the planner finds no route for a vehicle that has
    no path and carries no passenger, the iteration for that vehicle
    recovers by giving it a new random destination, snapped to the nearest
    node, and ends there: the vehicle still carries nobody, its state, its
    position and its failure count are what they were, and no call is made
    on the ride matcher.  Vehicles that carry a passenger are left out: the
    source marks their case as not handled yet. *)
Theorem Drive_vehicle_unroutable (route_planner : RoutePlanner F) model
    (distance_per_cycle : F) (ride_matcher : bool) v w :
  passenger_ v = None ->
  path_ v = [] ->
  route_planner (position_ v) (destination_ v) = [] ->
  exists v',
    Drive_vehicle route_planner model distance_per_cycle ride_matcher v w =
      Ok (v', {| draws := S (draws w); calls := calls w |}) /\
    destination_ v' = snap model (RandomMapPosition model (draws w)) /\
    path_ v' = [] /\ path_index_ v' = 0%nat /\
    state_ v' = state_ v /\
    passenger_ v' = None /\
    position_ v' = position_ v /\
    failures_ v' = failures_ v.
Proof.
  intros Hnobody Hpath Hnone.
  unfold Drive_vehicle, Drive_route, bindM. rewrite Hpath.
  unfold AStarSearch. simpl. rewrite Hnone.
  eexists; split; [reflexivity|]. simpl. repeat split. exact Hnobody.
Qed.

(** *** The callbacks of the ride matcher *)

Lemma vehicle_at_nth (vm : VehicleManager F) (id : Z) v :
  vehicle_at vm id = Ok v ->
  (0 <= id)%Z /\ nth_error (vehicles_ vm) (Z.to_nat id) = Some v.
Proof.
  unfold vehicle_at. destruct (id <? 0)%Z eqn:E; [discriminate|].
  intros Hat. apply at_Ok in Hat. split; [lia | assumption].
Qed.

Lemma nth_error_replace_at (vs : list (Vehicle F)) (i j : nat) v :
  nth_error (replace_at vs i v) j =
  if Nat.eqb i j then option_map (fun _ => v) (nth_error vs j)
  else nth_error vs j.
Proof.
  revert i j. induction vs as [|u rest IH]; intros [|i] [|j]; simpl;
    try reflexivity.
  - now destruct (Nat.eqb _ _).
  - apply IH.
Qed.

Lemma in_manager_spec (vm : VehicleManager F) (id : Z)
    (f : Vehicle F -> M (Vehicle F)) v v' (w' : World) :
  vehicle_at vm id = Ok v ->
  f v (world_ vm) = Ok (v', w') ->
  exists vm',
    in_manager vm id f = Ok vm' /\
    vehicle_at vm' id = Ok v' /\
    world_ vm' = w' /\
    (forall j, j <> Z.to_nat id ->
       nth_error (vehicles_ vm') j = nth_error (vehicles_ vm) j).
Proof.
  intros Hat Hf. unfold in_manager. rewrite Hat. simpl. rewrite Hf. simpl.
  eexists; split; [reflexivity|].
  apply vehicle_at_nth in Hat. destruct Hat as [Hid Hnth].
  repeat split.
  - unfold vehicle_at. simpl.
    replace (id <? 0)%Z with false by (symmetry; apply Z.ltb_ge; lia).
    apply at_Ok. rewrite nth_error_replace_at, Nat.eqb_refl, Hnth.
    reflexivity.
  - intros j Hj. simpl. rewrite nth_error_replace_at.
    destruct (Nat.eqb_spec (Z.to_nat id) j); [congruence | reflexivity].
Qed.

(** C5 (amended).  [AssignPassenger (id, pickup)] on the id of a vehicle
    sets that vehicle's destination to the road node closest to the pickup
    coordinate (the pickup itself when it is the position of its closest
    node), empties its path, zeroes its path index and makes its state
    [passenger_queued]; the vehicle's position and the other vehicles are
    unchanged. *)
Theorem AssignPassenger_spec (vm : VehicleManager F) (id : Z)
    (pickup : Coordinate F) v :
  vehicle_at vm id = Ok v ->
  exists vm' v',
    AssignPassenger vm id pickup = Ok vm' /\
    vehicle_at vm' id = Ok v' /\
    destination_ v' = snap (model_ vm) pickup /\
    (snap (model_ vm) pickup = pickup -> destination_ v' = pickup) /\
    path_ v' = [] /\ path_index_ v' = 0%nat /\
    state_ v' = passenger_queued /\
    position_ v' = position_ v /\
    passenger_ v' = passenger_ v /\
    (forall j, j <> Z.to_nat id ->
       nth_error (vehicles_ vm') j = nth_error (vehicles_ vm) j).
Proof.
  intros Hat. unfold AssignPassenger.
  destruct (in_manager_spec vm id
              (AssignPassenger_vehicle (model_ vm) pickup) Hat
              (v' := Vehicle_SetState
                       (Vehicle_SetDestination (Vehicle_SetDestination v pickup)
                          (snap (model_ vm) pickup)) passenger_queued)
              (w' := world_ vm) eq_refl)
    as (vm' & Hrun & Hat' & _ & Hothers).
  exists vm'. eexists. split; [exact Hrun|]. split; [exact Hat'|].
  simpl. repeat split; auto.
Qed.

(** C6 (amended).  [PassengerIntoVehicle (id, passenger)] on the id of a
    vehicle attaches the passenger, sets the vehicle's destination to the
    road node closest to the passenger's destination (that destination
    itself when it is the position of its closest node), empties the path,
    zeroes the path index and makes the state [driving_passenger]. *)
Theorem PassengerIntoVehicle_spec (vm : VehicleManager F) (id : Z)
    (p : Passenger F) v :
  vehicle_at vm id = Ok v ->
  exists vm' v',
    PassengerIntoVehicle vm id (Some p) = Ok vm' /\
    vehicle_at vm' id = Ok v' /\
    passenger_ v' = Some p /\
    destination_ v' = snap (model_ vm) (p_destination p) /\
    (snap (model_ vm) (p_destination p) = p_destination p ->
       destination_ v' = p_destination p) /\
    path_ v' = [] /\ path_index_ v' = 0%nat /\
    state_ v' = driving_passenger /\
    position_ v' = position_ v /\
    (forall j, j <> Z.to_nat id ->
       nth_error (vehicles_ vm') j = nth_error (vehicles_ vm) j).
Proof.
  intros Hat. unfold PassengerIntoVehicle.
  destruct (in_manager_spec vm id
              (PassengerIntoVehicle_vehicle (model_ vm) (Some p)) Hat
              (v' := Vehicle_SetState
                       (Vehicle_SetDestination
                          {| id_ := id_ v; position_ := position_ v;
                             destination_ := p_destination p;
                             path_ := path_ v; path_index_ := path_index_ v;
                             passenger_ := Some p; state_ := state_ v;
                             failures_ := failures_ v |}
                          (snap (model_ vm) (p_destination p)))
                       driving_passenger)
              (w' := world_ vm) eq_refl)
    as (vm' & Hrun & Hat' & _ & Hothers).
  exists vm'. eexists. split; [exact Hrun|]. split; [exact Hat'|].
  simpl. repeat split; auto.
Qed.

(** The two revisions of [Vehicle::SetPassenger] make no difference to
    [PassengerIntoVehicle], which resets the path either way. *)
Lemma PassengerIntoVehicle_either_SetPassenger model
    (passenger : option (Passenger F)) v w :
  PassengerIntoVehicle_vehicle model passenger v w =
  bindM (lift (Vehicle_SetPassenger_via_SetDestination v passenger))
    (fun u => bindM (ResetVehicleDestination model u false)
                (fun u => ret (Vehicle_SetState u driving_passenger))) w.
Proof. destruct passenger; reflexivity. Qed.

End Vehicles.

(** ** Invariants of the reachable states *)

Section Invariants.

Variable F : Type.
Context {SF : Scalar F}.

Variable route_planner : RoutePlanner F.
Variable assignable : Vehicle F -> Prop.

(** The model and the step of a manager never change. *)
Lemma GenerateNew_times_keeps (n : nat) (vm : VehicleManager F) :
  model_ (GenerateNew_times n vm) = model_ vm /\
  distance_per_cycle_ (GenerateNew_times n vm) = distance_per_cycle_ vm.
Proof.
  revert vm. induction n as [|n IH]; intros vm; simpl; [now split|].
  destruct (IH (GenerateNew vm)) as [-> ->]. now split.
Qed.

Lemma Drive_keeps (vm vm' : VehicleManager F) :
  Drive route_planner vm = Ok vm' ->
  model_ vm' = model_ vm /\
  distance_per_cycle_ vm' = distance_per_cycle_ vm.
Proof.
  unfold Drive. intros Hrun.
  apply bind_Ok_inv in Hrun. destruct Hrun as (r & _ & Hrun).
  injection Hrun as <-. now split.
Qed.

Lemma in_manager_keeps (vm vm' : VehicleManager F) (id : Z)
    (f : Vehicle F -> M (Vehicle F)) :
  in_manager vm id f = Ok vm' ->
  model_ vm' = model_ vm /\
  distance_per_cycle_ vm' = distance_per_cycle_ vm.
Proof.
  unfold in_manager. intros Hrun.
  apply bind_Ok_inv in Hrun. destruct Hrun as (v & _ & Hrun).
  apply bind_Ok_inv in Hrun. destruct Hrun as (r & _ & Hrun).
  injection Hrun as <-. now split.
Qed.

(** X19.  The step of a vehicle per tick is fixed when the manager is
    constructed: in every state the manager reaches it is
    [std::abs(MaxLat - MinLat) / 1000.0], computed in the arithmetic of the
    code, whatever ticks and callbacks came in between. *)
Lemma reachable_distance_per_cycle (vm : VehicleManager F) :
  reachable route_planner assignable vm ->
  distance_per_cycle_ vm =
  div (fabs (sub (MaxLat (model_ vm)) (MinLat (model_ vm)))) thousand.
Proof.
  intros Hreach. induction Hreach as
    [n m | vm Hreach IH | vm vm' Hreach IH Hrun
     | vm vm' id position v Hreach IH Hat Hok Hrun
     | vm vm' id passenger Hreach IH Hrun].
  - unfold VehicleManager_new.
    match goal with
    | |- context [GenerateNew_times n ?u] =>
        destruct (GenerateNew_times_keeps n u) as [-> ->]
    end.
    reflexivity.
  - exact IH.
  - edestruct Drive_keeps as [-> ->]; [exact Hrun | exact IH].
  - edestruct in_manager_keeps as [-> ->]; [exact Hrun | exact IH].
  - edestruct in_manager_keeps as [-> ->]; [exact Hrun | exact IH].
Qed.

(** A drive tick is the body of the loop run on the vehicles one after
    the other, so the states between whole ticks and callbacks are among
    those between iterations and callbacks. *)
Lemma replace_at_middle (pre rest : list (Vehicle F)) (v v' : Vehicle F) :
  replace_at (pre ++ v :: rest) (length pre) v' = pre ++ v' :: rest.
Proof.
  induction pre as [|u pre IH]; simpl; [reflexivity | now rewrite IH].
Qed.

Lemma nth_error_middle (pre rest : list (Vehicle F)) (v : Vehicle F) :
  nth_error (pre ++ v :: rest) (length pre) = Some v.
Proof. induction pre as [|u pre IH]; simpl; [reflexivity | exact IH]. Qed.

Lemma with_vehicles_same (vm : VehicleManager F) :
  with_vehicles vm (vehicles_ vm) (world_ vm) = vm.
Proof. destruct vm; reflexivity. Qed.

Lemma Drive_vehicles_interleaved (vm : VehicleManager F)
    (rest pre rest' : list (Vehicle F)) (w w' : World) :
  interleaved route_planner assignable (with_vehicles vm (pre ++ rest) w) ->
  Drive_vehicles route_planner (model_ vm) (distance_per_cycle_ vm)
    (ride_matcher_ vm) rest w = Ok (rest', w') ->
  interleaved route_planner assignable (with_vehicles vm (pre ++ rest') w').
Proof.
  revert pre rest' w w'.
  induction rest as [|v rest IH]; intros pre rest' w w' Hinter Hrun.
  - injection Hrun as <- <-. exact Hinter.
  - simpl in Hrun.
    apply bindM_Ok_inv in Hrun. destruct Hrun as (v' & w1 & Hv' & Hrun).
    apply bindM_Ok_inv in Hrun. destruct Hrun as (rest1 & w2 & Hr' & Hrun).
    injection Hrun as <- <-.
    pose proof (@inter_iteration F SF route_planner assignable
                  (with_vehicles vm (pre ++ v :: rest) w) (length pre)
                  v v' w1 Hinter (nth_error_middle pre rest v) Hv')
      as Hstep.
    cbn [vehicles_ with_vehicles] in Hstep.
    rewrite replace_at_middle in Hstep.
    replace (pre ++ v' :: rest1) with ((pre ++ [v']) ++ rest1)
      by (rewrite <- app_assoc; reflexivity).
    eapply IH; [|exact Hr'].
    rewrite <- app_assoc. exact Hstep.
Qed.

Lemma Drive_interleaved (vm vm' : VehicleManager F) :
  interleaved route_planner assignable vm ->
  Drive route_planner vm = Ok vm' ->
  interleaved route_planner assignable vm'.
Proof.
  intros Hinter Hrun. unfold Drive in Hrun.
  apply bind_Ok_inv in Hrun. destruct Hrun as ([vs' w'] & Hvs & Hrun).
  injection Hrun as <-. simpl.
  apply (@Drive_vehicles_interleaved vm (vehicles_ vm) [] vs' (world_ vm) w');
    [|exact Hvs].
  simpl. rewrite with_vehicles_same. exact Hinter.
Qed.

Lemma reachable_interleaved (vm : VehicleManager F) :
  reachable route_planner assignable vm ->
  interleaved route_planner assignable vm.
Proof.
  intros Hreach. induction Hreach as
    [n m | vm Hreach IH | vm vm' Hreach IH Hrun
     | vm vm' id position v Hreach IH Hat Hok Hrun
     | vm vm' id passenger Hreach IH Hrun].
  - apply inter_new.
  - apply inter_matcher, IH.
  - eapply Drive_interleaved; [exact IH | exact Hrun].
  - eapply inter_assign; eassumption.
  - eapply inter_into; eassumption.
Qed.

Variable model : RouteModel F.

(** A property of single vehicles that every step on a vehicle keeps. *)
Variable P : Vehicle F -> Prop.

Hypothesis P_new : forall (start a b : Coordinate F) (id : Z),
  P (Vehicle_SetId
       (Vehicle_SetDestination (Vehicle_SetPosition (Vehicle_new start) a)
          (snap model b))
       id).

Hypothesis P_drive :
  forall distance_per_cycle ride_matcher v w v' w',
    P v ->
    Drive_vehicle route_planner model distance_per_cycle ride_matcher v w =
      Ok (v', w') ->
    P v'.

Hypothesis P_assign : forall position v w v' w',
  P v -> assignable v ->
  AssignPassenger_vehicle model position v w = Ok (v', w') -> P v'.

Hypothesis P_into : forall passenger v w v' w',
  P v ->
  PassengerIntoVehicle_vehicle model passenger v w = Ok (v', w') -> P v'.

Lemma GenerateNew_times_Forall (n : nat) (vm : VehicleManager F) :
  model_ vm = model ->
  Forall P (vehicles_ vm) ->
  Forall P (vehicles_ (GenerateNew_times n vm)).
Proof.
  revert vm. induction n as [|n IH]; intros vm Hmodel Hall; simpl.
  - assumption.
  - apply IH; simpl; [assumption|].
    apply Forall_app. split; [assumption|].
    constructor; [|constructor]. rewrite Hmodel. apply P_new.
Qed.

Lemma Drive_vehicles_Forall distance_per_cycle ride_matcher
    (vs vs' : list (Vehicle F)) (w w' : World) :
  Forall P vs ->
  Drive_vehicles route_planner model distance_per_cycle ride_matcher vs w =
    Ok (vs', w') ->
  Forall P vs'.
Proof.
  revert vs' w w'. induction vs as [|v rest IH]; intros vs' w w' Hall Hrun.
  - injection Hrun as <- <-. constructor.
  - simpl in Hrun. inversion Hall as [|? ? Hv Hrest]; subst.
    apply bindM_Ok_inv in Hrun. destruct Hrun as (v' & w1 & Hv' & Hrun).
    apply bindM_Ok_inv in Hrun. destruct Hrun as (rest' & w2 & Hr' & Hrun).
    injection Hrun as <- <-.
    constructor; [eapply P_drive; eassumption | eapply IH; eassumption].
Qed.

Lemma replace_at_Forall (vs : list (Vehicle F)) (i : nat) (v : Vehicle F) :
  Forall P vs -> P v -> Forall P (replace_at vs i v).
Proof.
  intros Hall Hv. revert i.
  induction Hall as [|u rest Hu Hrest IH]; intros [|i]; simpl;
    constructor; auto.
Qed.

Lemma in_manager_Forall (vm vm' : VehicleManager F) (id : Z)
    (f : Vehicle F -> M (Vehicle F)) :
  Forall P (vehicles_ vm) ->
  (forall v w v' w',
     vehicle_at vm id = Ok v -> P v -> f v w = Ok (v', w') -> P v') ->
  in_manager vm id f = Ok vm' ->
  Forall P (vehicles_ vm').
Proof.
  intros Hall Hf Hrun. unfold in_manager in Hrun.
  apply bind_Ok_inv in Hrun. destruct Hrun as (v & Hat & Hrun).
  apply bind_Ok_inv in Hrun. destruct Hrun as ([v' w'] & Hstep & Hrun).
  injection Hrun as <-. simpl.
  apply replace_at_Forall; [assumption|].
  eapply Hf; [exact Hat | | exact Hstep].
  apply vehicle_at_nth in Hat. destruct Hat as [_ Hnth].
  eapply Forall_forall; [exact Hall|]. eapply nth_error_In; exact Hnth.
Qed.

(** Every vehicle of a reachable manager has the property. *)
Lemma reachable_Forall (vm : VehicleManager F) :
  reachable route_planner assignable vm ->
  model_ vm = model ->
  Forall P (vehicles_ vm).
Proof.
  intros Hreach. induction Hreach as
    [n m | vm Hreach IH | vm vm' Hreach IH Hrun
     | vm vm' id position v Hreach IH Hat Hok Hrun
     | vm vm' id passenger Hreach IH Hrun]; intros Hmodel.
  - unfold VehicleManager_new in *.
    match type of Hmodel with
    | context [GenerateNew_times n ?u] =>
        destruct (GenerateNew_times_keeps n u) as [Hm _];
        rewrite Hm in Hmodel
    end.
    apply GenerateNew_times_Forall; [exact Hmodel | constructor].
  - apply IH. exact Hmodel.
  - edestruct Drive_keeps as [Hm _]; [exact Hrun|]. rewrite Hm in Hmodel.
    unfold Drive in Hrun.
    apply bind_Ok_inv in Hrun. destruct Hrun as ([vs' w'] & Hvs & Hrun).
    injection Hrun as <-. simpl.
    rewrite Hmodel in Hvs.
    eapply Drive_vehicles_Forall; [apply IH; exact Hmodel | exact Hvs].
  - edestruct in_manager_keeps as [Hm _]; [exact Hrun|]. rewrite Hm in Hmodel.
    unfold AssignPassenger in Hrun. rewrite Hmodel in Hrun.
    eapply in_manager_Forall; [apply IH; exact Hmodel | | exact Hrun].
    intros u w u' w' Hat' Hu Hstep. rewrite Hat in Hat'.
    injection Hat' as <-. eapply P_assign; eassumption.
  - edestruct in_manager_keeps as [Hm _]; [exact Hrun|]. rewrite Hm in Hmodel.
    unfold PassengerIntoVehicle in Hrun. rewrite Hmodel in Hrun.
    eapply in_manager_Forall; [apply IH; exact Hmodel | | exact Hrun].
    intros u w u' w' _ Hu Hstep. eapply P_into; eassumption.
Qed.

(** And so has every vehicle of a manager between two iterations. *)
Lemma interleaved_Forall (vm : VehicleManager F) :
  interleaved route_planner assignable vm ->
  model_ vm = model ->
  Forall P (vehicles_ vm).
Proof.
  intros Hinter. induction Hinter as
    [n m | vm Hinter IH | vm i v v' w' Hinter IH Hnth Hrun
     | vm vm' id position v Hinter IH Hat Hok Hrun
     | vm vm' id passenger Hinter IH Hrun]; intros Hmodel.
  - unfold VehicleManager_new in *.
    match type of Hmodel with
    | context [GenerateNew_times n ?u] =>
        destruct (GenerateNew_times_keeps n u) as [Hm _];
        rewrite Hm in Hmodel
    end.
    apply GenerateNew_times_Forall; [exact Hmodel | constructor].
  - apply IH. exact Hmodel.
  - simpl in Hmodel. simpl.
    apply replace_at_Forall; [apply IH; exact Hmodel|].
    rewrite Hmodel in Hrun.
    eapply P_drive; [|exact Hrun].
    eapply Forall_forall; [apply IH; exact Hmodel|].
    eapply nth_error_In; exact Hnth.
  - edestruct in_manager_keeps as [Hm _]; [exact Hrun|]. rewrite Hm in Hmodel.
    unfold AssignPassenger in Hrun. rewrite Hmodel in Hrun.
    eapply in_manager_Forall; [apply IH; exact Hmodel | | exact Hrun].
    intros u w u' w1 Hat' Hu Hstep. rewrite Hat in Hat'.
    injection Hat' as <-. eapply P_assign; eassumption.
  - edestruct in_manager_keeps as [Hm _]; [exact Hrun|]. rewrite Hm in Hmodel.
    unfold PassengerIntoVehicle in Hrun. rewrite Hmodel in Hrun.
    eapply in_manager_Forall; [apply IH; exact Hmodel | | exact Hrun].
    intros u w u' w1 _ Hu Hstep. eapply P_into; eassumption.
Qed.

End Invariants.

(** ** The steps of one iteration of the drive loop *)

Section Steps.

Variable F : Type.
Context {SF : Scalar F}.

Implicit Types (v u : Vehicle F) (w : World) (model : RouteModel F).

Lemma carrying_iff_driving_spec v :
  carrying_iff_driving v = true <->
  (passenger_ v <> None <-> state_ v = driving_passenger).
Proof.
  unfold carrying_iff_driving, carrying.
  destruct (passenger_ v) as [p|], (state_ v); simpl;
    split; try reflexivity; try discriminate;
    try (intros _; split; congruence);
    intros [H1 H2]; exfalso;
    solve [ discriminate H1; congruence
          | apply H2; reflexivity
          | assert (E : Some p <> None) by congruence;
            specialize (H1 E); discriminate ].
Qed.

Lemma Drive_route_frame (route_planner : RoutePlanner F) model v w
    (r : Vehicle F + Vehicle F) (w' : World) :
  Drive_route route_planner model v w = Ok (r, w') ->
  let u := match r with inl u => u | inr u => u end in
  passenger_ u = passenger_ v /\ state_ u = state_ v /\
  position_ u = position_ v /\ failures_ u = failures_ v.
Proof.
  unfold Drive_route, AStarSearch.
  destruct (path_ v) as [|a l]; simpl.
  - destruct (route_planner (position_ v) (destination_ v)) as [|b k]; simpl.
    + unfold bindM. rewrite ResetVehicleDestination_random.
      intros E. injection E as <- <-. simpl. auto.
    + intros E. injection E as <- <-. simpl. auto.
  - intros E. injection E as <- <-. simpl. auto.
Qed.

Lemma Drive_request_frame (ride_matcher : bool) v w u (w' : World) :
  Drive_request ride_matcher v w = Ok (u, w') ->
  passenger_ u = passenger_ v /\ path_ u = path_ v /\
  path_index_ u = path_index_ v /\ destination_ u = destination_ v /\
  position_ u = position_ v /\
  state_ u <> no_passenger_requested /\
  (state_ u = state_ v \/
   (state_ v = no_passenger_requested /\ state_ u = no_passenger_queued)).
Proof.
  unfold Drive_request.
  destruct (VehicleState_eqb (state_ v) no_passenger_requested) eqn:E.
  - apply VehicleState_eqb_eq in E.
    unfold RequestPassenger, bindM, tell, ret.
    destruct ride_matcher; intros R; injection R as <- <-; simpl;
      repeat split; auto; discriminate.
  - apply VehicleState_eqb_neq in E.
    intros R. injection R as <- <-. repeat split; auto.
Qed.

Lemma IncrementalMove_frame (distance_per_cycle : F) v u :
  IncrementalMove distance_per_cycle v = Ok u ->
  state_ u = state_ v /\ carrying u = carrying v /\
  path_ u = path_ v /\ destination_ u = destination_ v.
Proof.
  unfold IncrementalMove. intros Hmove.
  apply bind_Ok_inv in Hmove. destruct Hmove as (next & _ & Hmove).
  destruct (leb _ distance_per_cycle); injection Hmove as <-;
    unfold carrying; simpl; destruct (passenger_ v); auto.
Qed.

(** The arrival test either leaves the vehicle alone or takes the branch
    of its state. *)
Lemma Drive_arrival_cases model (ride_matcher : bool) v w u (w' : World) :
  Drive_arrival model ride_matcher v w = Ok (u, w') ->
  (u = v /\
   (Coordinate_eqb (position_ v) (destination_ v) = false \/
    state_ v = no_passenger_requested \/ state_ v = waiting)) \/
  Coordinate_eqb (position_ v) (destination_ v) = true /\
  ((state_ v = no_passenger_queued /\
    u = Vehicle_SetDestination v
          (snap model (RandomMapPosition model (draws w)))) \/
   (state_ v = passenger_queued /\ u = Vehicle_SetState v waiting) \/
   (state_ v = driving_passenger /\
    u = Vehicle_SetState
          (Vehicle_SetDestination (Vehicle_DropOffPassenger v)
             (snap model (RandomMapPosition model (draws w))))
          no_passenger_requested)).
Proof.
  unfold Drive_arrival.
  destruct (Coordinate_eqb (position_ v) (destination_ v));
    [|intros E; injection E as <- <-; left; auto].
  destruct (state_ v) eqn:Hstate; simpl.
  - intros E; injection E as <- <-; left; auto.
  - rewrite ResetVehicleDestination_random.
    intros E; injection E as <- <-. right. split; auto.
  - unfold ArrivedAtPassenger, bindM, tell, lift, ret.
    destruct ride_matcher; [|discriminate].
    intros E; injection E as <- <-. right. split; auto.
  - intros E; injection E as <- <-; left; auto.
  - unfold VehicleManager_DropOffPassenger, bindM, lift.
    destruct (passenger_ v); [|discriminate].
    rewrite ResetVehicleDestination_random. unfold ret.
    intros E; injection E as <- <-. right. split; auto.
Qed.

(** An iteration of the drive loop, taken apart. *)
Lemma Drive_vehicle_inv (route_planner : RoutePlanner F) model
    (distance_per_cycle : F) (ride_matcher : bool) v w v' (w' : World) :
  Drive_vehicle route_planner model distance_per_cycle ride_matcher v w =
    Ok (v', w') ->
  (exists w1, Drive_route route_planner model v w = Ok (inl v', w1)) \/
  exists v1 w1 v2 w2,
    Drive_route route_planner model v w = Ok (inr v1, w1) /\
    Drive_request ride_matcher v1 w1 = Ok (v2, w2) /\
    ((state_ v2 = waiting /\ v' = v2) \/
     (state_ v2 <> waiting /\
      exists v3, IncrementalMove distance_per_cycle v2 = Ok v3 /\
                 Drive_arrival model ride_matcher v3 w2 = Ok (v', w'))).
Proof.
  unfold Drive_vehicle. intros Hrun.
  apply bindM_Ok_inv in Hrun. destruct Hrun as ([u|v1] & w1 & Hroute & Hrun).
  - left. injection Hrun as <- <-. eauto.
  - right. apply bindM_Ok_inv in Hrun.
    destruct Hrun as (v2 & w2 & Hreq & Hrun).
    exists v1, w1, v2, w2. split; [assumption|]. split; [assumption|].
    destruct (VehicleState_eqb (state_ v2) waiting) eqn:E.
    + apply VehicleState_eqb_eq in E. injection Hrun as <- <-. now left.
    + apply VehicleState_eqb_neq in E. right. split; [assumption|].
      apply bindM_Ok_inv in Hrun. destruct Hrun as (v3 & w3 & Hmove & Hrun).
      unfold lift in Hmove.
      destruct (IncrementalMove distance_per_cycle v2) as [v3'|];
        [|discriminate].
      injection Hmove as <- <-. eauto.
Qed.

(** The vehicle named by [IncrementalMove_argument] is the one the
    iteration moves. *)
Lemma IncrementalMove_argument_moved (route_planner : RoutePlanner F) model
    (distance_per_cycle : F) (ride_matcher : bool) v w u :
  IncrementalMove_argument route_planner model ride_matcher v w = Some u ->
  exists w1,
    Drive_vehicle route_planner model distance_per_cycle ride_matcher v w =
    bindM (lift (IncrementalMove distance_per_cycle u))
      (Drive_arrival model ride_matcher) w1.
Proof.
  unfold IncrementalMove_argument, Drive_vehicle. unfold bindM at 1.
  destruct (Drive_route route_planner model v w) as [[[v0|v1] w1]|e];
    try discriminate.
  unfold bindM at 1.
  destruct (Drive_request ride_matcher v1 w1) as [[v2 w2]|e];
    try discriminate.
  destruct (VehicleState_eqb (state_ v2) waiting); [discriminate|].
  intros E. injection E as <-. exists w2. reflexivity.
Qed.

End Steps.

(** ** A vehicle carries a passenger exactly when it drives one *)

Section Carrying.

Variable F : Type.
Context {SF : Scalar F}.

Implicit Types (v u : Vehicle F) (w : World) (model : RouteModel F).

Lemma Drive_vehicle_carrying (route_planner : RoutePlanner F) model
    (distance_per_cycle : F) (ride_matcher : bool) v w v' (w' : World) :
  carrying_iff_driving v = true ->
  Drive_vehicle route_planner model distance_per_cycle ride_matcher v w =
    Ok (v', w') ->
  carrying_iff_driving v' = true.
Proof.
  intros Hinv Hrun. apply Drive_vehicle_inv in Hrun.
  destruct Hrun as [(w1 & Hroute)
                   | (v1 & w1 & v2 & w2 & Hroute & Hreq & Hrest)].
  - apply Drive_route_frame in Hroute. simpl in Hroute.
    destruct Hroute as (Hp & Hs & _).
    unfold carrying_iff_driving, carrying in *. now rewrite Hp, Hs.
  - apply Drive_route_frame in Hroute. simpl in Hroute.
    destruct Hroute as (Hp1 & Hs1 & _).
    apply Drive_request_frame in Hreq.
    destruct Hreq as (Hp2 & _ & _ & _ & _ & _ & Hs2).
    assert (Hinv2 : carrying_iff_driving v2 = true).
    { unfold carrying_iff_driving, carrying in *. rewrite Hp2, Hp1.
      destruct Hs2 as [-> | [Hreq ->]].
      - now rewrite Hs1.
      - rewrite Hs1 in Hreq. rewrite Hreq in Hinv. exact Hinv. }
    destruct Hrest as [[_ ->] | (_ & v3 & Hmove & Harr)]; [exact Hinv2|].
    apply IncrementalMove_frame in Hmove.
    destruct Hmove as (Hs3 & Hc3 & _).
    assert (Hinv3 : carrying_iff_driving v3 = true).
    { unfold carrying_iff_driving in *. now rewrite Hc3, Hs3. }
    apply Drive_arrival_cases in Harr.
    destruct Harr as [[-> _] | (_ & [[Hs ->] | [[Hs ->] | [Hs ->]]])];
      [exact Hinv3 | | | reflexivity];
      unfold carrying_iff_driving, carrying in *; simpl;
      rewrite Hs in Hinv3; [now rewrite Hs|].
    destruct (passenger_ v3); [discriminate | reflexivity].
Qed.

Lemma carrying_reachable (route_planner : RoutePlanner F)
    (vm : VehicleManager F) :
  reachable route_planner (fun v => passenger_ v = None) vm ->
  Forall (fun v => carrying_iff_driving v = true) (vehicles_ vm).
Proof.
  intros Hreach.
  eapply reachable_Forall with (model := model_ vm);
    [| | | | exact Hreach | reflexivity].
  - reflexivity.
  - intros dpc rm v w v' w'. apply Drive_vehicle_carrying.
  - intros position v w v' w' _ Hnone Hstep.
    unfold AssignPassenger_vehicle, bindM in Hstep.
    simpl in Hstep. injection Hstep as <- <-.
    unfold carrying_iff_driving, carrying. simpl. now rewrite Hnone.
  - intros passenger v w v' w' _ Hstep.
    unfold PassengerIntoVehicle_vehicle, bindM, lift in Hstep.
    destruct passenger as [p|]; simpl in Hstep; [|discriminate].
    injection Hstep as <- <-. reflexivity.
Qed.

(** The last of the three writes of [PassengerIntoVehicle] gives what the
    function returns; the two before it leave the vehicle with the
    passenger and in the state it had. *)
Lemma PassengerIntoVehicle_writes_spec model (p : Passenger F) v w v'
    (w' : World) :
  PassengerIntoVehicle_vehicle model (Some p) v w = Ok (v', w') ->
  carrying_iff_driving v' = true /\
  exists v1 v2,
    PassengerIntoVehicle_writes model (Some p) v w = Ok ([v1; v2; v'], w') /\
    passenger_ v1 = Some p /\ state_ v1 = state_ v /\
    passenger_ v2 = Some p /\ state_ v2 = state_ v.
Proof.
  unfold PassengerIntoVehicle_vehicle, PassengerIntoVehicle_writes, bindM,
    lift. simpl. intros Hstep. injection Hstep as <- <-.
  split; [reflexivity|].
  do 2 eexists. split; [reflexivity|]. repeat split.
Qed.

(** The same for the three writes of the drop-off: the two before the last
    leave the vehicle without passenger and in the state it had. *)
Lemma DropOffPassenger_writes_spec model v w v' (w' : World) :
  VehicleManager_DropOffPassenger model v w = Ok (v', w') ->
  carrying_iff_driving v' = true /\
  exists v1 v2,
    DropOffPassenger_writes model v w = Ok ([v1; v2; v'], w') /\
    passenger_ v1 = None /\ state_ v1 = state_ v /\
    passenger_ v2 = None /\ state_ v2 = state_ v.
Proof.
  unfold VehicleManager_DropOffPassenger, DropOffPassenger_writes, bindM,
    lift. destruct (passenger_ v) as [p|]; [|discriminate].
  simpl. intros Hstep. injection Hstep as <- <-.
  split; [reflexivity|].
  do 2 eexists. split; [reflexivity|]. repeat split.
Qed.

(** C3 (amended).  In every state the manager reaches by construction,
    whole drive ticks (which contain the drop-off), whole calls of
    [PassengerIntoVehicle] and whole calls of [AssignPassenger], the last
    being made only on vehicles that carry no passenger, every vehicle has
    a passenger exactly when its state is [driving_passenger].
    [PassengerIntoVehicle] attaches the passenger and enters
    [driving_passenger] in one call, and the drop-off clears the passenger
    and leaves [driving_passenger] in one call; neither is atomic: each is
    three writes, and after the first and after the second of them the
    property fails (for [PassengerIntoVehicle], on a vehicle that was not
    in [driving_passenger] already). *)
Theorem carrying_iff_driving_invariant (route_planner : RoutePlanner F)
    (vm : VehicleManager F) :
  reachable route_planner (fun v => passenger_ v = None) vm ->
  Forall (fun v => passenger_ v <> None <-> state_ v = driving_passenger)
         (vehicles_ vm) /\
  (forall v (p : Passenger F) w v' (w' : World),
     In v (vehicles_ vm) ->
     PassengerIntoVehicle_vehicle (model_ vm) (Some p) v w = Ok (v', w') ->
     carrying_iff_driving v' = true /\
     exists v1 v2,
       PassengerIntoVehicle_writes (model_ vm) (Some p) v w =
         Ok ([v1; v2; v'], w') /\
       (state_ v <> driving_passenger ->
        carrying_iff_driving v1 = false /\
        carrying_iff_driving v2 = false)) /\
  (forall v w v' (w' : World),
     In v (vehicles_ vm) ->
     VehicleManager_DropOffPassenger (model_ vm) v w = Ok (v', w') ->
     carrying_iff_driving v' = true /\
     exists v1 v2,
       DropOffPassenger_writes (model_ vm) v w = Ok ([v1; v2; v'], w') /\
       carrying_iff_driving v1 = false /\
       carrying_iff_driving v2 = false).
Proof.
  intros Hreach.
  pose proof (carrying_reachable Hreach) as Hall.
  split; [|split].
  - eapply Forall_impl; [intros v Hv; apply carrying_iff_driving_spec, Hv|].
    exact Hall.
  - intros v p w v' w' _ Hstep.
    apply PassengerIntoVehicle_writes_spec in Hstep.
    destruct Hstep as (Hinv & v1 & v2 & Hwrites & Hp1 & Hs1 & Hp2 & Hs2).
    split; [exact Hinv|]. exists v1, v2. split; [exact Hwrites|].
    intros Hstate. unfold carrying_iff_driving, carrying.
    rewrite Hp1, Hs1, Hp2, Hs2.
    destruct (state_ v); try (now split); now contradiction Hstate.
  - intros v w v' w' Hin Hstep.
    assert (Hv : carrying_iff_driving v = true)
      by (rewrite Forall_forall in Hall; apply Hall, Hin).
    assert (Hsome : passenger_ v <> None).
    { unfold VehicleManager_DropOffPassenger, bindM, lift in Hstep.
      destruct (passenger_ v); [discriminate | discriminate Hstep]. }
    apply DropOffPassenger_writes_spec in Hstep.
    destruct Hstep as (Hinv & v1 & v2 & Hwrites & Hp1 & Hs1 & Hp2 & Hs2).
    split; [exact Hinv|]. exists v1, v2. split; [exact Hwrites|].
    apply carrying_iff_driving_spec in Hv. apply Hv in Hsome.
    unfold carrying_iff_driving, carrying.
    rewrite Hp1, Hs1, Hp2, Hs2, Hsome. now split.
Qed.

End Carrying.

(** ** The path index stays inside the path *)

Lemma last_nth_error {A : Type} (l : list A) (i : nat) (a d : A) :
  nth_error l i = Some a -> S i = length l -> last l d = a.
Proof.
  revert i. induction l as [|b l IH]; intros i Hnth Hlen; [discriminate|].
  destruct i as [|i]; simpl in *.
  - destruct l; [congruence | discriminate].
  - destruct l as [|b' l']; [destruct i; discriminate|].
    apply (IH i); [assumption | simpl in *; lia].
Qed.

Section Bounds.

Variable F : Type.
Context {SF : Scalar F}.

Variable route_planner : RoutePlanner F.
Variable model : RouteModel F.
Hypothesis planner_ok : planner_ends_at_goal model route_planner.

Implicit Types (v u : Vehicle F) (w : World).

Lemma routed_after_reset v (c : Coordinate F) :
  routed model (Vehicle_SetDestination v (snap model c)).
Proof. split; simpl; eauto. Qed.

Lemma routed_new (start a b : Coordinate F) (id : Z) :
  routed model
    (Vehicle_SetId
       (Vehicle_SetDestination (Vehicle_SetPosition (Vehicle_new start) a)
          (snap model b))
       id).
Proof. split; simpl; eauto. Qed.

Lemma routed_route v w (r : Vehicle F + Vehicle F) (w' : World) :
  routed model v ->
  Drive_route route_planner model v w = Ok (r, w') ->
  match r with
  | inl u => routed model u
  | inr u => routed model u /\ path_ u <> [] /\ state_ u = state_ v
  end.
Proof.
  intros [[c Hdest] Hpath]. unfold Drive_route, AStarSearch.
  destruct (path_ v) as [|a l] eqn:Hp.
  - cbn [Vehicle_SetPath path_].
    pose proof (path_last planner_ok (position_ v) (destination_ v))
      as Hlast.
    destruct (route_planner (position_ v) (destination_ v)) as [|b k].
    + unfold bindM. rewrite ResetVehicleDestination_random.
      intros E. injection E as <- <-. apply routed_after_reset.
    + intros E. injection E as <- <-.
      split; [|split; [discriminate | reflexivity]].
      split; [exists c; exact Hdest|].
      cbn [Vehicle_SetPath path_ path_index_ destination_ state_].
      split; [|left; simpl; lia].
      rewrite Hlast by discriminate.
      rewrite Hdest. apply (snap_idempotent planner_ok).
  - intros E. injection E as <- <-.
    split; [|split; [rewrite Hp; discriminate | reflexivity]].
    split; [eauto|]. now rewrite Hp.
Qed.

Lemma routed_request (ride_matcher : bool) v w u (w' : World) :
  routed model v -> path_ v <> [] ->
  Drive_request ride_matcher v w = Ok (u, w') ->
  routed model u /\ path_ u <> [] /\ state_ u <> no_passenger_requested.
Proof.
  intros [Hdest Hpath] Hne Hreq. apply Drive_request_frame in Hreq.
  destruct Hreq as (_ & Hp & Hi & Hd & _ & Hnot & Hs).
  split; [|split; [now rewrite Hp | assumption]].
  split; [now rewrite Hd|]. rewrite Hp, Hi, Hd.
  destruct (path_ v) as [|a l]; [assumption|].
  destruct Hpath as [Hlast Hin]. split; [assumption|].
  destruct Hs as [-> | [Hv ->]]; [assumption|].
  destruct Hin as [Hin | Hw]; [now left | congruence].
Qed.

(** After the move the vehicle is either still inside its path or on its
    destination. *)
Lemma routed_move (distance_per_cycle : F) v :
  routed model v -> path_ v <> [] -> state_ v <> waiting ->
  (path_index_ v < length (path_ v))%nat /\
  exists u, IncrementalMove distance_per_cycle v = Ok u /\
    state_ u = state_ v /\ path_ u = path_ v /\
    (exists c, destination_ u = snap model c) /\
    last (path_ u) (destination_ u) = destination_ u /\
    ((path_index_ u < length (path_ u))%nat \/
     position_ u = destination_ u).
Proof.
  intros [Hdest Hpath] Hne Hnw.
  destruct (path_ v) as [|a l] eqn:Hp; [congruence|].
  destruct Hpath as [Hlast [Hin | Hw]]; [|congruence].
  rewrite <- Hp in *.
  split; [assumption|].
  destruct (at_in_bounds _ Hin) as [next Hnext].
  destruct (IncrementalMove_cases distance_per_cycle v Hnext)
    as (u & Hmove & Hpu & Hdu & Hsu & Hcase).
  exists u. split; [assumption|]. split; [assumption|].
  split; [assumption|]. rewrite Hpu, Hdu.
  split; [assumption|]. split; [assumption|].
  destruct Hcase as [[Hpos Hidx] | Hidx].
  - rewrite Hidx, Hpos.
    destruct (Nat.eq_dec (S (path_index_ v)) (length (path_ v)))
      as [Hend | Hmid]; [right | left; lia].
    rewrite <- Hlast. symmetry.
    now apply last_nth_error with (i := path_index_ v).
  - left. now rewrite Hidx.
Qed.

Lemma routed_arrival (ride_matcher : bool) v w u (w' : World) :
  (exists c, destination_ v = snap model c) ->
  path_ v <> [] ->
  last (path_ v) (destination_ v) = destination_ v ->
  (path_index_ v < length (path_ v))%nat \/
    position_ v = destination_ v ->
  state_ v <> no_passenger_requested -> state_ v <> waiting ->
  Drive_arrival model ride_matcher v w = Ok (u, w') ->
  routed model u.
Proof.
  intros Hdest Hne Hlast Hin Hnr Hnw Harr.
  assert (Hat : position_ v = destination_ v ->
                Coordinate_eqb (position_ v) (destination_ v) = true).
  { intros ->. destruct Hdest as [c ->]. apply (snap_number planner_ok). }
  assert (Hpath : forall s,
            s = waiting \/ (path_index_ v < length (path_ v))%nat ->
            routed model (Vehicle_SetState v s)).
  { intros s Hs. split; [exact Hdest|]. simpl.
    destruct (path_ v) as [|a l]; [congruence|]. split; [assumption|].
    destruct Hs; [now right | now left]. }
  apply Drive_arrival_cases in Harr.
  destruct Harr as [[-> Hwhy] | (Heq & [[Hs ->] | [[Hs ->] | [Hs ->]]])].
  - replace v with (Vehicle_SetState v (state_ v)) by now destruct v.
    apply Hpath. right.
    destruct Hwhy as [Hfar | [Hs | Hs]]; [|congruence|congruence].
    destruct Hin as [Hin | Hpos]; [assumption|].
    rewrite (Hat Hpos) in Hfar. discriminate.
  - apply routed_after_reset.
  - apply Hpath. now left.
  - split; simpl; eauto.
Qed.

Lemma routed_Drive_vehicle (distance_per_cycle : F) (ride_matcher : bool)
    v w v' (w' : World) :
  routed model v ->
  Drive_vehicle route_planner model distance_per_cycle ride_matcher v w =
    Ok (v', w') ->
  routed model v'.
Proof.
  intros Hv Hrun. apply Drive_vehicle_inv in Hrun.
  destruct Hrun as [(w1 & Hroute)
                   | (v1 & w1 & v2 & w2 & Hroute & Hreq & Hrest)].
  - eapply routed_route in Hroute; [exact Hroute | exact Hv].
  - eapply routed_route in Hroute; [|exact Hv].
    destruct Hroute as (Hv1 & Hne1 & _).
    eapply routed_request in Hreq; [|exact Hv1|exact Hne1].
    destruct Hreq as (Hv2 & Hne2 & Hnr).
    destruct Hrest as [[_ ->] | (Hnw & v3 & Hmove & Harr)]; [exact Hv2|].
    edestruct routed_move
      as (_ & u & Hmove' & Hsu & Hpu & Hdu & Hlu & Hiu);
      [exact Hv2 | exact Hne2 | exact Hnw|].
    rewrite Hmove in Hmove'. injection Hmove' as <-.
    eapply routed_arrival; try eassumption; congruence.
Qed.

Lemma routed_reachable (assignable : Vehicle F -> Prop)
    (vm : VehicleManager F) :
  reachable route_planner assignable vm ->
  model_ vm = model ->
  Forall (routed model) (vehicles_ vm).
Proof.
  intros Hreach Hmodel.
  eapply reachable_Forall with (P := routed model);
    [| | | | exact Hreach | exact Hmodel].
  - apply routed_new.
  - intros dpc rm v w v' w'. apply routed_Drive_vehicle.
  - intros position v w v' w' _ _ Hstep.
    unfold AssignPassenger_vehicle, bindM in Hstep. simpl in Hstep.
    injection Hstep as <- <-.
    split; [eexists; reflexivity | reflexivity].
  - intros passenger v w v' w' _ Hstep.
    unfold PassengerIntoVehicle_vehicle, bindM, lift in Hstep.
    destruct passenger as [p|]; simpl in Hstep; [|discriminate].
    injection Hstep as <- <-.
    split; [eexists; reflexivity | reflexivity].
Qed.

Lemma routed_interleaved (assignable : Vehicle F -> Prop)
    (vm : VehicleManager F) :
  interleaved route_planner assignable vm ->
  model_ vm = model ->
  Forall (routed model) (vehicles_ vm).
Proof.
  intros Hinter Hmodel.
  eapply interleaved_Forall with (P := routed model);
    [| | | | exact Hinter | exact Hmodel].
  - apply routed_new.
  - intros dpc rm v w v' w'. apply routed_Drive_vehicle.
  - intros position v w v' w' _ _ Hstep.
    unfold AssignPassenger_vehicle, bindM in Hstep. simpl in Hstep.
    injection Hstep as <- <-.
    split; [eexists; reflexivity | reflexivity].
  - intros passenger v w v' w' _ Hstep.
    unfold PassengerIntoVehicle_vehicle, bindM, lift in Hstep.
    destruct passenger as [p|]; simpl in Hstep; [|discriminate].
    injection Hstep as <- <-.
    split; [eexists; reflexivity | reflexivity].
Qed.

Lemma routed_argument (distance_per_cycle : F) (ride_matcher : bool)
    v w u :
  routed model v ->
  IncrementalMove_argument route_planner model ride_matcher v w = Some u ->
  path_ u <> [] /\
  (path_index_ u < length (path_ u))%nat /\
  exists v', IncrementalMove distance_per_cycle u = Ok v'.
Proof.
  intros Hv. unfold IncrementalMove_argument.
  destruct (Drive_route route_planner model v w) as [[[v0|v1] w1]|e]
    eqn:Hroute; try discriminate.
  destruct (Drive_request ride_matcher v1 w1) as [[v2 w2]|e] eqn:Hreq;
    try discriminate.
  destruct (VehicleState_eqb (state_ v2) waiting) eqn:Hw; [discriminate|].
  intros E. injection E as <-.
  apply VehicleState_eqb_neq in Hw.
  eapply routed_route in Hroute; [|exact Hv].
  destruct Hroute as (Hv1 & Hne1 & _).
  eapply routed_request in Hreq; [|exact Hv1|exact Hne1].
  destruct Hreq as (Hv2 & Hne2 & _).
  edestruct routed_move as (Hin & v' & Hmove & _);
    [exact Hv2 | exact Hne2 | exact Hw|].
  split; [exact Hne2|]. split; [exact Hin|]. exists v'. exact Hmove.
Qed.

Lemma Drive_vehicle_in_bounds (distance_per_cycle : F) (ride_matcher : bool)
    v w :
  routed model v ->
  Drive_vehicle route_planner model distance_per_cycle ride_matcher v w <>
    Err OutOfRange.
Proof.
  intros Hv. unfold Drive_vehicle, bindM.
  pose proof (fun u => @routed_argument distance_per_cycle ride_matcher
                         v w u Hv) as Harg.
  unfold IncrementalMove_argument in Harg.
  destruct (Drive_route route_planner model v w) as [[[v0|v1] w1]|e]
    eqn:Hroute.
  - discriminate.
  - destruct (Drive_request ride_matcher v1 w1) as [[v2 w2]|e] eqn:Hreq.
    + destruct (VehicleState_eqb (state_ v2) waiting); [discriminate|].
      destruct (Harg v2 eq_refl) as (_ & _ & v3 & Hmove).
      rewrite Hmove. simpl.
      unfold Drive_arrival.
      destruct (Coordinate_eqb _ _); [|discriminate].
      destruct (state_ v3); simpl; try discriminate.
      * unfold ArrivedAtPassenger, bindM, tell, lift.
        destruct ride_matcher; discriminate.
      * unfold VehicleManager_DropOffPassenger, bindM, lift.
        destruct (passenger_ v3); discriminate.
    + unfold Drive_request, RequestPassenger, bindM, tell, ret in Hreq.
      destruct (VehicleState_eqb _ _), ride_matcher; discriminate.
  - unfold Drive_route, AStarSearch, bindM in Hroute.
    destruct (path_ v); simpl in Hroute; [|discriminate].
    destruct (route_planner _ _); discriminate.
Qed.

Lemma Drive_vehicles_in_bounds (distance_per_cycle : F)
    (ride_matcher : bool) (vs : list (Vehicle F)) w :
  Forall (routed model) vs ->
  Drive_vehicles route_planner model distance_per_cycle ride_matcher vs w <>
    Err OutOfRange.
Proof.
  intros Hall. revert w.
  induction Hall as [|v rest Hv Hrest IH]; intros w; simpl; [discriminate|].
  unfold bindM at 1.
  pose proof (@Drive_vehicle_in_bounds distance_per_cycle ride_matcher
                v w Hv) as Hone.
  destruct (Drive_vehicle _ _ _ _ v w) as [[v' w1]|e]; [|congruence].
  unfold bindM. specialize (IH w1).
  destruct (Drive_vehicles _ _ _ _ rest w1) as [[rest' w2]|e];
    [discriminate | congruence].
Qed.

End Bounds.

(** C10 (amended).  With a planner whose routes end on the node of the
    destination, in every state the manager is in between two iterations
    of the drive loop, the callbacks of the matcher coming between
    iterations and not inside one: every vehicle with a path has its
    destination at the end of the path and a path index below the length of
    the path, unless it is [waiting] (where a vehicle that has arrived at
    its pickup stays, its index at the length of its path, until a callback
    resets the path); every vehicle that an iteration hands to
    [IncrementalMove] has a path that is not empty and a path index below
    the length of the path, so that [path.at(path_index)] returns; and no
    iteration and no tick throws [std::out_of_range]. *)
Theorem IncrementalMove_in_bounds (F : Type) (SF : Scalar F)
    (route_planner : RoutePlanner F) (vm : VehicleManager F) :
  planner_ends_at_goal (model_ vm) route_planner ->
  interleaved route_planner (fun _ => True) vm ->
  Forall (routed (model_ vm)) (vehicles_ vm) /\
  (forall (v : Vehicle F) (w : World) (u : Vehicle F),
     In v (vehicles_ vm) ->
     IncrementalMove_argument route_planner (model_ vm) (ride_matcher_ vm)
       v w = Some u ->
     path_ u <> [] /\
     (path_index_ u < length (path_ u))%nat /\
     exists v', IncrementalMove (distance_per_cycle_ vm) u = Ok v') /\
  (forall (v : Vehicle F) (w : World),
     In v (vehicles_ vm) ->
     Drive_vehicle route_planner (model_ vm) (distance_per_cycle_ vm)
       (ride_matcher_ vm) v w <> Err OutOfRange) /\
  Drive route_planner vm <> Err OutOfRange.
Proof.
  intros Hplanner Hinter.
  pose proof (@routed_interleaved F SF route_planner (model_ vm) Hplanner
                (fun _ => True) vm Hinter eq_refl) as Hall.
  split; [exact Hall|]. split; [|split].
  - intros v w u Hin Harg.
    eapply routed_argument; [exact Hplanner | | exact Harg].
    eapply Forall_forall; [exact Hall | exact Hin].
  - intros v w Hin.
    apply Drive_vehicle_in_bounds; [exact Hplanner|].
    eapply Forall_forall; [exact Hall | exact Hin].
  - unfold Drive.
    pose proof (@Drive_vehicles_in_bounds F SF route_planner (model_ vm)
                  Hplanner (distance_per_cycle_ vm) (ride_matcher_ vm)
                  (vehicles_ vm) (world_ vm) Hall) as Hno.
    destruct (Drive_vehicles _ _ _ _ _ _) as [r|e]; simpl;
      [discriminate | congruence].
Qed.

(** ** The overlay *)

Section Overlay.

Import BasicGraphics.

Lemma int_of_f32_truncates (f : float32) (n : Z) :
  int_of_f32 f = Some n ->
  exists q : Q, Q_of_f32 f = Some q /\ n = Qtruncate q.
Proof.
  destruct f as [s | s | | s m e]; unfold int_of_f32, Q_of_f32;
    try discriminate.
  - intros E. injection E as <-. exists 0%Q. split; reflexivity.
  - destruct (_ && _)%bool; [|discriminate].
    intros E.
    assert (Hsome : forall a b : Z, Some a = Some b -> a = b)
      by (intros a b Hab; congruence).
    apply Hsome in E. subst n. eexists. split; [reflexivity|].
    unfold Qtruncate.
    destruct e as [|p|p]; unfold inject_Z, Qnum, Qden.
    + rewrite Z.quot_1_r. now destruct s.
    + rewrite Z.quot_1_r. destruct s; [|reflexivity].
      change (Z.neg m) with (- Z.pos m)%Z. ring.
    + rewrite Pos2Z.inj_pow.
      assert (Hd : (0 < 2 ^ Z.pos p)%Z) by (apply Z.pow_pos_nonneg; lia).
      destruct s.
      * change (Z.neg m) with (- Z.pos m)%Z.
        rewrite Z.quot_opp_l by lia. f_equal.
        symmetry. apply Z.quot_div_nonneg; lia.
      * symmetry. apply Z.quot_div_nonneg; lia.
Qed.

Lemma centre_truncated (g : BasicGraphics) (position : float32 * float32)
    (c : Z * Z) :
  centre g position = Some c -> truncated_pixel g position c.
Proof.
  unfold centre, adjust. cbn [fst snd].
  destruct (int_of_f32 (f32_mul (f32_div (f32_sub (fst position) _) _) _))
    as [px|] eqn:Hx; [|discriminate].
  destruct (int_of_f32 (f32_mul (f32_div (f32_sub _ (snd position)) _) _))
    as [py|] eqn:Hy; [|discriminate].
  intros E. injection E as <-.
  apply int_of_f32_truncates in Hx. destruct Hx as (qx & Hqx & ->).
  apply int_of_f32_truncates in Hy. destruct Hy as (qy & Hqy & ->).
  exists qx, qy. repeat split; assumption.
Qed.

(** C9 (amended).  Every circle of [DrawIntersections] and of
    [DrawPassengers] is drawn at the pixel whose coordinates are
    [(lon - min_lon) / (max_lon - min_lon) * width] and
    [(max_lat - lat) / (max_lat - min_lat) * height] with their fractions
    discarded by the cast to [int]. *)
Theorem circles_at_truncated_pixels (g : BasicGraphics) :
  (forall (intersections : list (float32 * float32)) (cs : list (Z * Z)),
     DrawIntersections g intersections = Some cs ->
     Forall2 (truncated_pixel g) intersections cs) /\
  (forall (passengers : list ((float32 * float32) * (float32 * float32)))
          (cs : list (Z * Z)),
     DrawPassengers g passengers = Some cs ->
     Forall2 (truncated_pixel g) (ends passengers) cs).
Proof.
  split.
  - unfold DrawIntersections.
    induction intersections as [|p rest IH]; intros cs Hdraw; simpl in Hdraw.
    + injection Hdraw as <-. constructor.
    + destruct (centre g p) as [c|] eqn:Hc; [|discriminate].
      destruct (centres g rest) as [cs'|]; [|discriminate].
      injection Hdraw as <-.
      constructor; [now apply centre_truncated | now apply IH].
  - induction passengers as [|[s d] rest IH]; intros cs Hdraw;
      simpl in Hdraw.
    + injection Hdraw as <-. constructor.
    + destruct (centre g s) as [cs1|] eqn:Hs; [|discriminate].
      destruct (centre g d) as [cd|] eqn:Hd; [|discriminate].
      destruct (DrawPassengers g rest) as [cs'|]; [|discriminate].
      injection Hdraw as <-. simpl.
      constructor; [now apply centre_truncated|].
      constructor; [now apply centre_truncated | now apply IH].
Qed.

End Overlay.

(** ** The theorems at work on the two-node map *)

Import Fixtures.

(** The vehicle of the fleet drives from (0, 0) to (10, 0) in steps of 3
    and lands on the node itself. *)
Example fleet_drives_to_the_node :
  positions (Drive_times (SF := D) 1 direct fleet) = [coord 3 0] /\
  positions (Drive_times (SF := D) 2 direct fleet) = [coord 6 0] /\
  positions (Drive_times (SF := D) 3 direct fleet) = [coord 9 0] /\
  positions (Drive_times (SF := D) 4 direct fleet) = [coord 10 0].
Proof. repeat split; vm_compute; reflexivity. Qed.

(** In binary64 the step a vehicle takes is not the step it is given: with
    a step of 2^-47, half the distance between the floats around 74, a
    vehicle at 74 does not move at all, and a vehicle one float further
    moves by twice the step. *)
Example IncrementalMove_rounds :
  (exists v',
     IncrementalMove (SF := D) 0x1p-47%float at_74 = Ok v' /\
     position_ v' = position_ at_74 /\ path_index_ v' = 0%nat) /\
  (exists v',
     IncrementalMove (SF := D) 0x1p-47%float after_74 = Ok v' /\
     PrimFloat.sub (x (position_ v')) (x (position_ after_74)) =
     PrimFloat.mul 2%float 0x1p-47%float).
Proof.
  split; eexists; (split; [vm_compute; reflexivity|]);
    vm_compute; repeat split.
Qed.

Lemma IncrementalMove_step_witness :
  (exists v', IncrementalMove (SF := D) 3%float cruising = Ok v' /\
     position_ v' = coord 3 0 /\ path_index_ v' = 1%nat) /\
  (exists v', IncrementalMove (SF := D) 3%float nearly_there = Ok v' /\
     position_ v' = coord 10 0 /\ path_index_ v' = 2%nat).
Proof.
  split.
  - destruct (@IncrementalMove_step float D 3%float cruising (coord 10 0)
                eq_refl) as (v' & Hmove & _ & Hfar & _).
    exists v'. split; [exact Hmove|].
    destruct (Hfar eq_refl) as [Hp Hi].
    split; [rewrite Hp; reflexivity | exact Hi].
  - destruct (@IncrementalMove_step float D 3%float nearly_there
                (coord 10 0) eq_refl) as (v' & Hmove & Hsnap & _).
    exists v'. split; [exact Hmove|]. exact (Hsnap eq_refl).
Defined.

Lemma Drive_arrival_drops_off_witness :
  exists v',
    Drive_arrival (SF := D) two_nodes true arriving fresh =
      Ok (v', {| draws := 1; calls := [] |}) /\
    failures_ arriving = 2%Z /\ failures_ v' = 0%Z /\
    passenger_ v' = None /\ state_ v' = no_passenger_requested /\
    destination_ v' = coord 0 0.
Proof.
  destruct (@Drive_arrival_drops_off float D two_nodes true arriving rider
              fresh eq_refl eq_refl eq_refl)
    as (v' & Hrun & Hp & Hf & Hd & _ & _ & Hs & _).
  exists v'. split; [exact Hrun|]. split; [reflexivity|].
  split; [exact Hf|]. split; [exact Hp|]. split; [exact Hs|].
  rewrite Hd. reflexivity.
Defined.

Lemma SetPosition_carries_passenger_witness :
  passenger_ (Vehicle_SetPosition arriving (coord 3 0)) =
    Some (Passenger_SetPosition rider (coord 3 0)) /\
  p_position (Passenger_SetPosition rider (coord 3 0)) = coord 3 0.
Proof.
  destruct (@SetPosition_carries_passenger float D arriving rider eq_refl)
    as [Hset _].
  destruct (Hset (coord 3 0)) as (_ & Hp & Hpos).
  split; [exact Hp | exact Hpos].
Defined.

(** C3, as stated, fails twice.  Between operations: the rider is put
    into the vehicle and the vehicle is then assigned another pickup; it
    carries a passenger in state [passenger_queued].  Inside an operation,
    which is not atomic: after the first and after the second of the three
    writes of [PassengerIntoVehicle] a vehicle that was waiting carries the
    rider and is still [waiting], and after the first and after the second
    of the three writes of the drop-off the vehicle carries nobody and is
    still [driving_passenger]. *)
Lemma carrying_iff_driving_fails :
  (reachable (SF := D) direct (fun _ => True) reassigned /\
   ~ Forall (fun v => passenger_ v <> None <-> state_ v = driving_passenger)
       (vehicles_ reassigned)) /\
  (exists v1 v2 v3 w,
     PassengerIntoVehicle_writes two_nodes (Some rider) parked fresh =
       Ok ([v1; v2; v3], w) /\
     PassengerIntoVehicle_vehicle two_nodes (Some rider) parked fresh =
       Ok (v3, w) /\
     carrying_iff_driving parked = true /\
     (passenger_ v1 = Some rider /\ state_ v1 = waiting) /\
     (passenger_ v2 = Some rider /\ state_ v2 = waiting) /\
     carrying_iff_driving v3 = true) /\
  (exists v1 v2 v3 w,
     DropOffPassenger_writes two_nodes arriving fresh =
       Ok ([v1; v2; v3], w) /\
     VehicleManager_DropOffPassenger two_nodes arriving fresh = Ok (v3, w) /\
     carrying_iff_driving arriving = true /\
     (passenger_ v1 = None /\ state_ v1 = driving_passenger) /\
     (passenger_ v2 = None /\ state_ v2 = driving_passenger) /\
     carrying_iff_driving v3 = true).
Proof.
  split; [split|split].
  - eapply reach_assign with (vm := boarded) (id := 0%Z)
      (position := coord 0 0);
      [eapply reach_into with (vm := fleet) (id := 0%Z)
         (passenger := Some rider);
         [apply reach_matcher, reach_new | reflexivity]
      | reflexivity | exact I | reflexivity].
  - intros Hall.
    remember (vehicles_ reassigned) as vs eqn:E. vm_compute in E. subst vs.
    apply Forall_inv in Hall. destruct Hall as [Hdrive _].
    cbn [passenger_ state_] in Hdrive.
    assert (Hq : passenger_queued = driving_passenger)
      by (apply Hdrive; discriminate).
    discriminate Hq.
  - do 4 eexists. split; [vm_compute; reflexivity|].
    split; [vm_compute; reflexivity|]. repeat split.
  - do 4 eexists. split; [vm_compute; reflexivity|].
    split; [vm_compute; reflexivity|]. repeat split.
Qed.

(** On the fleet with the rider aboard; and on the three writes that put
    the rider into the vehicle of the fleet. *)
Lemma carrying_iff_driving_invariant_witness :
  Forall (fun v => passenger_ v <> None <-> state_ v = driving_passenger)
    (vehicles_ boarded) /\
  exists v1 v2 v3 w,
    PassengerIntoVehicle_writes two_nodes (Some rider) newcomer fresh =
      Ok ([v1; v2; v3], w) /\
    carrying_iff_driving v1 = false /\
    carrying_iff_driving v2 = false /\
    carrying_iff_driving v3 = true.
Proof.
  split.
  - destruct (@carrying_iff_driving_invariant float D direct boarded)
      as [Hall _].
    + eapply reach_into with (vm := fleet) (id := 0%Z)
        (passenger := Some rider);
        [apply reach_matcher, reach_new | reflexivity].
    + exact Hall.
  - destruct (@carrying_iff_driving_invariant float D direct fleet)
      as (_ & Hinto & _).
    + apply reach_matcher, reach_new.
    + destruct (Hinto newcomer rider fresh loaded fresh (or_introl eq_refl))
        as (Hlast & v1 & v2 & Hwrites & Hbroken).
      * vm_compute. reflexivity.
      * destruct Hbroken as [Hv1 Hv2]; [discriminate|].
        exists v1, v2. eexists. exists fresh.
        split; [exact Hwrites|]. split; [exact Hv1|].
        split; [exact Hv2 | exact Hlast].
Defined.

(** C4, as stated, fails: a vehicle that carries a rider and finds no
    route keeps the rider and stays in [driving_passenger], and the ride
    matcher hears nothing. *)
Lemma unroutable_while_carrying :
  exists v' w',
    Drive_vehicle (SF := D) no_route two_nodes 3%float true loaded fresh =
      Ok (v', w') /\
    state_ v' = driving_passenger /\
    state_ v' <> no_passenger_requested /\
    passenger_ v' = Some rider /\
    calls w' = [].
Proof.
  eexists. eexists. split; [vm_compute; reflexivity|].
  cbn [state_ passenger_ calls].
  repeat split; [discriminate].
Qed.

Lemma Drive_vehicle_unroutable_witness :
  destination_ newcomer = coord 10 0 /\
  exists v',
    Drive_vehicle (SF := D) no_route two_nodes 3%float true newcomer fresh =
      Ok (v', {| draws := 1; calls := [] |}) /\
    destination_ v' = coord 0 0 /\
    state_ v' = no_passenger_requested /\ passenger_ v' = None /\
    position_ v' = coord 0 0.
Proof.
  split; [reflexivity|].
  destruct (@Drive_vehicle_unroutable float D no_route two_nodes 3%float
              true newcomer fresh eq_refl eq_refl eq_refl)
    as (v' & Hrun & Hd & _ & _ & Hs & Hp & Hpos & _).
  exists v'. split; [exact Hrun|].
  split; [rewrite Hd; reflexivity|].
  split; [exact Hs|]. split; [exact Hp | exact Hpos].
Defined.

(** C5, as stated, fails: a pickup at (3, 4) is off the road, and the
    vehicle is sent to the node at (0, 0). *)
Lemma AssignPassenger_off_road :
  exists vm' v',
    AssignPassenger fleet 0 (coord 3 4) = Ok vm' /\
    vehicle_at vm' 0 = Ok v' /\
    destination_ v' = coord 0 0 /\
    Coordinate_eqb (SF := D) (destination_ v') (coord 3 4) = false.
Proof.
  eexists. eexists. split; [vm_compute; reflexivity|].
  split; [vm_compute; reflexivity|]. split; reflexivity.
Qed.

(** A vehicle under way to (10, 0), at index 1 of a path of two nodes, is
    assigned a pickup at (3, 4), off the road: it is sent to the node at
    (0, 0) and loses its path; the other vehicle is as it was. *)
Lemma AssignPassenger_spec_witness :
  (destination_ cruising = coord 10 0 /\
   path_ cruising = [coord 0 0; coord 10 0] /\
   path_index_ cruising = 1%nat /\
   state_ cruising = no_passenger_queued) /\
  exists vm' v',
    AssignPassenger pair 0 (coord 3 4) = Ok vm' /\
    vehicle_at vm' 0 = Ok v' /\
    destination_ v' = coord 0 0 /\
    path_ v' = [] /\ path_index_ v' = 0%nat /\
    state_ v' = passenger_queued /\
    position_ v' = coord 0 0 /\
    nth_error (vehicles_ vm') 1 = Some at_pickup.
Proof.
  split; [repeat split|].
  destruct (@AssignPassenger_spec float pair 0%Z (coord 3 4) cruising
              eq_refl)
    as (vm' & v' & Hrun & Hat & Hd & _ & Hp & Hi & Hs & Hpos & _ & Hothers).
  exists vm', v'. split; [exact Hrun|]. split; [exact Hat|].
  split; [rewrite Hd; reflexivity|].
  split; [exact Hp|]. split; [exact Hi|]. split; [exact Hs|].
  split; [exact Hpos|].
  rewrite (Hothers 1%nat); [reflexivity | discriminate].
Defined.

(** C6, as stated, fails: the rider wants to go to (8, 3), which is off
    the road, and the vehicle is sent to the node at (10, 0). *)
Lemma PassengerIntoVehicle_off_road :
  exists vm' v',
    PassengerIntoVehicle fleet 0 (Some off_road_rider) = Ok vm' /\
    vehicle_at vm' 0 = Ok v' /\
    passenger_ v' = Some off_road_rider /\
    destination_ v' = coord 10 0 /\
    Coordinate_eqb (SF := D) (destination_ v')
      (p_destination off_road_rider) = false.
Proof.
  eexists. eexists. split; [vm_compute; reflexivity|].
  split; [vm_compute; reflexivity|]. repeat split.
Qed.

(** A vehicle waiting at (0, 0), at the end of a path of two nodes, takes
    in a rider who wants to go to (8, 3), off the road: it is sent to the
    node at (10, 0) and loses its path; the other vehicle is as it was. *)
Lemma PassengerIntoVehicle_spec_witness :
  (destination_ at_pickup = coord 0 0 /\
   path_ at_pickup = [coord 10 0; coord 0 0] /\
   path_index_ at_pickup = 2%nat /\
   state_ at_pickup = waiting) /\
  exists vm' v',
    PassengerIntoVehicle pair 1 (Some off_road_rider) = Ok vm' /\
    vehicle_at vm' 1 = Ok v' /\
    passenger_ v' = Some off_road_rider /\
    destination_ v' = coord 10 0 /\
    path_ v' = [] /\ path_index_ v' = 0%nat /\
    state_ v' = driving_passenger /\
    position_ v' = coord 0 0 /\
    nth_error (vehicles_ vm') 0 = Some cruising.
Proof.
  split; [repeat split|].
  destruct (@PassengerIntoVehicle_spec float pair 1%Z off_road_rider
              at_pickup eq_refl)
    as (vm' & v' & Hrun & Hat & Hpass & Hd & _ & Hp & Hi & Hs & Hpos
        & Hothers).
  exists vm', v'. split; [exact Hrun|]. split; [exact Hat|].
  split; [exact Hpass|]. split; [rewrite Hd; reflexivity|].
  split; [exact Hp|]. split; [exact Hi|]. split; [exact Hs|].
  split; [exact Hpos|].
  rewrite (Hothers 0%nat); [reflexivity | discriminate].
Defined.

(** C9, as stated, fails: in the middle of a 3 by 3 overlay the mapping
    gives 3/2 and the circle is drawn at pixel 1. *)
Lemma pixel_is_truncated :
  BasicGraphics.DrawIntersections overlay [middle] = Some [(1, 1)%Z] /\
  exists q : Q,
    BasicGraphics.Q_of_f32 (BasicGraphics.spec_px overlay (fst middle)) =
      Some q /\
    (q == 3 # 2)%Q /\ ~ (inject_Z 1 == q)%Q.
Proof.
  split; [vm_compute; reflexivity|].
  eexists. split; [vm_compute; reflexivity|].
  split; [reflexivity|]. intros Heq. vm_compute in Heq. discriminate Heq.
Qed.

Lemma circles_at_truncated_pixels_witness :
  Forall2 (BasicGraphics.truncated_pixel overlay) [middle] [(1, 1)%Z].
Proof.
  apply (proj1 (circles_at_truncated_pixels overlay)).
  vm_compute. reflexivity.
Defined.

(** The planner of the two-node map is as the specification has it. *)
Lemma direct_ends_at_goal : @planner_ends_at_goal float D two_nodes direct.
Proof.
  constructor.
  - intros s g _. reflexivity.
  - intros c. unfold snap at 2 3. cbn [FindClosestNode two_nodes].
    unfold two_nodes_closest.
    destruct (PrimFloat.ltb _ _); vm_compute; reflexivity.
  - intros c. unfold snap. cbn [FindClosestNode two_nodes].
    unfold two_nodes_closest.
    destruct (PrimFloat.ltb _ _); vm_compute; reflexivity.
Qed.

(** C10, as stated, fails twice.  The vehicle of the fleet has been given
    its route and has made its request when [AssignPassenger] is called on
    it, before the iteration gets to [IncrementalMove]: its path is empty
    and [path.at(path_index)] throws.  And a vehicle that reaches the final
    node of its path at a pickup has its position equal to its destination,
    and nothing resets its path: it is [waiting] with its path index at the
    length of the path. *)
Lemma IncrementalMove_out_of_bounds :
  (reachable (SF := D) direct (fun _ => True) fleet /\
   In newcomer (vehicles_ fleet) /\
   exists u u' w,
     IncrementalMove_argument direct two_nodes true newcomer (world_ fleet) =
       Some u /\
     path_ u = [coord 10 0] /\
     AssignPassenger_vehicle two_nodes (coord 9 1) u w = Ok (u', w) /\
     path_ u' = [] /\
     IncrementalMove (SF := D) (distance_per_cycle_ fleet) u' =
       Err OutOfRange) /\
  (AssignPassenger fleet 0 (coord 9 1) = Ok called /\
   Drive_times (SF := D) 4 direct called = Ok called_arrived /\
   exists v,
     vehicle_at called_arrived 0 = Ok v /\
     position_ v = coord 10 0 /\ destination_ v = coord 10 0 /\
     path_ v = [coord 10 0] /\ path_index_ v = 1%nat /\
     state_ v = waiting).
Proof.
  split.
  - split; [apply reach_matcher, reach_new|].
    split; [left; reflexivity|].
    exists (Vehicle_SetState (AStarSearch direct newcomer)
              no_passenger_queued).
    eexists. exists fresh.
    split; [vm_compute; reflexivity|].
    split; [vm_compute; reflexivity|].
    split; [vm_compute; reflexivity|].
    split; reflexivity.
  - split; [vm_compute; reflexivity|].
    split; [vm_compute; reflexivity|].
    eexists. split; [vm_compute; reflexivity|]. repeat split.
Qed.

Lemma called_arrived_reachable :
  reachable (SF := D) direct (fun _ => True) called_arrived.
Proof.
  eapply reach_drive
    with (vm := or_fleet (Drive_times (SF := D) 3 direct called));
    [|vm_compute; reflexivity].
  eapply reach_drive
    with (vm := or_fleet (Drive_times (SF := D) 2 direct called));
    [|vm_compute; reflexivity].
  eapply reach_drive
    with (vm := or_fleet (Drive_times (SF := D) 1 direct called));
    [|vm_compute; reflexivity].
  eapply reach_drive with (vm := called); [|vm_compute; reflexivity].
  eapply reach_assign with (vm := fleet) (id := 0%Z)
    (position := coord 9 1);
    [apply reach_matcher, reach_new | reflexivity | exact I
    | vm_compute; reflexivity].
Qed.

(** On the fleet as constructed, whose vehicle is handed to
    [IncrementalMove] in its first iteration; and on the fleet whose
    vehicle waits at its pickup with its path index at the length of its
    path. *)
Lemma IncrementalMove_in_bounds_witness :
  ((forall (v : Vehicle float) (w : World) (u : Vehicle float),
      In v (vehicles_ fleet) ->
      IncrementalMove_argument direct two_nodes true v w = Some u ->
      path_ u <> [] /\
      (path_index_ u < length (path_ u))%nat /\
      exists v', IncrementalMove (SF := D) 3%float u = Ok v') /\
   Drive (SF := D) direct fleet <> Err OutOfRange) /\
  (Forall (routed (model_ called_arrived)) (vehicles_ called_arrived) /\
   Drive (SF := D) direct called_arrived <> Err OutOfRange).
Proof.
  split.
  - destruct (@IncrementalMove_in_bounds float D direct fleet
                direct_ends_at_goal) as (_ & Harg & _ & Hrun).
    + apply reachable_interleaved, reach_matcher, reach_new.
    + split; [exact Harg | exact Hrun].
  - destruct (@IncrementalMove_in_bounds float D direct called_arrived)
      as (Hall & _ & _ & Hrun).
    + assert (Hmodel : model_ called_arrived = two_nodes)
        by (vm_compute; reflexivity).
      rewrite Hmodel. exact direct_ends_at_goal.
    + apply reachable_interleaved, called_arrived_reachable.
    + split; [exact Hall | exact Hrun].
Defined.

(** ** What one iteration of the drive loop can do *)

Section Outcomes.

Variable F : Type.
Context {SF : Scalar F}.

Implicit Types (v u : Vehicle F) (w : World) (model : RouteModel F).

(** One more random position drawn. *)
Lemma Drive_route_cases (route_planner : RoutePlanner F) model v w
    (r : Vehicle F + Vehicle F) (w' : World) :
  Drive_route route_planner model v w = Ok (r, w') ->
  (path_ v <> [] /\ r = inr v /\ w' = w) \/
  (path_ v = [] /\ route_planner (position_ v) (destination_ v) <> [] /\
   r = inr (AStarSearch route_planner v) /\ w' = w) \/
  (path_ v = [] /\ route_planner (position_ v) (destination_ v) = [] /\
   r = inl (Vehicle_SetDestination v
              (snap model (RandomMapPosition model (draws w)))) /\
   w' = {| draws := S (draws w); calls := calls w |}).
Proof.
  unfold Drive_route, AStarSearch.
  destruct (path_ v) as [|a l] eqn:Hp.
  - cbn [Vehicle_SetPath path_].
    destruct (route_planner (position_ v) (destination_ v)) as [|b k]
      eqn:Hr.
    + unfold bindM. rewrite ResetVehicleDestination_random.
      intros E. injection E as <- <-. right. right.
      repeat split; auto.
    + intros E. injection E as <- <-. right. left.
      repeat split; auto. discriminate.
  - intros E. injection E as <- <-. left. repeat split. discriminate.
Qed.

Lemma Drive_route_total (route_planner : RoutePlanner F) model v w :
  exists r w', Drive_route route_planner model v w = Ok (r, w').
Proof.
  unfold Drive_route, AStarSearch.
  destruct (path_ v); [|do 2 eexists; reflexivity].
  cbn [Vehicle_SetPath path_].
  destruct (route_planner _ _); do 2 eexists; reflexivity.
Qed.

Lemma Drive_request_cases (ride_matcher : bool) v w u (w' : World) :
  Drive_request ride_matcher v w = Ok (u, w') ->
  (state_ v <> no_passenger_requested /\ u = v /\ w' = w) \/
  (state_ v = no_passenger_requested /\
   u = Vehicle_SetState v no_passenger_queued /\
   w' = if ride_matcher
        then {| draws := draws w;
                calls := calls w ++ [VehicleRequestsPassenger (id_ v)] |}
        else w).
Proof.
  unfold Drive_request.
  destruct (VehicleState_eqb (state_ v) no_passenger_requested) eqn:E.
  - apply VehicleState_eqb_eq in E.
    unfold RequestPassenger, bindM, tell, ret.
    destruct ride_matcher; intros R; injection R as <- <-; right; auto.
  - apply VehicleState_eqb_neq in E.
    intros R. injection R as <- <-. left. auto.
Qed.

Lemma Drive_request_total (ride_matcher : bool) v w :
  exists u w', Drive_request ride_matcher v w = Ok (u, w').
Proof.
  unfold Drive_request, RequestPassenger, bindM, tell, ret.
  destruct (VehicleState_eqb _ _), ride_matcher; do 2 eexists; reflexivity.
Qed.

Lemma Drive_arrival_world model (ride_matcher : bool) v w u (w' : World) :
  Drive_arrival model ride_matcher v w = Ok (u, w') ->
  (u = v /\ w' = w /\
   (Coordinate_eqb (position_ v) (destination_ v) = false \/
    state_ v = no_passenger_requested \/ state_ v = waiting)) \/
  Coordinate_eqb (position_ v) (destination_ v) = true /\
  ((state_ v = no_passenger_queued /\
    u = Vehicle_SetDestination v
          (snap model (RandomMapPosition model (draws w))) /\
    w' = {| draws := S (draws w); calls := calls w |}) \/
   (state_ v = passenger_queued /\ ride_matcher = true /\
    u = Vehicle_SetState v waiting /\
    w' = {| draws := draws w;
            calls := calls w ++ [VehicleHasArrived (id_ v)] |}) \/
   (state_ v = driving_passenger /\ passenger_ v <> None /\
    u = Vehicle_SetState
          (Vehicle_SetDestination (Vehicle_DropOffPassenger v)
             (snap model (RandomMapPosition model (draws w))))
          no_passenger_requested /\
    w' = {| draws := S (draws w); calls := calls w |})).
Proof.
  unfold Drive_arrival.
  destruct (Coordinate_eqb (position_ v) (destination_ v));
    [|intros E; injection E as <- <-; left; auto].
  destruct (state_ v) eqn:Hstate; simpl.
  - intros E; injection E as <- <-; left; auto.
  - rewrite ResetVehicleDestination_random.
    intros E; injection E as <- <-. right. split; auto.
  - unfold ArrivedAtPassenger, bindM, tell, lift, ret.
    destruct ride_matcher; [|discriminate].
    intros E; injection E as <- <-. right. split; auto.
    right. left. auto.
  - intros E; injection E as <- <-; left; auto.
  - unfold VehicleManager_DropOffPassenger, bindM, lift.
    destruct (passenger_ v) eqn:Hp; [|discriminate].
    rewrite ResetVehicleDestination_random. unfold ret.
    intros E; injection E as <- <-. right. split; auto.
    right. right. repeat split; auto. discriminate.
Qed.

Lemma Drive_arrival_Err model (ride_matcher : bool) v w (e : error) :
  Drive_arrival model ride_matcher v w = Err e <->
  e = NullDeref /\
  Coordinate_eqb (position_ v) (destination_ v) = true /\
  ((state_ v = passenger_queued /\ ride_matcher = false) \/
   (state_ v = driving_passenger /\ passenger_ v = None)).
Proof.
  unfold Drive_arrival.
  destruct (Coordinate_eqb (position_ v) (destination_ v));
    [|split; [discriminate | intros (_ & Hf & _); discriminate]].
  destruct (state_ v) eqn:Hstate; simpl.
  - split; [discriminate|].
    intros (_ & _ & [[Hs _] | [Hs _]]); discriminate.
  - rewrite ResetVehicleDestination_random.
    split; [discriminate|].
    intros (_ & _ & [[Hs _] | [Hs _]]); discriminate.
  - unfold ArrivedAtPassenger, bindM, tell, lift, ret.
    destruct ride_matcher.
    + split; [discriminate|].
      intros (_ & _ & [[_ Hm] | [Hs _]]); discriminate.
    + split; [intros E; injection E as <-; auto|].
      intros (-> & _). reflexivity.
  - split; [discriminate|].
    intros (_ & _ & [[Hs _] | [Hs _]]); discriminate.
  - unfold VehicleManager_DropOffPassenger, bindM, lift.
    destruct (passenger_ v) eqn:Hp.
    + rewrite ResetVehicleDestination_random.
      split; [discriminate|].
      intros (_ & _ & [[Hs _] | [_ Hn]]); discriminate.
    + split; [intros E; injection E as <-; auto|].
      intros (-> & _). reflexivity.
Qed.

End Outcomes.

Section Effects.

Variable F : Type.
Context {SF : Scalar F}.

Implicit Types (v u : Vehicle F) (w : World) (model : RouteModel F).

Lemma IncrementalMove_shape (distance_per_cycle : F) v u :
  IncrementalMove distance_per_cycle v = Ok u ->
  (path_index_ v < length (path_ v))%nat /\
  exists c : Coordinate F,
    u = Vehicle_SetPosition v c \/
    u = Vehicle_IncrementPathIndex (Vehicle_SetPosition v c).
Proof.
  unfold IncrementalMove. intros Hmove.
  apply bind_Ok_inv in Hmove. destruct Hmove as (next & Hat & Hmove).
  split.
  - apply at_Ok in Hat. apply nth_error_Some. congruence.
  - destruct (leb _ distance_per_cycle); injection Hmove as <-; eauto.
Qed.

Lemma IncrementalMove_Err (distance_per_cycle : F) v (e : error) :
  IncrementalMove distance_per_cycle v = Err e <->
  e = OutOfRange /\ (length (path_ v) <= path_index_ v)%nat.
Proof.
  unfold IncrementalMove, at_.
  destruct (nth_error (path_ v) (path_index_ v)) as [next|] eqn:Hnth; simpl.
  - assert (Hin : (path_index_ v < length (path_ v))%nat)
      by (apply nth_error_Some; congruence).
    destruct (leb _ distance_per_cycle);
      (split; [discriminate | intros [_ Hle]; lia]).
  - apply nth_error_None in Hnth.
    split; [intros E; injection E as <-; auto | intros [-> _]; reflexivity].
Qed.

(** Every way an iteration of the drive loop can return, with the vehicle
    and the world it returns. *)
Lemma Drive_vehicle_cases (route_planner : RoutePlanner F) model
    (distance_per_cycle : F) (ride_matcher : bool) v w v' (w' : World) :
  Drive_vehicle route_planner model distance_per_cycle ride_matcher v w =
    Ok (v', w') ->
  (path_ v = [] /\ route_planner (position_ v) (destination_ v) = [] /\
   v' = Vehicle_SetDestination v
          (snap model (RandomMapPosition model (draws w))) /\
   w' = {| draws := S (draws w); calls := calls w |}) \/
  exists v1 v2 w2,
    (v1 = v /\ path_ v <> [] \/
     v1 = AStarSearch route_planner v /\ path_ v = [] /\
     route_planner (position_ v) (destination_ v) <> []) /\
    (state_ v1 <> no_passenger_requested /\ v2 = v1 /\ w2 = w \/
     state_ v1 = no_passenger_requested /\
     v2 = Vehicle_SetState v1 no_passenger_queued /\
     w2 = if ride_matcher
          then {| draws := draws w;
                  calls := calls w ++ [VehicleRequestsPassenger (id_ v1)] |}
          else w) /\
    (state_ v2 = waiting /\ v' = v2 /\ w' = w2 \/
     state_ v2 <> waiting /\
     (path_index_ v2 < length (path_ v2))%nat /\
     exists (c : Coordinate F) v3,
       IncrementalMove distance_per_cycle v2 = Ok v3 /\
       (v3 = Vehicle_SetPosition v2 c \/
        v3 = Vehicle_IncrementPathIndex (Vehicle_SetPosition v2 c)) /\
       Drive_arrival model ride_matcher v3 w2 = Ok (v', w')).
Proof.
  unfold Drive_vehicle. intros Hrun.
  apply bindM_Ok_inv in Hrun. destruct Hrun as (r & w1 & Hroute & Hrun).
  apply Drive_route_cases in Hroute.
  destruct Hroute as [(Hp & -> & ->) | [(Hp & Hn & -> & ->) | Hun]].
  3: { destruct Hun as (Hp & Hn & -> & ->). injection Hrun as <- <-.
       left. auto. }
  all: right;
    apply bindM_Ok_inv in Hrun; destruct Hrun as (v2 & w2 & Hreq & Hrun);
    apply Drive_request_cases in Hreq;
    match type of Hreq with
    | context [state_ ?x <> _] => exists x, v2, w2
    end;
    (split; [auto|]); (split; [exact Hreq|]);
    destruct (VehicleState_eqb (state_ v2) waiting) eqn:Hw;
    [ apply VehicleState_eqb_eq in Hw; injection Hrun as <- <-; left; auto
    | apply VehicleState_eqb_neq in Hw; right; split; [exact Hw|];
      apply bindM_Ok_inv in Hrun; destruct Hrun as (v3 & w3 & Hmove & Hrun);
      unfold lift in Hmove;
      destruct (IncrementalMove distance_per_cycle v2) as [v3'|] eqn:Hm;
      [|discriminate];
      injection Hmove as <- <-;
      destruct (IncrementalMove_shape _ _ Hm) as (Hin & c & Hshape);
      split; [exact Hin|]; exists c, v3'; auto ].
Qed.

(** What an iteration that returns has done to the world. *)
Lemma Drive_vehicle_world (route_planner : RoutePlanner F) model
    (distance_per_cycle : F) (ride_matcher : bool) v w v' (w' : World) :
  Drive_vehicle route_planner model distance_per_cycle ride_matcher v w =
    Ok (v', w') ->
  id_ v' = id_ v /\
  (draws w <= draws w' <= S (draws w))%nat /\
  (calls w' = calls w \/
   (calls w' = calls w ++ [VehicleRequestsPassenger (id_ v)] /\
    ride_matcher = true /\ state_ v = no_passenger_requested /\
    state_ v' = no_passenger_queued) \/
   (calls w' = calls w ++ [VehicleHasArrived (id_ v)] /\
    ride_matcher = true /\ state_ v = passenger_queued /\
    state_ v' = waiting)).
Proof.
  intros Hrun. apply Drive_vehicle_cases in Hrun.
  destruct Hrun as [(_ & _ & -> & ->)
                   | (v1 & v2 & w2 & Hv1 & Hreq & Hrest)].
  { simpl. repeat split; auto. }
  assert (H1 : id_ v1 = id_ v /\ state_ v1 = state_ v)
    by (destruct Hv1 as [[-> _] | [-> _]]; auto).
  destruct H1 as [Hid1 Hs1]. rewrite Hid1, Hs1 in Hreq.
  destruct Hrest as [(Hw & -> & ->)
                    | (Hnw & _ & c & v3 & _ & Hshape & Harr)].
  - destruct Hreq as [(_ & -> & ->) | (Hs & -> & ->)].
    + repeat split; auto.
    + simpl in Hw. discriminate.
  - assert (H3 : id_ v3 = id_ v2 /\ state_ v3 = state_ v2)
      by (destruct Hshape as [-> | ->]; auto).
    destruct H3 as [Hid3 Hs3].
    apply Drive_arrival_world in Harr. rewrite Hid3, Hs3 in Harr.
    destruct Hreq as [(Hnr & -> & ->) | (Hs & -> & ->)].
    + rewrite Hid1, Hs1 in Harr.
      destruct Harr as [(-> & -> & _)
        | (_ & [(_ & -> & ->) | [(Hq & Hm & -> & ->) | (_ & _ & -> & ->)]])];
        simpl; rewrite ?Hid3, ?Hid1; repeat split; auto.
      right. right. repeat split; auto.
    + simpl in Harr. rewrite Hid1 in Harr.
      destruct Harr as [(-> & -> & _)
        | (_ & [(_ & -> & ->) | [(Hq & _) | (Hq & _)]])];
        try discriminate; simpl; rewrite ?Hid3; simpl; rewrite ?Hid1;
        rewrite ?Hs3; simpl;
        destruct ride_matcher; simpl; repeat split; auto;
        right; left; repeat split; auto.
Qed.

End Effects.

(** ** The fleet the constructor builds *)

Section Fleet.

Variable F : Type.
Context {SF : Scalar F}.

Lemma generated_fleet_S (model : RouteModel F) (draw : nat) (id : Z)
    (n : nat) :
  generated_fleet model draw id (S n) =
  generated model draw id ::
  generated_fleet model (S (S draw)) (id + 1) n.
Proof.
  unfold generated_fleet. cbn [seq map].
  rewrite Nat.mul_0_r, Nat.add_0_r, Z.add_0_r. f_equal.
  rewrite <- seq_shift, map_map. apply map_ext. intros k.
  replace (draw + 2 * S k)%nat with (S (S draw) + 2 * k)%nat by lia.
  replace (id + Z.of_nat (S k))%Z with (id + 1 + Z.of_nat k)%Z by lia.
  reflexivity.
Qed.

(** X1.  [GenerateNew], run [n] times, appends [n] vehicles to the fleet:
    the [k]-th of them has the id [idCnt_ + k], stands on the node closest
    to the random draw number [draws + 2k] and heads for the node closest to
    the next draw, carries nobody, has no path and is in state
    [no_passenger_requested]; the id counter advances by [n], the draws by
    [2n], and nothing else of the manager changes. *)
Theorem GenerateNew_times_fleet (n : nat) (vm : VehicleManager F) :
  GenerateNew_times n vm =
  {| model_ := model_ vm;
     vehicles_ :=
       vehicles_ vm ++
       generated_fleet (model_ vm) (draws (world_ vm)) (idCnt_ vm) n;
     idCnt_ := idCnt_ vm + Z.of_nat n;
     distance_per_cycle_ := distance_per_cycle_ vm;
     ride_matcher_ := ride_matcher_ vm;
     world_ := {| draws := draws (world_ vm) + 2 * n;
                  calls := calls (world_ vm) |} |}.
Proof.
  revert vm. induction n as [|n IH]; intros vm.
  - destruct vm as [m vs i d r [dr cs]]. simpl.
    unfold generated_fleet. simpl.
    rewrite app_nil_r, Z.add_0_r, Nat.add_0_r. reflexivity.
  - cbn [GenerateNew_times]. rewrite IH. rewrite generated_fleet_S.
    unfold GenerateNew. cbn [model_ vehicles_ idCnt_ distance_per_cycle_
      ride_matcher_ world_ draws calls].
    f_equal; try lia.
    + rewrite <- app_assoc. reflexivity.
    + f_equal. lia.
Qed.

End Fleet.

(** ** What a whole tick does *)

Section Tick.

Variable F : Type.
Context {SF : Scalar F}.

Implicit Types (v u : Vehicle F) (w : World) (model : RouteModel F).

Lemma Drive_vehicle_passenger (route_planner : RoutePlanner F) model
    (distance_per_cycle : F) (ride_matcher : bool) v w v' (w' : World) :
  Drive_vehicle route_planner model distance_per_cycle ride_matcher v w =
    Ok (v', w') ->
  same_passenger v v'.
Proof.
  assert (Hsame : forall a b : Vehicle F, passenger_ b = passenger_ a ->
            same_passenger a b).
  { intros a b Hab. unfold same_passenger. rewrite Hab.
    destruct (passenger_ a) as [p|]; [exists p|]; auto. }
  intros Hrun. apply Drive_vehicle_cases in Hrun.
  destruct Hrun as [(_ & _ & -> & _)
                   | (v1 & v2 & w2 & Hv1 & Hreq & Hrest)].
  { now apply Hsame. }
  assert (H1 : passenger_ v1 = passenger_ v /\ state_ v1 = state_ v)
    by (destruct Hv1 as [[-> _] | [-> _]]; auto).
  destruct H1 as [Hp1 Hs1].
  assert (H2 : passenger_ v2 = passenger_ v /\
               (state_ v2 = state_ v \/ state_ v2 = no_passenger_queued)).
  { destruct Hreq as [(_ & -> & _) | (_ & -> & _)]; simpl; auto. }
  destruct H2 as [Hp2 Hs2].
  destruct Hrest as [(_ & -> & _)
                    | (_ & _ & c & v3 & _ & Hshape & Harr)];
    [now apply Hsame|].
  assert (H3 : state_ v3 = state_ v2 /\
               passenger_ v3 =
               match passenger_ v with
               | Some p => Some (Passenger_SetPosition p c)
               | None => None
               end).
  { destruct Hshape as [-> | ->]; simpl; rewrite Hp2; auto. }
  destruct H3 as [Hs3 Hp3].
  assert (Hmoved : forall b : Vehicle F, passenger_ b = passenger_ v3 ->
            same_passenger v b).
  { intros b Hb. unfold same_passenger. rewrite Hb, Hp3.
    destruct (passenger_ v) as [p|]; [exists p|]; auto. }
  apply Drive_arrival_world in Harr.
  destruct Harr as [(-> & _)
    | (_ & [(_ & -> & _) | [(_ & _ & -> & _) | (Hd & _ & -> & _)]])];
    try (apply Hmoved; reflexivity).
  unfold same_passenger. simpl. right. split; [|reflexivity].
  rewrite Hs3 in Hd. destruct Hs2 as [Hs2 | Hs2]; congruence.
Qed.

Lemma Drive_vehicles_Forall2 (R : Vehicle F -> Vehicle F -> Prop)
    (route_planner : RoutePlanner F) model (distance_per_cycle : F)
    (ride_matcher : bool) :
  (forall v w v' w',
     Drive_vehicle route_planner model distance_per_cycle ride_matcher v w =
       Ok (v', w') -> R v v') ->
  forall (vs vs' : list (Vehicle F)) w w',
    Drive_vehicles route_planner model distance_per_cycle ride_matcher vs w =
      Ok (vs', w') ->
    Forall2 R vs vs'.
Proof.
  intros HR. induction vs as [|v rest IH]; intros vs' w w' Hrun.
  - injection Hrun as <- <-. constructor.
  - simpl in Hrun.
    apply bindM_Ok_inv in Hrun. destruct Hrun as (v' & w1 & Hv' & Hrun).
    apply bindM_Ok_inv in Hrun. destruct Hrun as (rest' & w2 & Hr' & Hrun).
    injection Hrun as <- <-.
    constructor; [eapply HR; exact Hv' | eapply IH; exact Hr'].
Qed.

Lemma Drive_vehicles_world (route_planner : RoutePlanner F) model
    (distance_per_cycle : F) (ride_matcher : bool)
    (vs vs' : list (Vehicle F)) w (w' : World) :
  Drive_vehicles route_planner model distance_per_cycle ride_matcher vs w =
    Ok (vs', w') ->
  map (fun v => id_ v) vs' = map (fun v => id_ v) vs /\
  (draws w <= draws w' <= draws w + length vs)%nat /\
  exists l : list MatcherCall,
    calls w' = calls w ++ l /\
    (length l <= length vs)%nat /\
    (ride_matcher = false -> l = []) /\
    Forall (fun c => exists v, In v vs /\ call_of v c) l.
Proof.
  revert vs' w w'. induction vs as [|v rest IH]; intros vs' w w' Hrun.
  - injection Hrun as <- <-. simpl. split; [reflexivity|].
    split; [lia|]. exists []. rewrite app_nil_r. auto.
  - simpl in Hrun.
    apply bindM_Ok_inv in Hrun. destruct Hrun as (v' & w1 & Hv' & Hrun).
    apply bindM_Ok_inv in Hrun. destruct Hrun as (rest' & w2 & Hr' & Hrun).
    injection Hrun as <- <-.
    apply Drive_vehicle_world in Hv'.
    destruct Hv' as (Hid & Hdraws & Hcalls).
    apply IH in Hr'.
    destruct Hr' as (Hids & Hdraws' & l & Hl & Hlen & Hoff & Hall).
    split; [simpl; now rewrite Hid, Hids|].
    split; [simpl; lia|].
    assert (Hweak : Forall (fun c => exists u, In u (v :: rest) /\
                                              call_of u c) l).
    { eapply Forall_impl; [|exact Hall].
      intros c (u & Hin & Hc). exists u. split; [now right | exact Hc]. }
    destruct Hcalls as [Hc | [(Hc & Hm & Hs & _) | (Hc & Hm & Hs & _)]].
    + exists l. rewrite Hl, Hc. simpl. repeat split; auto.
    + exists (VehicleRequestsPassenger (id_ v) :: l).
      rewrite Hl, Hc, <- app_assoc. simpl.
      repeat split; [lia | congruence |].
      constructor; [|exact Hweak].
      exists v. split; [now left | left; auto].
    + exists (VehicleHasArrived (id_ v) :: l).
      rewrite Hl, Hc, <- app_assoc. simpl.
      repeat split; [lia | congruence |].
      constructor; [|exact Hweak].
      exists v. split; [now left | right; auto].
Qed.

Lemma Drive_vehicle_effect (route_planner : RoutePlanner F) model
    (distance_per_cycle : F) (ride_matcher : bool) v w v' (w' : World) :
  Drive_vehicle route_planner model distance_per_cycle ride_matcher v w =
    Ok (v', w') ->
  exists e : list MatcherCall * nat,
    iteration_effect ride_matcher v e /\
    calls w' = calls w ++ fst e /\
    draws w' = (draws w + snd e)%nat.
Proof.
  intros Hrun. apply Drive_vehicle_world in Hrun.
  destruct Hrun as (_ & Hdraws & Hcalls).
  destruct Hcalls as [Hc | [(Hc & Hm & Hs & _) | (Hc & Hm & Hs & _)]].
  - exists ([], draws w' - draws w)%nat. unfold iteration_effect. simpl.
    rewrite app_nil_r. repeat split; auto; lia.
  - exists ([VehicleRequestsPassenger (id_ v)], draws w' - draws w)%nat.
    unfold iteration_effect, call_of. simpl.
    repeat split; [right; eexists; eauto | congruence | lia | exact Hc | lia].
  - exists ([VehicleHasArrived (id_ v)], draws w' - draws w)%nat.
    unfold iteration_effect, call_of. simpl.
    repeat split; [right; eexists; eauto | congruence | lia | exact Hc | lia].
Qed.

Lemma Drive_vehicles_effects (route_planner : RoutePlanner F) model
    (distance_per_cycle : F) (ride_matcher : bool)
    (vs vs' : list (Vehicle F)) w (w' : World) :
  Drive_vehicles route_planner model distance_per_cycle ride_matcher vs w =
    Ok (vs', w') ->
  exists es : list (list MatcherCall * nat),
    Forall2 (iteration_effect ride_matcher) vs es /\
    calls w' = calls w ++ concat (map fst es) /\
    draws w' = (draws w + list_sum (map snd es))%nat.
Proof.
  revert vs' w w'. induction vs as [|v rest IH]; intros vs' w w' Hrun.
  - injection Hrun as <- <-. exists []. simpl.
    rewrite app_nil_r. repeat split; [constructor | lia].
  - simpl in Hrun.
    apply bindM_Ok_inv in Hrun. destruct Hrun as (v' & w1 & Hv' & Hrun).
    apply bindM_Ok_inv in Hrun. destruct Hrun as (rest' & w2 & Hr' & Hrun).
    injection Hrun as <- <-.
    apply Drive_vehicle_effect in Hv'.
    destruct Hv' as (e & He & Hc1 & Hd1).
    apply IH in Hr'. destruct Hr' as (es & Hes & Hc2 & Hd2).
    exists (e :: es). simpl.
    split; [constructor; assumption|].
    split; [rewrite Hc2, Hc1, <- app_assoc; reflexivity | lia].
Qed.

(** X2.  A drive tick that returns has gone through the vehicles in their
    order and has, for each of them, made one call on the ride matcher or
    none, and drawn one random position or none: the calls it made are, in
    the order of the vehicles and appended to the calls made before, for
    each vehicle nothing, or a request with that vehicle's id if the vehicle
    was in [no_passenger_requested], or a notice of arrival with that
    vehicle's id if it was in [passenger_queued], and nothing for any
    vehicle when no matcher is attached.  The vehicles are as many as
    before, with the same ids in the same order. *)
Theorem Drive_calls (route_planner : RoutePlanner F)
    (vm vm' : VehicleManager F) :
  Drive route_planner vm = Ok vm' ->
  map (fun v => id_ v) (vehicles_ vm') = map (fun v => id_ v) (vehicles_ vm) /\
  exists es : list (list MatcherCall * nat),
    Forall2 (iteration_effect (ride_matcher_ vm)) (vehicles_ vm) es /\
    calls (world_ vm') = calls (world_ vm) ++ concat (map fst es) /\
    draws (world_ vm') = (draws (world_ vm) + list_sum (map snd es))%nat.
Proof.
  unfold Drive. intros Hrun.
  apply bind_Ok_inv in Hrun. destruct Hrun as ([vs' w'] & Hvs & Hrun).
  injection Hrun as <-. simpl. split.
  - apply Drive_vehicles_world in Hvs. apply Hvs.
  - eapply Drive_vehicles_effects. exact Hvs.
Qed.

(** X3.  A drive tick never puts a passenger into a vehicle and never
    exchanges one: after it every vehicle carries the passenger it carried
    before, with the same id, start and destination, or nobody; and it
    carries nobody after carrying somebody only by the drop-off, which
    takes it from [driving_passenger] to [no_passenger_requested]. *)
Theorem Drive_keeps_passengers (route_planner : RoutePlanner F)
    (vm vm' : VehicleManager F) :
  Drive route_planner vm = Ok vm' ->
  Forall2 (@same_passenger F) (vehicles_ vm) (vehicles_ vm').
Proof.
  unfold Drive. intros Hrun.
  apply bind_Ok_inv in Hrun. destruct Hrun as ([vs' w'] & Hvs & Hrun).
  injection Hrun as <-. simpl.
  eapply Drive_vehicles_Forall2; [|exact Hvs].
  intros v w v' w1. apply Drive_vehicle_passenger.
Qed.

End Tick.

(** ** How an iteration of the drive loop fails, and when it does not *)

Section Failures.

Variable F : Type.
Context {SF : Scalar F}.

Implicit Types (v u : Vehicle F) (w : World) (model : RouteModel F).

Lemma Drive_vehicle_Err_inv (route_planner : RoutePlanner F) model
    (distance_per_cycle : F) (ride_matcher : bool) v w (e : error) :
  Drive_vehicle route_planner model distance_per_cycle ride_matcher v w =
    Err e ->
  exists u,
    IncrementalMove_argument route_planner model ride_matcher v w = Some u /\
    ((e = OutOfRange /\ (length (path_ u) <= path_index_ u)%nat) \/
     (e = NullDeref /\
      exists u', IncrementalMove distance_per_cycle u = Ok u' /\
        Coordinate_eqb (position_ u') (destination_ u') = true /\
        ((state_ u' = passenger_queued /\ ride_matcher = false) \/
         (state_ u' = driving_passenger /\ passenger_ u' = None)))).
Proof.
  unfold Drive_vehicle, IncrementalMove_argument. unfold bindM at 1.
  destruct (Drive_route_total route_planner model v w) as (r & w1 & ->).
  destruct r as [v0|v1]; [discriminate|].
  unfold bindM at 1.
  destruct (Drive_request_total ride_matcher v1 w1) as (v2 & w2 & ->).
  destruct (VehicleState_eqb (state_ v2) waiting); [discriminate|].
  unfold bindM, lift.
  destruct (IncrementalMove distance_per_cycle v2) as [v3|e0] eqn:Hmove.
  - intros Harr. apply Drive_arrival_Err in Harr.
    destruct Harr as (-> & Hat & Hwhy).
    exists v2. split; [reflexivity|]. right. split; [reflexivity|].
    exists v3. auto.
  - intros E. injection E as <-.
    apply IncrementalMove_Err in Hmove. destruct Hmove as [-> Hle].
    exists v2. split; [reflexivity|]. left. auto.
Qed.

(** X4.  An iteration of the drive loop fails in three ways only, all of
    them at or after the call of [IncrementalMove]: [path.at(path_index)]
    throws because the index is not below the length of the path; or the
    moved vehicle is on its destination in state [passenger_queued] and
    there is no ride matcher to notify; or it is there in state
    [driving_passenger] with no passenger to drop off. *)
Theorem Drive_vehicle_fails_iff (route_planner : RoutePlanner F) model
    (distance_per_cycle : F) (ride_matcher : bool) v w (e : error) :
  Drive_vehicle route_planner model distance_per_cycle ride_matcher v w =
    Err e <->
  exists u,
    IncrementalMove_argument route_planner model ride_matcher v w = Some u /\
    ((e = OutOfRange /\ (length (path_ u) <= path_index_ u)%nat) \/
     (e = NullDeref /\
      exists u', IncrementalMove distance_per_cycle u = Ok u' /\
        Coordinate_eqb (position_ u') (destination_ u') = true /\
        ((state_ u' = passenger_queued /\ ride_matcher = false) \/
         (state_ u' = driving_passenger /\ passenger_ u' = None)))).
Proof.
  split; [apply Drive_vehicle_Err_inv|].
  intros (u & Harg & Hwhy).
  destruct (IncrementalMove_argument_moved route_planner model
              distance_per_cycle ride_matcher v w Harg) as (w1 & ->).
  unfold bindM, lift.
  destruct Hwhy as [(-> & Hle) | (-> & u' & Hmove & Hat & Hwhy)].
  - assert (Hmove : IncrementalMove distance_per_cycle u = Err OutOfRange)
      by (apply IncrementalMove_Err; auto).
    now rewrite Hmove.
  - rewrite Hmove. apply Drive_arrival_Err. auto.
Qed.

(** X5.  A vehicle in state [waiting] is not moved by an iteration of the
    drive loop, which always returns for it: its position, its state and
    its passenger stay, and no call is made on the ride matcher. *)
Theorem Drive_vehicle_waiting (route_planner : RoutePlanner F) model
    (distance_per_cycle : F) (ride_matcher : bool) v w :
  state_ v = waiting ->
  exists v' w',
    Drive_vehicle route_planner model distance_per_cycle ride_matcher v w =
      Ok (v', w') /\
    position_ v' = position_ v /\ state_ v' = waiting /\
    passenger_ v' = passenger_ v /\ id_ v' = id_ v /\
    calls w' = calls w.
Proof.
  intros Hw. unfold Drive_vehicle, Drive_route, AStarSearch, bindM.
  destruct (path_ v) as [|a l].
  - cbn [Vehicle_SetPath path_].
    destruct (route_planner (position_ v) (destination_ v)) as [|b k].
    + rewrite ResetVehicleDestination_random.
      do 2 eexists. split; [reflexivity|]. simpl. auto.
    + unfold ret, Drive_request. simpl. repeat (rewrite Hw; simpl).
      do 2 eexists. split; [reflexivity|]. simpl. auto.
  - unfold ret, Drive_request. repeat (rewrite Hw; simpl).
    do 2 eexists. split; [reflexivity|]. auto.
Qed.

End Failures.

(** ** The callbacks of the ride matcher, out of range and repeated *)

Section Callbacks.

Variable F : Type.
Context {SF : Scalar F}.

Implicit Types (v u : Vehicle F) (w : World) (vm : VehicleManager F).

Lemma vehicle_at_Err vm (id : Z) (e : error) :
  vehicle_at vm id = Err e <->
  e = OutOfRange /\
  (id < 0 \/ Z.of_nat (length (vehicles_ vm)) <= id)%Z.
Proof.
  unfold vehicle_at, at_. destruct (id <? 0)%Z eqn:Hneg.
  - apply Z.ltb_lt in Hneg.
    split; [intros E; injection E as <-; auto | intros [-> _]; reflexivity].
  - apply Z.ltb_ge in Hneg.
    destruct (nth_error (vehicles_ vm) (Z.to_nat id)) eqn:Hnth.
    + assert (Hin : (Z.to_nat id < length (vehicles_ vm))%nat)
        by (apply nth_error_Some; congruence).
      split; [discriminate | intros [_ [Hlt | Hge]]; lia].
    + apply nth_error_None in Hnth.
      split; [intros E; injection E as <-; split; [reflexivity | lia]
             | intros [-> _]; reflexivity].
Qed.

Lemma in_manager_Err vm (id : Z) (f : Vehicle F -> M (Vehicle F))
    (e : error) :
  in_manager vm id f = Err e <->
  vehicle_at vm id = Err e \/
  exists v, vehicle_at vm id = Ok v /\ f v (world_ vm) = Err e.
Proof.
  unfold in_manager.
  destruct (vehicle_at vm id) as [v|e0]; simpl.
  - destruct (f v (world_ vm)) as [r|e1] eqn:Hf; simpl.
    + split; [discriminate|].
      intros [E | (u & E & Hu)]; [discriminate|].
      injection E as <-. congruence.
    + split.
      * intros E. injection E as <-. right. eauto.
      * intros [E | (u & E & Hu)]; [discriminate|].
        injection E as <-. congruence.
  - split; [intros E; left; congruence|].
    intros [E | (u & E & _)]; [congruence | discriminate].
Qed.

(** X6.  [AssignPassenger] fails only by [vehicles_.at(id)] throwing, and
    it throws exactly when the id is negative or not below the number of
    vehicles; for every other id the call returns. *)
Theorem AssignPassenger_fails_iff vm (id : Z) (position : Coordinate F)
    (e : error) :
  AssignPassenger vm id position = Err e <->
  e = OutOfRange /\
  (id < 0 \/ Z.of_nat (length (vehicles_ vm)) <= id)%Z.
Proof.
  unfold AssignPassenger. rewrite in_manager_Err, vehicle_at_Err.
  split; [|auto].
  intros [Hout | (v & _ & Hf)]; [exact Hout|].
  unfold AssignPassenger_vehicle, bindM in Hf.
  rewrite ResetVehicleDestination_aligned in Hf. discriminate.
Qed.

(** X7.  [PassengerIntoVehicle] looks the vehicle up before it touches the
    passenger: it throws [out_of_range] exactly when the id is negative or
    not below the number of vehicles, whatever the passenger pointer is,
    and it dereferences a null pointer exactly when the id is a vehicle's
    and the passenger pointer is empty; otherwise it returns. *)
Theorem PassengerIntoVehicle_fails_iff vm (id : Z)
    (passenger : option (Passenger F)) (e : error) :
  PassengerIntoVehicle vm id passenger = Err e <->
  (e = OutOfRange /\
   (id < 0 \/ Z.of_nat (length (vehicles_ vm)) <= id)%Z) \/
  (e = NullDeref /\
   (0 <= id < Z.of_nat (length (vehicles_ vm)))%Z /\ passenger = None).
Proof.
  unfold PassengerIntoVehicle. rewrite in_manager_Err, vehicle_at_Err.
  split.
  - intros [Hout | (v & Hat & Hf)]; [now left|]. right.
    apply vehicle_at_nth in Hat. destruct Hat as [Hid Hnth].
    assert (Hin : (Z.to_nat id < length (vehicles_ vm))%nat)
      by (apply nth_error_Some; congruence).
    unfold PassengerIntoVehicle_vehicle, bindM, lift in Hf.
    destruct passenger as [p|]; simpl in Hf; [discriminate|].
    injection Hf as <-. repeat split; lia.
  - intros [Hout | (-> & Hid & ->)]; [now left|]. right.
    destruct (nth_error (vehicles_ vm) (Z.to_nat id)) as [v|] eqn:Hnth.
    + exists v. split; [|reflexivity].
      unfold vehicle_at, at_.
      replace (id <? 0)%Z with false by (symmetry; apply Z.ltb_ge; lia).
      now rewrite Hnth.
    + apply nth_error_None in Hnth. lia.
Qed.

Lemma replace_at_twice (vs : list (Vehicle F)) (i : nat) (a b : Vehicle F) :
  replace_at (replace_at vs i a) i b = replace_at vs i b.
Proof.
  revert i. induction vs as [|u rest IH]; intros [|i]; simpl;
    try reflexivity.
  now rewrite IH.
Qed.

(** X8.  Of two [AssignPassenger] calls in a row on the same vehicle the
    last one wins: the manager is as if only the second had been made. *)
Theorem AssignPassenger_last_wins vm vm1 (id : Z)
    (first second : Coordinate F) :
  AssignPassenger vm id first = Ok vm1 ->
  AssignPassenger vm1 id second = AssignPassenger vm id second.
Proof.
  unfold AssignPassenger, in_manager. intros Hrun.
  apply bind_Ok_inv in Hrun. destruct Hrun as (v & Hat & Hrun).
  rewrite Hat. simpl in *. injection Hrun as <-.
  apply vehicle_at_nth in Hat. destruct Hat as [Hid Hnth].
  unfold vehicle_at. cbn [vehicles_ with_vehicles].
  replace (id <? 0)%Z with false by (symmetry; apply Z.ltb_ge; lia).
  unfold at_. rewrite nth_error_replace_at, Nat.eqb_refl, Hnth.
  simpl. unfold with_vehicles. simpl. rewrite replace_at_twice.
  reflexivity.
Qed.

End Callbacks.

(** ** What holds of every vehicle the manager ever has *)

Section Standing.

Variable F : Type.
Context {SF : Scalar F}.

Variable route_planner : RoutePlanner F.
Variable assignable : Vehicle F -> Prop.

Implicit Types (v u : Vehicle F) (w : World) (vm : VehicleManager F).


Lemma GenerateNew_times_numbered (n : nat) vm :
  numbered vm -> numbered (GenerateNew_times n vm).
Proof.
  revert vm. induction n as [|n IH]; intros vm Hvm; [exact Hvm|].
  cbn [GenerateNew_times]. apply IH.
  destruct Hvm as [Hids Hcnt]. unfold numbered, GenerateNew.
  cbn [vehicles_ idCnt_].
  rewrite length_app, map_app, Hids, Hcnt. cbn [length map id_ Vehicle_SetId].
  rewrite Nat.add_1_r, seq_S, map_app. split; [reflexivity | lia].
Qed.

Lemma replace_at_ids (vs : list (Vehicle F)) (i : nat) v u :
  nth_error vs i = Some v -> id_ u = id_ v ->
  map (fun a => id_ a) (replace_at vs i u) = map (fun a => id_ a) vs /\
  length (replace_at vs i u) = length vs.
Proof.
  revert i. induction vs as [|a rest IH]; intros [|i] Hnth Hid;
    simpl in *; try discriminate.
  - injection Hnth as ->. now rewrite Hid.
  - destruct (IH i Hnth Hid) as [-> ->]. auto.
Qed.

Lemma in_manager_numbered vm vm' (id : Z) (f : Vehicle F -> M (Vehicle F)) :
  (forall v w v' w', f v w = Ok (v', w') -> id_ v' = id_ v) ->
  numbered vm ->
  in_manager vm id f = Ok vm' ->
  numbered vm'.
Proof.
  intros Hf [Hids Hcnt] Hrun. unfold in_manager in Hrun.
  apply bind_Ok_inv in Hrun. destruct Hrun as (v & Hat & Hrun).
  apply bind_Ok_inv in Hrun. destruct Hrun as ([v' w'] & Hstep & Hrun).
  injection Hrun as <-. apply Hf in Hstep.
  apply vehicle_at_nth in Hat. destruct Hat as [_ Hnth].
  destruct (@replace_at_ids (vehicles_ vm) (Z.to_nat id) v v' Hnth Hstep)
    as [Hmap Hlen].
  unfold numbered. cbn [vehicles_ idCnt_ with_vehicles].
  rewrite Hmap, Hlen. auto.
Qed.

Lemma reachable_numbered vm :
  reachable route_planner assignable vm -> numbered vm.
Proof.
  intros Hreach. induction Hreach as
    [n m | vm Hreach IH | vm vm' Hreach IH Hrun
     | vm vm' id position v Hreach IH Hat Hok Hrun
     | vm vm' id passenger Hreach IH Hrun].
  - apply GenerateNew_times_numbered. split; reflexivity.
  - exact IH.
  - unfold Drive in Hrun.
    apply bind_Ok_inv in Hrun. destruct Hrun as ([vs' w'] & Hvs & Hrun).
    injection Hrun as <-.
    apply Drive_vehicles_world in Hvs. destruct Hvs as (Hmap & _).
    destruct IH as [Hids Hcnt].
    unfold numbered. cbn [vehicles_ idCnt_ with_vehicles].
    assert (Hlen : length vs' = length (vehicles_ vm)).
    { rewrite <- (length_map (fun v => id_ v) vs'), Hmap.
      apply length_map. }
    rewrite Hmap, Hlen. auto.
  - eapply in_manager_numbered; [| exact IH | exact Hrun].
    intros u w u' w' Hstep.
    unfold AssignPassenger_vehicle, bindM in Hstep.
    rewrite ResetVehicleDestination_aligned in Hstep.
    injection Hstep as <- _. reflexivity.
  - eapply in_manager_numbered; [| exact IH | exact Hrun].
    intros u w u' w' Hstep.
    unfold PassengerIntoVehicle_vehicle, bindM, lift in Hstep.
    destruct passenger as [p|]; simpl in Hstep; [|discriminate].
    injection Hstep as <- _. reflexivity.
Qed.

(** X9.  In every state the manager reaches, the vehicle at index [i] of
    the fleet has the id [i], so that [vehicles_.at(id)] on the id of a
    vehicle returns that vehicle; and the id counter is the number of
    vehicles. *)
Theorem vehicle_at_own_id vm (i : nat) v :
  reachable route_planner assignable vm ->
  nth_error (vehicles_ vm) i = Some v ->
  id_ v = Z.of_nat i /\ vehicle_at vm (id_ v) = Ok v /\
  idCnt_ vm = Z.of_nat (length (vehicles_ vm)).
Proof.
  intros Hreach Hnth.
  destruct (reachable_numbered Hreach) as [Hids Hcnt].
  assert (Hin : (i < length (vehicles_ vm))%nat)
    by (apply nth_error_Some; congruence).
  assert (Hid : id_ v = Z.of_nat i).
  { pose proof (map_nth_error (fun a => id_ a) i (vehicles_ vm) Hnth) as Hm.
    rewrite Hids in Hm.
    rewrite (map_nth_error Z.of_nat i (seq 0 (length (vehicles_ vm)))
               (d := i)) in Hm.
    - congruence.
    - rewrite nth_error_nth' with (d := 0%nat) by now rewrite length_seq.
      now rewrite seq_nth. }
  split; [exact Hid|]. split; [|exact Hcnt].
  unfold vehicle_at, at_. rewrite Hid.
  replace (Z.of_nat i <? 0)%Z with false by (symmetry; apply Z.ltb_ge; lia).
  now rewrite Nat2Z.id, Hnth.
Qed.

End Standing.

Section Course.

Variable F : Type.
Context {SF : Scalar F}.

Variable route_planner : RoutePlanner F.

Implicit Types (v u : Vehicle F) (w : World) (vm : VehicleManager F)
  (model : RouteModel F).




End Course.

(** ** The drive loop keeps running *)

Section Running.

Variable F : Type.
Context {SF : Scalar F}.

Variable route_planner : RoutePlanner F.

Implicit Types (v u : Vehicle F) (w : World) (vm : VehicleManager F)
  (model : RouteModel F).

Lemma carrying_argument model (ride_matcher : bool) v w u :
  carrying_iff_driving v = true ->
  IncrementalMove_argument route_planner model ride_matcher v w = Some u ->
  carrying_iff_driving u = true.
Proof.
  intros Hinv. unfold IncrementalMove_argument.
  destruct (Drive_route route_planner model v w) as [[[v0|v1] w1]|e]
    eqn:Hroute; try discriminate.
  destruct (Drive_request ride_matcher v1 w1) as [[v2 w2]|e] eqn:Hreq;
    try discriminate.
  destruct (VehicleState_eqb (state_ v2) waiting); [discriminate|].
  intros E. injection E as <-.
  apply Drive_route_frame in Hroute. simpl in Hroute.
  destruct Hroute as (Hp1 & Hs1 & _).
  apply Drive_request_frame in Hreq.
  destruct Hreq as (Hp2 & _ & _ & _ & _ & _ & Hs2).
  unfold carrying_iff_driving, carrying in *. rewrite Hp2, Hp1.
  destruct Hs2 as [-> | [Hreq ->]].
  - now rewrite Hs1.
  - rewrite Hs1 in Hreq. rewrite Hreq in Hinv. exact Hinv.
Qed.

Lemma Drive_vehicle_returns model (distance_per_cycle : F) v w :
  planner_ends_at_goal model route_planner ->
  routed model v -> carrying_iff_driving v = true ->
  exists r,
    Drive_vehicle route_planner model distance_per_cycle true v w = Ok r.
Proof.
  intros Hplanner Hrouted Hinv.
  destruct (Drive_vehicle route_planner model distance_per_cycle true v w)
    as [r|e] eqn:Hrun; [eauto|]. exfalso.
  apply Drive_vehicle_Err_inv in Hrun.
  destruct Hrun as (u & Harg & Hwhy).
  destruct (@routed_argument F SF route_planner model Hplanner
              distance_per_cycle true v w u Hrouted Harg)
    as (_ & Hin & _).
  destruct Hwhy as [(_ & Hle) | (_ & u' & Hmove & _ & Hwhy)]; [lia|].
  destruct Hwhy as [[_ Hm] | [Hs Hp]]; [discriminate|].
  pose proof (carrying_argument _ _ _ _ Hinv Harg) as Hu.
  apply IncrementalMove_frame in Hmove.
  destruct Hmove as (Hs' & Hc' & _).
  unfold carrying_iff_driving in Hu. rewrite <- Hc', <- Hs' in Hu.
  unfold carrying in Hu. rewrite Hp, Hs in Hu. discriminate.
Qed.

Lemma Drive_vehicles_returns model (distance_per_cycle : F)
    (vs : list (Vehicle F)) w :
  planner_ends_at_goal model route_planner ->
  Forall (routed model) vs ->
  Forall (fun v => carrying_iff_driving v = true) vs ->
  exists r,
    Drive_vehicles route_planner model distance_per_cycle true vs w = Ok r.
Proof.
  intros Hplanner Hrouted. revert w.
  induction Hrouted as [|v rest Hv Hrest IH]; intros w Hinv.
  - simpl. unfold ret. eauto.
  - inversion Hinv as [|? ? Hiv Hirest]; subst. simpl. unfold bindM at 1.
    destruct (Drive_vehicle_returns distance_per_cycle w Hplanner Hv Hiv)
      as ([v' w1] & ->).
    unfold bindM at 1.
    destruct (IH w1 Hirest) as ([rest' w2] & ->).
    unfold ret. eauto.
Qed.

Lemma carrying_interleaved vm :
  interleaved route_planner (fun v => passenger_ v = None) vm ->
  Forall (fun v => carrying_iff_driving v = true) (vehicles_ vm).
Proof.
  intros Hinter.
  eapply interleaved_Forall with (model := model_ vm);
    [| | | | exact Hinter | reflexivity].
  - reflexivity.
  - intros dpc rm v w v' w'. apply Drive_vehicle_carrying.
  - intros position v w v' w' _ Hnone Hstep.
    unfold AssignPassenger_vehicle, bindM in Hstep.
    simpl in Hstep. injection Hstep as <- <-.
    unfold carrying_iff_driving, carrying. simpl. now rewrite Hnone.
  - intros passenger v w v' w' _ Hstep.
    unfold PassengerIntoVehicle_vehicle, bindM, lift in Hstep.
    destruct passenger as [p|]; simpl in Hstep; [|discriminate].
    injection Hstep as <- <-. reflexivity.
Qed.

(** X11.  With a planner whose routes end on the node of the destination
    and a ride matcher attached, and as long as the callbacks of the
    matcher come between iterations of the drive loop and not inside one
    (the source has no lock that makes them) and [AssignPassenger] is only
    called on vehicles that carry nobody: every iteration of the loop
    returns, without throwing and without dereferencing a null pointer,
    and so do any number of ticks in a row. *)
Theorem Drive_times_returns (n : nat) vm :
  planner_ends_at_goal (model_ vm) route_planner ->
  interleaved route_planner (fun v => passenger_ v = None) vm ->
  ride_matcher_ vm = true ->
  (forall v w,
     In v (vehicles_ vm) ->
     exists r,
       Drive_vehicle route_planner (model_ vm) (distance_per_cycle_ vm)
         true v w = Ok r) /\
  exists vm', Drive_times n route_planner vm = Ok vm'.
Proof.
  intros Hplanner Hinter Hm. split.
  - intros v w Hin.
    pose proof (@routed_interleaved F SF route_planner (model_ vm) Hplanner
                  _ vm Hinter eq_refl) as Hrouted.
    pose proof (carrying_interleaved Hinter) as Hcarrying.
    rewrite Forall_forall in Hrouted, Hcarrying.
    apply Drive_vehicle_returns;
      [exact Hplanner | apply Hrouted, Hin | apply Hcarrying, Hin].
  - revert vm Hplanner Hinter Hm.
    induction n as [|n IH]; intros vm Hplanner Hinter Hm.
    + simpl. eauto.
    + simpl.
      destruct (@Drive_vehicles_returns (model_ vm) (distance_per_cycle_ vm)
                  (vehicles_ vm) (world_ vm) Hplanner
                  (@routed_interleaved F SF route_planner (model_ vm)
                     Hplanner _ vm Hinter eq_refl)
                  (carrying_interleaved Hinter)) as ([vs' w'] & Hvs).
      assert (Hrun : Drive route_planner vm =
                     Ok (with_vehicles vm vs' w')).
      { unfold Drive. rewrite Hm in *. now rewrite Hvs. }
      rewrite Hrun. simpl. apply IH.
      * exact Hplanner.
      * eapply Drive_interleaved; [exact Hinter | exact Hrun].
      * exact Hm.
Qed.

End Running.

(** ** A fleet without routes, and the first tick of a fleet with routes *)

Section Stuck.

Variable F : Type.
Context {SF : Scalar F}.

Variable route_planner : RoutePlanner F.

Implicit Types (v u : Vehicle F) (w : World) (vm : VehicleManager F)
  (model : RouteModel F).

Lemma Drive_vehicle_stuck model (distance_per_cycle : F)
    (ride_matcher : bool) v w :
  path_ v = [] ->
  route_planner (position_ v) (destination_ v) = [] ->
  Drive_vehicle route_planner model distance_per_cycle ride_matcher v w =
  Ok (Vehicle_SetDestination v
        (snap model (RandomMapPosition model (draws w))),
      {| draws := S (draws w); calls := calls w |}).
Proof.
  intros Hpath Hnone.
  unfold Drive_vehicle, Drive_route, bindM. rewrite Hpath.
  unfold AStarSearch. simpl. rewrite Hnone. reflexivity.
Qed.

Lemma Drive_vehicles_stuck model (distance_per_cycle : F)
    (ride_matcher : bool) (vs : list (Vehicle F)) w :
  (forall s g, route_planner s g = []) ->
  Forall (fun v => path_ v = []) vs ->
  exists vs',
    Drive_vehicles route_planner model distance_per_cycle ride_matcher vs w =
      Ok (vs', {| draws := draws w + length vs; calls := calls w |}) /\
    Forall (fun v => path_ v = []) vs' /\
    map (fun v => position_ v) vs' = map (fun v => position_ v) vs /\
    map (fun v => state_ v) vs' = map (fun v => state_ v) vs /\
    map (fun v => passenger_ v) vs' = map (fun v => passenger_ v) vs.
Proof.
  intros Hnone Hall. revert w.
  induction Hall as [|v rest Hv Hrest IH]; intros w.
  - exists []. simpl. unfold ret. rewrite Nat.add_0_r.
    destruct w. simpl. auto.
  - simpl. unfold bindM at 1.
    rewrite (Drive_vehicle_stuck model distance_per_cycle ride_matcher v w
               Hv (Hnone _ _)).
    unfold bindM at 1.
    destruct (IH {| draws := S (draws w); calls := calls w |})
      as (rest' & -> & Hpaths & Hpos & Hst & Hpass).
    eexists. split.
    + unfold ret. simpl. do 3 f_equal. lia.
    + simpl. rewrite Hpos, Hst, Hpass. repeat split; auto.
Qed.

(** X12.  On a map where the planner finds no route, vehicles without a
    path stay where they are for any number of ticks: the drive loop
    returns, no vehicle changes position, state or passenger, no call is
    made on the ride matcher (not even a request for a passenger), and
    each tick draws one random position per vehicle. *)
Theorem Drive_times_stuck (n : nat) vm :
  (forall s g, route_planner s g = []) ->
  Forall (fun v => path_ v = []) (vehicles_ vm) ->
  exists vm',
    Drive_times n route_planner vm = Ok vm' /\
    map (fun v => position_ v) (vehicles_ vm') =
      map (fun v => position_ v) (vehicles_ vm) /\
    map (fun v => state_ v) (vehicles_ vm') =
      map (fun v => state_ v) (vehicles_ vm) /\
    map (fun v => passenger_ v) (vehicles_ vm') =
      map (fun v => passenger_ v) (vehicles_ vm) /\
    calls (world_ vm') = calls (world_ vm) /\
    draws (world_ vm') = (draws (world_ vm) + n * length (vehicles_ vm))%nat.
Proof.
  intros Hnone. revert vm. induction n as [|n IH]; intros vm Hall.
  - exists vm. simpl. repeat split; auto.
  - simpl. unfold Drive.
    destruct (Drive_vehicles_stuck (model_ vm) (distance_per_cycle_ vm)
                (ride_matcher_ vm) (world_ vm) Hnone Hall)
      as (vs' & -> & Hpaths & Hpos & Hst & Hpass).
    simpl.
    destruct (IH (with_vehicles vm vs'
                    {| draws := draws (world_ vm) + length (vehicles_ vm);
                       calls := calls (world_ vm) |}) Hpaths)
      as (vm' & -> & Hpos' & Hst' & Hpass' & Hcalls & Hdraws).
    exists vm'. simpl in *.
    assert (Hlen : length vs' = length (vehicles_ vm)).
    { rewrite <- (length_map (fun v => state_ v) vs'), Hst.
      apply length_map. }
    split; [reflexivity|].
    rewrite Hpos', Hst', Hpass', Hcalls, Hdraws, Hlen.
    repeat split; auto. lia.
Qed.

Lemma Drive_vehicle_first model (distance_per_cycle : F) v w :
  state_ v = no_passenger_requested -> path_ v = [] ->
  exists v' w',
    Drive_vehicle route_planner model distance_per_cycle true v w =
      Ok (v', w') /\
    calls w' =
      calls w ++
      (if routable route_planner v
       then [VehicleRequestsPassenger (id_ v)] else []) /\
    state_ v' =
      (if routable route_planner v then no_passenger_queued
       else no_passenger_requested).
Proof.
  intros Hs Hp. unfold routable.
  destruct (route_planner (position_ v) (destination_ v)) as [|b k] eqn:Hr.
  - rewrite (Drive_vehicle_stuck model distance_per_cycle true v w Hp Hr).
    do 2 eexists. split; [reflexivity|]. simpl. rewrite app_nil_r. auto.
  - unfold Drive_vehicle, Drive_route, AStarSearch, bindM.
    rewrite Hp. cbn [Vehicle_SetPath path_]. rewrite Hr.
    unfold ret, Drive_request. cbn [state_ Vehicle_SetPath]. rewrite Hs.
    cbn [VehicleState_eqb]. unfold RequestPassenger, bindM, tell, ret.
    cbn [Vehicle_SetState state_ VehicleState_eqb id_ Vehicle_SetPath].
    set (u := Vehicle_SetState (Vehicle_SetPath v (b :: k))
                no_passenger_queued).
    destruct (IncrementalMove_cases distance_per_cycle u (next := b)
                eq_refl) as (u' & Hmove & _ & _ & Hsu & _).
    unfold lift. rewrite Hmove.
    unfold Drive_arrival. rewrite Hsu. cbn [state_ u Vehicle_SetState
      VehicleState_eqb].
    destruct (Coordinate_eqb (position_ u') (destination_ u')).
    + rewrite ResetVehicleDestination_random.
      do 2 eexists. split; [reflexivity|]. simpl. auto.
    + do 2 eexists. split; [reflexivity|]. simpl. auto.
Qed.

Lemma Drive_vehicles_first model (distance_per_cycle : F)
    (vs : list (Vehicle F)) w :
  Forall (fun v => state_ v = no_passenger_requested /\ path_ v = []) vs ->
  exists vs' w',
    Drive_vehicles route_planner model distance_per_cycle true vs w =
      Ok (vs', w') /\
    calls w' =
      calls w ++
      map (fun v => VehicleRequestsPassenger (id_ v))
          (filter (routable route_planner) vs) /\
    Forall2 (fun v v' =>
               state_ v' =
               if routable route_planner v then no_passenger_queued
               else no_passenger_requested)
            vs vs'.
Proof.
  intros Hall. revert w.
  induction Hall as [|v rest [Hs Hp] Hrest IH]; intros w.
  - exists [], w. simpl. rewrite app_nil_r. repeat split. constructor.
  - simpl. unfold bindM at 1.
    destruct (Drive_vehicle_first model distance_per_cycle v w Hs Hp)
      as (v' & w1 & -> & Hcalls & Hstate).
    unfold bindM at 1.
    destruct (IH w1) as (rest' & w2 & -> & Hcalls' & Hstates).
    exists (v' :: rest'), w2. split; [reflexivity|].
    split; [|constructor; assumption].
    rewrite Hcalls', Hcalls, <- app_assoc.
    destruct (routable route_planner v); reflexivity.
Qed.

(** X13.  The first tick of a fleet as the constructor leaves it (every
    vehicle in [no_passenger_requested] without a path), with a ride
    matcher attached, returns; it requests a passenger for exactly the
    vehicles the planner finds a route for, in the order of the fleet, and
    leaves those in [no_passenger_queued]; the others stay in
    [no_passenger_requested]. *)
Theorem first_tick_requests vm :
  ride_matcher_ vm = true ->
  Forall (fun v => state_ v = no_passenger_requested /\ path_ v = [])
         (vehicles_ vm) ->
  exists vm',
    Drive route_planner vm = Ok vm' /\
    calls (world_ vm') =
      calls (world_ vm) ++
      map (fun v => VehicleRequestsPassenger (id_ v))
          (filter (routable route_planner) (vehicles_ vm)) /\
    Forall2 (fun v v' =>
               state_ v' =
               if routable route_planner v then no_passenger_queued
               else no_passenger_requested)
            (vehicles_ vm) (vehicles_ vm').
Proof.
  intros Hm Hall. unfold Drive. rewrite Hm.
  destruct (Drive_vehicles_first (model_ vm) (distance_per_cycle_ vm)
              (world_ vm) Hall) as (vs' & w' & -> & Hcalls & Hstates).
  simpl. eexists. split; [reflexivity|]. simpl. auto.
Qed.

End Stuck.

(** ** The overlay at the edges of the map *)

Section Edges.

Import BasicGraphics.

Lemma f32_sub_diag (a : float32) :
  (exists s, f32_sub a a = S754_zero s) \/ f32_sub a a = S754_nan.
Proof.
  unfold f32_sub. destruct a as [s | s | | s m e]; simpl.
  - left. destruct s; eauto.
  - right. now destruct s.
  - now right.
  - left. unfold SFsub. rewrite Z.sub_diag. simpl. eauto.
Qed.

Lemma f32_sub_diag_finite (a : float32) :
  finite32 a = true -> exists s, f32_sub a a = S754_zero s.
Proof.
  intros Ha. destruct (f32_sub_diag a) as [Hz | Hn]; [exact Hz|].
  destruct a as [s | s | | s m e]; try discriminate.
  - destruct s; discriminate.
  - unfold f32_sub, SFsub in Hn. rewrite Z.sub_diag in Hn. discriminate.
Qed.

Lemma f32_div_by_nothing (a d : float32) :
  (exists s, d = S754_zero s) \/ d = S754_nan ->
  finite32 (f32_div a d) = false.
Proof.
  intros [[s ->] | ->]; destruct a as [sa | sa | | sa ma ea]; reflexivity.
Qed.

Lemma f32_mul_not_finite (a b : float32) :
  finite32 a = false -> finite32 (f32_mul a b) = false.
Proof.
  destruct a as [sa | sa | | sa ma ea]; try discriminate; intros _;
    destruct b as [sb | sb | | sb mb eb]; reflexivity.
Qed.

Lemma int_of_f32_not_finite (a : float32) :
  finite32 a = false -> int_of_f32 a = None.
Proof. destruct a; try discriminate; reflexivity. Qed.

(** X15.  On a map without width ([max_lon = min_lon]) or without height
    ([max_lat = min_lat]) the division is by zero (or by NaN), the product
    is an infinity or NaN, and the cast to [int] is undefined for every
    position; so neither drawing function is defined as soon as there is
    something to draw. *)
Theorem degenerate_map_undefined (g : BasicGraphics) :
  max_lon_ g = min_lon_ g \/ max_lat_ g = min_lat_ g ->
  (forall position, centre g position = None) /\
  (forall position rest, DrawIntersections g (position :: rest) = None) /\
  (forall passenger rest, DrawPassengers g (passenger :: rest) = None).
Proof.
  intros Hflat.
  assert (Hcentre : forall position, centre g position = None).
  { intros position. unfold centre, adjust. cbn [fst snd].
    destruct Hflat as [Hlon | Hlat].
    - rewrite Hlon.
      rewrite (int_of_f32_not_finite
                 (f32_mul (f32_div (f32_sub (fst position) (min_lon_ g))
                             (f32_sub (min_lon_ g) (min_lon_ g)))
                    (f32_of_int (cols g)))); [reflexivity|].
      apply f32_mul_not_finite, f32_div_by_nothing, f32_sub_diag.
    - rewrite Hlat.
      rewrite (int_of_f32_not_finite
                 (f32_mul (f32_div (f32_sub (min_lat_ g) (snd position))
                             (f32_sub (min_lat_ g) (min_lat_ g)))
                    (f32_of_int (rows g))));
        [now destruct (int_of_f32 _)|].
      apply f32_mul_not_finite, f32_div_by_nothing, f32_sub_diag. }
  split; [exact Hcentre|]. split.
  - intros position rest. unfold DrawIntersections. simpl.
    now rewrite Hcentre.
  - intros [s d] rest. simpl. now rewrite Hcentre.
Qed.

(** X16.  On a map with a width and a height that are finite and not
    zero, and an image whose size converts to finite floats, the
    north-west corner of the map, [(min_lon, max_lat)], is drawn at the
    pixel (0, 0). *)
Theorem north_west_corner (g : BasicGraphics) :
  finite32 (min_lon_ g) = true ->
  finite32 (max_lat_ g) = true ->
  nonzero32 (f32_sub (max_lon_ g) (min_lon_ g)) = true ->
  nonzero32 (f32_sub (max_lat_ g) (min_lat_ g)) = true ->
  finite32 (f32_of_int (cols g)) = true ->
  finite32 (f32_of_int (rows g)) = true ->
  centre g (min_lon_ g, max_lat_ g) = Some (0, 0)%Z.
Proof.
  intros Hlon Hlat Hwidth Hheight Hcols Hrows.
  unfold centre, adjust. cbn [fst snd].
  destruct (f32_sub_diag_finite _ Hlon) as [sx ->].
  destruct (f32_sub_diag_finite _ Hlat) as [sy ->].
  destruct (f32_sub (max_lon_ g) (min_lon_ g)) as [? | ? | | sw mw ew];
    try discriminate.
  destruct (f32_sub (max_lat_ g) (min_lat_ g)) as [? | ? | | sh mh eh];
    try discriminate.
  destruct (f32_of_int (cols g)) as [sc | ? | | sc mc ec];
    try discriminate;
    destruct (f32_of_int (rows g)) as [sr | ? | | sr mr er];
    try discriminate; reflexivity.
Qed.

End Edges.

(** ** The frame that is shown *)

Section Frames.

Import BasicGraphics.

Variables Image Colour : Type.
Variable img_rows img_cols : Image -> Z.
Variable circle : Image -> Z * Z -> Colour -> Image.
Variable addWeighted : Image -> Image -> Image.
Variable green : Colour.

Implicit Types (s : Screen Image Colour) (bg o r : Image)
  (rest : list Image) (g : BasicGraphics).

Lemma with_images_twice s (a b : list Image) :
  with_images (with_images s a) b = with_images s b.
Proof. reflexivity. Qed.

Lemma draw_circle_on g s bg o r rest (p : float32 * float32)
    (colour : Colour) :
  images_ s = bg :: o :: r :: rest ->
  draw_circle circle g s p colour =
  match centre g p with
  | Some c => Drawn (with_images s (bg :: circle o c colour :: r :: rest))
  | None => Undefined
  end.
Proof.
  intros Himgs. unfold draw_circle, image_at, set_image.
  rewrite Himgs. simpl. now destruct (centre g p).
Qed.

Lemma draw_intersections_on g (ps : list (float32 * float32)) :
  forall s bg o r rest,
    images_ s = bg :: o :: r :: rest ->
    draw_intersections circle green g s ps =
    match pixels g (map (fun p => (p, green)) ps) with
    | Some cs =>
        Drawn (with_images s (bg :: circles_on circle o cs :: r :: rest))
    | None => Undefined
    end.
Proof.
  induction ps as [|p ps IH]; intros s bg o r rest Himgs.
  - simpl. rewrite <- Himgs. now destruct s.
  - cbn [draw_intersections map pixels].
    rewrite (@draw_circle_on g s bg o r rest p green Himgs).
    destruct (centre g p) as [c|]; [|reflexivity].
    cbn [and_then].
    rewrite (IH (with_images s (bg :: circle o c green :: r :: rest))
               bg (circle o c green) r rest eq_refl).
    now destruct (pixels g _).
Qed.

Lemma draw_passengers_on g (rs : list (Rider Colour)) :
  forall s bg o r rest,
    images_ s = bg :: o :: r :: rest ->
    draw_passengers circle g s rs =
    match pixels g
            (flat_map (fun a => [(rider_start a, rider_colour a);
                                 (rider_dest a, rider_colour a)]) rs) with
    | Some cs =>
        Drawn (with_images s (bg :: circles_on circle o cs :: r :: rest))
    | None => Undefined
    end.
Proof.
  induction rs as [|a rs IH]; intros s bg o r rest Himgs.
  - simpl. rewrite <- Himgs. now destruct s.
  - cbn [draw_passengers flat_map app pixels].
    rewrite (@draw_circle_on g s bg o r rest (rider_start a)
               (rider_colour a) Himgs).
    destruct (centre g (rider_start a)) as [c|]; [|reflexivity].
    cbn [and_then].
    set (o1 := circle o c (rider_colour a)).
    rewrite (@draw_circle_on g (with_images s (bg :: o1 :: r :: rest))
               bg o1 r rest (rider_dest a) (rider_colour a) eq_refl).
    destruct (centre g (rider_dest a)) as [d|]; [|reflexivity].
    cbn [and_then]. rewrite with_images_twice.
    set (o2 := circle o1 d (rider_colour a)).
    rewrite (IH (with_images s (bg :: o2 :: r :: rest)) bg o2 r rest
               eq_refl).
    now destruct (pixels g _).
Qed.

Lemma blend_on s bg o r rest :
  images_ s = bg :: o :: r :: rest ->
  blend addWeighted s =
  Drawn (with_images s (bg :: o :: addWeighted o bg :: rest)).
Proof.
  intros Himgs. unfold blend, image_at, set_image. now rewrite Himgs.
Qed.

Lemma pixels_app g (a b : list ((float32 * float32) * Colour)) :
  pixels g (a ++ b) =
  match pixels g a, pixels g b with
  | Some ca, Some cb => Some (ca ++ cb)
  | _, _ => None
  end.
Proof.
  induction a as [|[p colour] a IH]; simpl.
  - now destruct (pixels g b).
  - rewrite IH. destruct (centre g p); [|reflexivity].
    destruct (pixels g a); [|reflexivity].
    now destruct (pixels g b).
Qed.

Lemma circles_on_app (img : Image) (a b : list ((Z * Z) * Colour)) :
  circles_on circle img (a ++ b) =
  circles_on circle (circles_on circle img a) b.
Proof. apply fold_left_app. Qed.

(** The whole of [DrawSimulation] on a screen with three images. *)
Lemma DrawSimulation_on s bg o r rest :
  images_ s = bg :: o :: r :: rest ->
  DrawSimulation img_rows img_cols circle addWeighted green s =
  match pixels (graphics_of img_rows img_cols s bg)
               (frame_points green s) with
  | Some cs =>
      let overlay := circles_on circle bg cs in
      Drawn (with_images s (bg :: overlay :: addWeighted overlay bg :: rest),
             addWeighted overlay bg)
  | None => Undefined
  end.
Proof.
  intros Himgs. unfold DrawSimulation, image_at, set_image.
  rewrite Himgs. cbn [nth_error and_then put with_images images_].
  unfold Screen_DrawIntersections, image_at.
  cbn [nth_error and_then images_ with_images intersections_].
  set (g := graphics_of img_rows img_cols s bg).
  change (graphics_of img_rows img_cols
            (with_images (with_images s (bg :: bg :: r :: rest))
               (bg :: bg :: bg :: rest)) bg) with g.
  rewrite with_images_twice.
  rewrite (@draw_intersections_on g (intersections_ s)
             (with_images s (bg :: bg :: bg :: rest)) bg bg bg rest eq_refl).
  unfold frame_points. rewrite pixels_app.
  destruct (pixels g (map (fun p => (p, green)) (intersections_ s)))
    as [cs1|]; [|reflexivity].
  cbn [and_then]. rewrite with_images_twice.
  set (o1 := circles_on circle bg cs1).
  rewrite (@blend_on (with_images s (bg :: o1 :: bg :: rest))
             bg o1 bg rest eq_refl).
  cbn [and_then]. rewrite with_images_twice.
  unfold Screen_DrawPassengers, image_at.
  cbn [nth_error and_then images_ with_images new_passengers].
  change (graphics_of img_rows img_cols
            (with_images s (bg :: o1 :: addWeighted o1 bg :: rest)) bg)
    with g.
  rewrite (@draw_passengers_on g (new_passengers s)
             (with_images s (bg :: o1 :: addWeighted o1 bg :: rest))
             bg o1 (addWeighted o1 bg) rest eq_refl).
  destruct (pixels g (flat_map _ (new_passengers s))) as [cs2|];
    [|reflexivity].
  cbn [and_then]. rewrite with_images_twice.
  set (o2 := circles_on circle o1 cs2).
  rewrite (@blend_on (with_images s (bg :: o2 :: addWeighted o1 bg :: rest))
             bg o2 (addWeighted o1 bg) rest eq_refl).
  cbn [and_then image_at with_images images_ nth_error].
  rewrite with_images_twice.
  unfold o2, o1. rewrite <- circles_on_app. reflexivity.
Qed.

(** X17.  [DrawSimulation] throws [std::out_of_range] exactly when
    [images_] holds fewer than three images; in particular it never throws
    once [LoadBackgroundImg] has run. *)
Theorem DrawSimulation_throws_iff s :
  (DrawSimulation img_rows img_cols circle addWeighted green s = Thrown <->
   (length (images_ s) < 3)%nat) /\
  (forall background : Image,
     DrawSimulation img_rows img_cols circle addWeighted green
       (LoadBackgroundImg s background) <> Thrown).
Proof.
  assert (Hthree : forall t : Screen Image Colour,
            (3 <= length (images_ t))%nat ->
            DrawSimulation img_rows img_cols circle addWeighted green t <>
            Thrown).
  { intros t Hlen.
    destruct (images_ t) as [|bg [|o [|r rest]]] eqn:Himgs;
      simpl in Hlen; try lia.
    rewrite (DrawSimulation_on t Himgs).
    destruct (pixels _ _); discriminate. }
  split.
  - split.
    + intros Hthrown.
      destruct (Nat.lt_ge_cases (length (images_ s)) 3) as [Hlt | Hge];
        [exact Hlt|].
      now apply Hthree in Hge.
    + intros Hlen.
      unfold DrawSimulation, image_at, set_image.
      destruct (images_ s) as [|bg [|o [|r rest]]]; simpl in Hlen;
        try lia; reflexivity.
  - intros background. apply Hthree.
    unfold LoadBackgroundImg. cbn [images_ with_images].
    rewrite length_app. simpl. lia.
Qed.

(** X18.  Every frame is rebuilt from the background: when
    [DrawSimulation] returns on a screen with three images, the first
    image is untouched, the second is the first with a green circle on
    every intersection and two circles in its own colour for every new
    passenger, the third, which is the one shown, is the blend of the
    second with the first, and none of this depends on what the second
    and third image held before; drawing again gives the same frame. *)
Theorem DrawSimulation_frame s bg o r rest
    (s' : Screen Image Colour) (shown : Image) :
  images_ s = bg :: o :: r :: rest ->
  DrawSimulation img_rows img_cols circle addWeighted green s =
    Drawn (s', shown) ->
  (exists cs,
     pixels (graphics_of img_rows img_cols s bg) (frame_points green s) =
       Some cs /\
     images_ s' =
       bg :: circles_on circle bg cs ::
       addWeighted (circles_on circle bg cs) bg :: rest /\
     shown = addWeighted (circles_on circle bg cs) bg) /\
  DrawSimulation img_rows img_cols circle addWeighted green s' =
    Drawn (s', shown).
Proof.
  intros Himgs Hdraw. rewrite (DrawSimulation_on s Himgs) in Hdraw.
  destruct (pixels _ _) as [cs|] eqn:Hcs; [|discriminate].
  cbn zeta in Hdraw. injection Hdraw as <- <-.
  split; [exists cs; auto|].
  set (ov := circles_on circle bg cs).
  rewrite (@DrawSimulation_on
             (with_images s (bg :: ov :: addWeighted ov bg :: rest))
             bg ov (addWeighted ov bg) rest eq_refl).
  change (graphics_of img_rows img_cols (with_images s _) bg)
    with (graphics_of img_rows img_cols s bg).
  change (frame_points green (with_images s _))
    with (frame_points green s).
  rewrite Hcs. cbn zeta. now rewrite with_images_twice.
Qed.

End Frames.

(** ** The further theorems at work *)

(** On a fleet of three vehicles, which all make their request in the
    first tick. *)
Lemma Drive_calls_witness :
  map (fun v => id_ v) (vehicles_ convoy) = [0; 1; 2]%Z /\
  calls (world_ convoy_ticked) =
    [VehicleRequestsPassenger 0; VehicleRequestsPassenger 1;
     VehicleRequestsPassenger 2] /\
  exists es : list (list MatcherCall * nat),
    Forall2 (iteration_effect true) (vehicles_ convoy) es /\
    calls (world_ convoy_ticked) =
      calls (world_ convoy) ++ concat (map fst es) /\
    draws (world_ convoy_ticked) =
      (draws (world_ convoy) + list_sum (map snd es))%nat.
Proof.
  split; [vm_compute; reflexivity|].
  split; [vm_compute; reflexivity|].
  destruct (@Drive_calls float D direct convoy convoy_ticked)
    as (_ & es & Hes & Hcalls & Hdraws).
  - vm_compute. reflexivity.
  - exists es. split; [exact Hes|]. split; [exact Hcalls | exact Hdraws].
Defined.

Lemma Drive_keeps_passengers_witness :
  Forall2 (@same_passenger float) (vehicles_ boarded)
    (vehicles_ boarded_ticked).
Proof.
  apply (@Drive_keeps_passengers float D direct boarded boarded_ticked).
  vm_compute. reflexivity.
Defined.

Lemma Drive_vehicle_waiting_witness :
  exists v' w',
    Drive_vehicle (SF := D) direct two_nodes 3%float true parked fresh =
      Ok (v', w') /\
    position_ v' = coord 10 0 /\ state_ v' = waiting /\ calls w' = [].
Proof.
  destruct (@Drive_vehicle_waiting float D direct two_nodes 3%float true
              parked fresh eq_refl)
    as (v' & w' & Hrun & Hpos & Hs & _ & _ & Hcalls).
  exists v', w'. split; [exact Hrun|]. split; [exact Hpos|].
  split; [exact Hs | exact Hcalls].
Defined.

Lemma AssignPassenger_last_wins_witness :
  AssignPassenger assigned 0 (coord 10 0) =
  AssignPassenger fleet 0 (coord 10 0).
Proof.
  apply (@AssignPassenger_last_wins float fleet assigned 0%Z (coord 3 4)
           (coord 10 0)).
  reflexivity.
Defined.

Lemma vehicle_at_own_id_witness :
  id_ newcomer = 0%Z /\ vehicle_at fleet (id_ newcomer) = Ok newcomer /\
  idCnt_ fleet = 1%Z.
Proof.
  apply (@vehicle_at_own_id float D direct (fun _ => True) fleet 0%nat
           newcomer).
  - apply reach_matcher, reach_new.
  - reflexivity.
Defined.


Lemma mid_tick_called_interleaved :
  interleaved (SF := D) direct (fun v => passenger_ v = None)
    mid_tick_called.
Proof.
  eapply inter_assign with (vm := mid_tick) (id := 0%Z)
    (position := coord 3 4);
    [| vm_compute; reflexivity | reflexivity | vm_compute; reflexivity].
  assert (E : exists v' w',
             Drive_vehicle (SF := D) direct (model_ convoy)
               (distance_per_cycle_ convoy) (ride_matcher_ convoy)
               newcomer (world_ convoy) = Ok (v', w') /\
             mid_tick =
             with_vehicles convoy (replace_at (vehicles_ convoy) 0 v') w').
  { do 2 eexists. split; vm_compute; reflexivity. }
  destruct E as (v' & w' & Hrun & ->).
  eapply inter_iteration with (v := newcomer);
    [apply inter_matcher, inter_new | reflexivity | exact Hrun].
Qed.

(** In the middle of the first tick of a fleet of three vehicles, after the
    iteration for the first vehicle and a callback that assigns it a
    pickup. *)
Lemma Drive_times_returns_witness :
  (forall v w,
     In v (vehicles_ mid_tick_called) ->
     exists r,
       Drive_vehicle (SF := D) direct (model_ mid_tick_called)
         (distance_per_cycle_ mid_tick_called) true v w = Ok r) /\
  exists vm', Drive_times (SF := D) 4 direct mid_tick_called = Ok vm'.
Proof.
  apply (@Drive_times_returns float D direct 4%nat mid_tick_called).
  - assert (Hmodel : model_ mid_tick_called = two_nodes)
      by (vm_compute; reflexivity).
    rewrite Hmodel. exact direct_ends_at_goal.
  - exact mid_tick_called_interleaved.
  - vm_compute. reflexivity.
Defined.

Lemma reachable_distance_per_cycle_witness :
  MinLat (model_ called_arrived) = 0%float /\
  MaxLat (model_ called_arrived) = 3000%float /\
  distance_per_cycle_ called_arrived = 3%float.
Proof.
  split; [vm_compute; reflexivity|]. split; [vm_compute; reflexivity|].
  rewrite (@reachable_distance_per_cycle float D direct (fun _ => True)
             called_arrived called_arrived_reachable).
  vm_compute. reflexivity.
Defined.

Lemma Drive_times_stuck_witness :
  exists vm',
    Drive_times (SF := D) 3 no_route fleet = Ok vm' /\
    map (fun v => position_ v) (vehicles_ vm') = [coord 0 0] /\
    calls (world_ vm') = [] /\
    draws (world_ vm') = 5%nat.
Proof.
  destruct (@Drive_times_stuck float D no_route 3%nat fleet
              (fun _ _ => eq_refl))
    as (vm' & Hrun & Hpos & _ & _ & Hcalls & Hdraws).
  - repeat constructor.
  - exists vm'. split; [exact Hrun|]. split; [exact Hpos|].
    split; [exact Hcalls | exact Hdraws].
Defined.

Lemma first_tick_requests_witness :
  exists vm',
    Drive (SF := D) direct fleet = Ok vm' /\
    calls (world_ vm') = [VehicleRequestsPassenger 0].
Proof.
  destruct (@first_tick_requests float D direct fleet eq_refl)
    as (vm' & Hrun & Hcalls & _).
  - repeat constructor.
  - exists vm'. split; [exact Hrun | exact Hcalls].
Defined.

Lemma degenerate_map_undefined_witness :
  BasicGraphics.centre flat_overlay middle = None /\
  BasicGraphics.DrawIntersections flat_overlay [middle] = None.
Proof.
  destruct (@degenerate_map_undefined flat_overlay (or_introl eq_refl))
    as (Hcentre & Hdraw & _).
  split; [apply Hcentre | apply Hdraw].
Defined.

Lemma north_west_corner_witness :
  BasicGraphics.centre overlay
    (BasicGraphics.min_lon_ overlay, BasicGraphics.max_lat_ overlay) =
  Some (0, 0)%Z.
Proof.
  apply (@north_west_corner overlay); reflexivity.
Defined.

Lemma DrawSimulation_frame_witness :
  images_ (fst (or_screen (sketch_draw screen))) =
    [[];
     [((1, 1)%Z, 1%nat); ((0, 0)%Z, 5%nat); ((1, 1)%Z, 5%nat)];
     snd (or_screen (sketch_draw screen))] /\
  sketch_draw (fst (or_screen (sketch_draw screen))) = sketch_draw screen.
Proof.
  destruct (@DrawSimulation_frame sketch nat (fun _ => 3%Z) (fun _ => 3%Z)
              sketch_circle sketch_blend 1%nat screen
              [] [((7, 7)%Z, 9%nat)] [((8, 8)%Z, 9%nat)] []
              (fst (or_screen (sketch_draw screen)))
              (snd (or_screen (sketch_draw screen)))
              eq_refl eq_refl) as [_ Hagain].
  split; [reflexivity | exact Hagain].
Defined.
